(** * GS1 Digital Link URI parser: a shallow embedding of gs1dlparser.c

    The C code works on NUL-terminated strings held in caller-owned
    buffers and rewrites the input buffer in place while it parses.  The
    embedding keeps that shape: a buffer is a [list ascii] (the bytes of
    the array), a pointer into it is a [nat] offset, the byte read one
    past the stored bytes is the terminating NUL, and every destructive
    write of the source is a [poke] at the same offset. *)

From Stdlib Require Import Ascii String ZArith Lia.
From stdpp Require Import base list.

Local Open Scope char_scope.
Local Open Scope nat_scope.

(** ** Bytes, buffers and the C string library *)

Definition NUL : ascii := "000".

(** A string literal of the source, as its bytes without the terminator. *)
Definition str (s : string) : list ascii := list_ascii_of_string s.

(** [buf[i]]; the byte after the last stored one is the terminator. *)
Definition peek (buf : list ascii) (i : nat) : ascii := nth i buf NUL.

(** [buf[i] = c]. *)
Definition poke (buf : list ascii) (i : nat) (c : ascii) : list ascii :=
  <[i := c]> buf.

Fixpoint until_nul (s : list ascii) : list ascii :=
  match s with
  | [] => []
  | c :: s' => if Ascii.eqb c NUL then [] else c :: until_nul s'
  end.

(** The C string that starts at offset [p] of [buf]. *)
Definition cstr (buf : list ascii) (p : nat) : list ascii :=
  until_nul (drop p buf).

Definition strlen (buf : list ascii) (p : nat) : nat := length (cstr buf p).

Fixpoint index_of (c : ascii) (s : list ascii) : option nat :=
  match s with
  | [] => None
  | x :: s' => if Ascii.eqb x c then Some 0 else option_map S (index_of c s')
  end.

Fixpoint rindex_of (c : ascii) (s : list ascii) : option nat :=
  match s with
  | [] => None
  | x :: s' =>
      match rindex_of c s' with
      | Some k => Some (S k)
      | None => if Ascii.eqb x c then Some 0 else None
      end
  end.

(** [strchr(buf + p, c)] and [strrchr(buf + p, c)] for [c] other than NUL;
    [None] is the NULL pointer. *)
Definition strchr (buf : list ascii) (p : nat) (c : ascii) : option nat :=
  option_map (Nat.add p) (index_of c (cstr buf p)).

Definition strrchr (buf : list ascii) (p : nat) (c : ascii) : option nat :=
  option_map (Nat.add p) (rindex_of c (cstr buf p)).

(** [memchr(buf + p, c, n)]: unlike [strchr] it does not stop at a NUL. *)
Definition memchr (buf : list ascii) (p : nat) (c : ascii) (n : nat) : option nat :=
  option_map (Nat.add p) (index_of c (take n (drop p buf))).

Fixpoint span_len (accept s : list ascii) : nat :=
  match s with
  | [] => 0
  | x :: s' => if existsb (Ascii.eqb x) accept then S (span_len accept s') else 0
  end.

Definition strspn (buf : list ascii) (p : nat) (accept : list ascii) : nat :=
  span_len accept (cstr buf p).

Fixpoint bytes_eqb (a b : list ascii) : bool :=
  match a, b with
  | [], [] => true
  | x :: a', y :: b' => Ascii.eqb x y && bytes_eqb a' b'
  | _, _ => false
  end.

(** [strncmp(a, b, n) == 0] on two C strings. *)
Definition strncmp_eq (a b : list ascii) (n : nat) : bool :=
  bytes_eqb (take n a) (take n b).

(** [strncat(dst, src, n)]: at most [n] bytes of the C string [src] are
    copied over the terminator of [dst] and a new terminator is written
    after them.  The write at offset [length dst] (one past the bytes
    stored so far) makes the list one byte longer.  The list is not cut
    at the size of the array: a list longer than the array records a
    write past its end (see the parser context below for where that
    byte falls). *)
Definition strncat (dst src : list ascii) (n : nat) : list ascii :=
  let k := strlen dst 0 in
  let copied := take n src ++ [NUL] in
  take k dst ++ copied ++ drop (k + length copied) dst.

(** ** Constants of gs1dlparser.h *)

Definition GS1_DL_MAX_AI_LEN : nat := 90.
Definition GS1_DL_MAX_AIS : nat := 64.
Definition GS1_DL_MAX_AI_BUF : nat := GS1_DL_MAX_AIS * (4 + GS1_DL_MAX_AI_LEN).

(** ** Lookup tables *)

Definition uriCharacters : list ascii :=
  str "ABCDEFGHIJKLMNOPQRSTUVWXYZabcdefghijklmnopqrstuvwxyz0123456789-._~:/?#[]@!$&'()*+,;=%".

Definition dl_pkeys : list (list ascii) :=
  map str [ "00"; "01"; "253"; "255"; "401"; "402"; "414"; "417"; "8003";
            "8004"; "8006"; "8010"; "8013"; "8017"; "8018" ]%string.

Definition isDLpkey (buf : list ascii) (ai ailen : nat) : bool :=
  existsb (fun k => (length k =? ailen) && strncmp_eq (cstr buf ai) k ailen)
          dl_pkeys.

Definition fixedAIprefixes : list (list ascii) :=
  map str [ "00"; "01"; "02"; "03"; "04";
            "11"; "12"; "13"; "14"; "15"; "16"; "17"; "18"; "19";
            "20"; "31"; "32"; "33"; "34"; "35"; "36"; "41" ]%string.

Definition isFNC1required (ai : list ascii) : bool :=
  negb (existsb (fun k => strncmp_eq k ai 2) fixedAIprefixes).

Definition is_digit (c : ascii) : bool :=
  (48 <=? nat_of_ascii c) && (nat_of_ascii c <=? 57).

(** True iff the [len] bytes at [buf + s] are all digits. *)
Fixpoint allDigits (buf : list ascii) (s len : nat) : bool :=
  match len with
  | 0 => true
  | S len' => if is_digit (peek buf s) then allDigits buf (S s) len' else false
  end.

(** ** Percent decoding *)

Definition isxdigit (c : ascii) : bool :=
  let n := nat_of_ascii c in
  ((48 <=? n) && (n <=? 57)) || ((65 <=? n) && (n <=? 70))
  || ((97 <=? n) && (n <=? 102)).

Definition hexval (c : ascii) : nat :=
  let n := nat_of_ascii c in
  if n <=? 57 then n - 48 else if n <=? 70 then n - 55 else n - 87.

(** [(char)strtoul(hex, NULL, 16)] for the two hex digits [a] and [b]. *)
Definition hexbyte (a b : ascii) : ascii := ascii_of_nat (16 * hexval a + hexval b).

(** [a - b] in [size_t], which wraps around below zero. *)
Definition SIZE_MAX : Z := (2 ^ 64 - 1)%Z.
Definition size_sub (a b : nat) : Z :=
  if b <=? a then Z.of_nat (a - b)
  else (SIZE_MAX + 1 - Z.of_nat (b - a))%Z.

(** The test [i < inlen - 2 && in[i] == '%' && isxdigit(in[i+1]) &&
    isxdigit(in[i+2])] of the decoding loop. *)
Definition escape_at (buf : list ascii) (inp inlen i : nat) : bool :=
  (Z.of_nat i <? size_sub inlen 2)%Z
  && Ascii.eqb (peek buf (inp + i)) "%"
  && isxdigit (peek buf (inp + i + 1))
  && isxdigit (peek buf (inp + i + 2)).

(** The [for] loop of [URIunescape]; every turn advances [i], so [inlen]
    turns are enough and [None] marks a loop cut short by its fuel. *)
Fixpoint URIunescape_loop (fuel : nat) (out : list ascii) (maxlen : nat)
    (buf : list ascii) (inp inlen : nat) (is_query_component : bool)
    (i j : nat) : option (list ascii * nat) :=
  if (i <? inlen) && (j <? maxlen) then
    match fuel with
    | 0 => None
    | S fuel' =>
        if escape_at buf inp inlen i then
          URIunescape_loop fuel' (poke out j (hexbyte (peek buf (inp + i + 1))
                                                     (peek buf (inp + i + 2))))
            maxlen buf inp inlen is_query_component (i + 2 + 1) (j + 1)
        else if is_query_component && Ascii.eqb (peek buf (inp + i)) "+" then
          URIunescape_loop fuel' (poke out j " ")
            maxlen buf inp inlen is_query_component (i + 1) (j + 1)
        else
          URIunescape_loop fuel' (poke out j (peek buf (inp + i)))
            maxlen buf inp inlen is_query_component (i + 1) (j + 1)
    end
  else Some (out, j).

(** [URIunescape(out, maxlen, buf + inp, inlen, is_query_component)]:
    the array [out] after the call and the returned length. *)
Definition URIunescape (out : list ascii) (maxlen : nat) (buf : list ascii)
    (inp inlen : nat) (is_query_component : bool) : option (list ascii * nat) :=
  match URIunescape_loop inlen out maxlen buf inp inlen is_query_component 0 0 with
  | Some (out', j) => Some (poke out' j NUL, j)
  | None => None
  end.

(** ** The parser context (gs1dlparser.h)

    [aiBuf] holds the bytes of the array that the current parse has
    written, terminator included, so its length is one more than the
    highest offset written.  An element refers to its AI and value by
    offset into [aiBuf].  [aiData] holds the entries written so far;
    entries at or after [numAIs] are stale.  [err] is the message without
    its terminator.

    What the caller's context held before the call in the rest of
    [aiBuf] and [aiData] is left out: the parser never reads it, and the
    writers reach bytes of [aiBuf] past those written (read here as NUL)
    only through a value that holds a NUL byte, decoded from %00.

    The four fields are kept apart, while in [struct gs1DLparser] the
    array [aiData] follows [aiBuf] at once ([aiBuf] has a multiple of
    eight bytes): the byte at offset [GS1_DL_MAX_AI_BUF] of [aiBuf] is
    byte 0 of the pointer [aiData[0].ai].  A context whose [aiBuf] is
    longer than [GS1_DL_MAX_AI_BUF] is thus one in which the parser has
    overwritten that byte with a NUL, and in which the code reads the
    first AI through a changed pointer; the record still shows the
    offset that was stored.  Lengths, counts, the other fields and the
    bytes of the string in [aiBuf] are not touched by that write.
    Theorems on the parse of an input that may fill the array say what
    depends on that pointer under the condition that [aiBuf] is no
    longer than [GS1_DL_MAX_AI_BUF]. *)

Record gs1AIelement := {
  ai : nat;
  ailen : nat;
  value : nat;
  vallen : nat;
  fnc1 : bool
}.

Record gs1DLparser := {
  aiBuf : list ascii;
  aiData : list gs1AIelement;
  numAIs : nat;
  err : list ascii
}.

Definition set_err (ctx : gs1DLparser) (msg : list ascii) : gs1DLparser :=
  {| aiBuf := aiBuf ctx; aiData := aiData ctx; numAIs := numAIs ctx; err := msg |}.

Definition set_aiBuf (ctx : gs1DLparser) (b : list ascii) : gs1DLparser :=
  {| aiBuf := b; aiData := aiData ctx; numAIs := numAIs ctx; err := err ctx |}.

(** How a block of the parser is left: by falling through with a value,
    or by [goto fail]. *)
Inductive flow (A : Type) : Type :=
  | Cont (a : A)
  | GotoFail (ctx : gs1DLparser).
Arguments Cont {A} a.
Arguments GotoFail {A} ctx.

(** The macro [writeAIbuf(v, l)], [v] being a C string. *)
Definition writeAIbuf (ctx : gs1DLparser) (v : list ascii) (l : nat)
  : flow gs1DLparser :=
  if GS1_DL_MAX_AI_BUF <? strlen (aiBuf ctx) 0 + l then GotoFail ctx
  else Cont (set_aiBuf ctx (strncat (aiBuf ctx) v l)).

(** One turn of the padding loop:
    [aival[13-i] = vallen >= i+1 ? aival[vallen-i-1] : '0']. *)
Definition pad_step (vlen : nat) (aival : list ascii) (i : nat) : list ascii :=
  poke aival (13 - i) (if i + 1 <=? vlen then peek aival (vlen - i - 1) else "0").

(** Special handling of AI (01): the array and length handed to the
    append. *)
Definition gtin14 (buf : list ascii) (ai ailen : nat) (aival : list ascii)
    (vlen : nat) : list ascii * nat :=
  if (ailen =? 2) && strncmp_eq (cstr buf ai) (str "01") 2
     && ((vlen =? 13) || (vlen =? 12) || (vlen =? 8))
  then (poke (fold_left (pad_step vlen) (seq 0 14) aival) 14 NUL, 14)
  else (aival, vlen).

(** The code shared, word for word, by the path loop and the query loop:
    pad a GTIN, append AI and value to [aiBuf], record the element. *)
Definition store_AI (ctx : gs1DLparser) (buf : list ascii) (ai ailen : nat)
    (aival : list ascii) (vlen : nat) : flow (gs1DLparser * list ascii) :=
  let '(aival, vlen) := gtin14 buf ai ailen aival vlen in
  let outai := strlen (aiBuf ctx) 0 in
  match writeAIbuf ctx (cstr buf ai) ailen with
  | GotoFail c => GotoFail c
  | Cont ctx =>
      let outval := strlen (aiBuf ctx) 0 in
      match writeAIbuf ctx (cstr aival 0) vlen with
      | GotoFail c => GotoFail c
      | Cont ctx =>
          if numAIs ctx <? GS1_DL_MAX_AIS then
            (* aiData[numAIs] = ...: the entries are written in order *)
            Cont ({| aiBuf := aiBuf ctx;
                     aiData := take (numAIs ctx) (aiData ctx) ++
                               [ {| ai := outai; ailen := ailen;
                                    value := outval; vallen := vlen;
                                    fnc1 := isFNC1required (cstr (aiBuf ctx) outai) |} ];
                     numAIs := numAIs ctx + 1;
                     err := err ctx |}, aival)
          else GotoFail (set_err ctx (str "Too many AIs"))
      end
  end.

(** [snprintf(ctx->err, sizeof(ctx->err), ...)] keeps 127 bytes. *)
Definition snprintf_err (msg : list ascii) : list ascii := take 127 msg.

(** ** Backward search for the primary key

    The loop [while ((r = strrchr(pi, '/')) != NULL)].  It returns the
    buffer as the loop leaves it and [dp].  Every turn but the last
    shortens the string at [pi], so [None] marks a loop cut short by its
    fuel. *)
Fixpoint find_dp (fuel : nat) (buf : list ascii) (pi p : nat)
  : option (list ascii * option nat) :=
  match strrchr buf pi "/" with
  | None => Some (buf, None)
  | Some r =>
      match fuel with
      | 0 => None
      | S fuel' =>
          let buf := poke buf p "/" in
          let buf := poke buf r NUL in
          let p' := strrchr buf pi "/" in
          let buf := poke buf r "/" in
          match p' with
          | None => Some (buf, None)
          | Some p =>
              let ailen := r - p - 1 in
              if (ailen <? 2) || (4 <? ailen) || negb (allDigits buf (p + 1) ailen)
              then Some (buf, None)
              else if isDLpkey buf (p + 1) ailen then Some (buf, Some p)
              else find_dp fuel' (poke buf p NUL) pi p
          end
      end
  end.

(** ** The path loop

    The loop [while ( *p)] over the DL path info.  [None] is a run with
    no defined result: [strchr] returned NULL for [r], which the code
    then dereferences, or the fuel ran out. *)
Fixpoint path_loop (fuel : nat) (buf : list ascii) (ctx : gs1DLparser)
    (aival : list ascii) (p : nat) : option (flow (gs1DLparser * list ascii)) :=
  if Ascii.eqb (peek buf p) NUL then Some (Cont (ctx, aival))
  else
    match fuel with
    | 0 => None
    | S fuel' =>
        let p := p + 1 in
        match strchr buf p "/" with
        | None => None
        | Some r =>
            let ai := p in
            let ailen := r - p in
            let r := r + 1 in
            let p := match strchr buf r "/" with
                     | Some q => q
                     | None => r + strlen buf r
                     end in
            if p =? r then
              Some (GotoFail (set_err ctx (snprintf_err
                (str "AI (" ++ take ailen (cstr buf ai)
                 ++ str ") value path element is empty"))))
            else
              match URIunescape aival GS1_DL_MAX_AI_LEN buf r (p - r) false with
              | None => None
              | Some (aival, vlen) =>
                  if vlen =? 0 then
                    Some (GotoFail (set_err ctx
                      (str "Decoded AI (" ++ take ailen (cstr buf ai)
                       ++ str ") from DL path info too long")))
                  else
                    match store_AI ctx buf ai ailen aival vlen with
                    | GotoFail c => Some (GotoFail c)
                    | Cont (ctx, aival) => path_loop fuel' buf ctx aival p
                    end
              end
        end
    end.

(** ** The query loop

    The loop [while (p && *p)] over the query parameters, entered with
    [p] other than NULL. *)

(** [while ( *p == '&') p++]: the number of bytes skipped. *)
Fixpoint count_amp (s : list ascii) : nat :=
  match s with
  | c :: s' => if Ascii.eqb c "&" then S (count_amp s') else 0
  | [] => 0
  end.

Fixpoint query_loop (fuel : nat) (buf : list ascii) (ctx : gs1DLparser)
    (aival : list ascii) (p : nat) : option (flow (gs1DLparser * list ascii)) :=
  if Ascii.eqb (peek buf p) NUL then Some (Cont (ctx, aival))
  else
    match fuel with
    | 0 => None
    | S fuel' =>
        let p := p + count_amp (drop p buf) in
        let r := match strchr buf p "&" with
                 | Some r => r
                 | None => p + strlen buf p
                 end in
        match memchr buf p "=" (r - p) with
        | None => query_loop fuel' buf ctx aival r
        | Some e =>
            let ai := p in
            let ailen := e - p in
            if allDigits buf p ailen then
              if (ailen <? 2) || (4 <? ailen) then
                Some (GotoFail (set_err ctx
                  (str "Stopping. Numeric query parameter that is not a valid AI is illegal: "
                   ++ take (if ailen <? 10 then ailen else 10) (cstr buf p)
                   ++ str "...")))
              else
                let e := e + 1 in
                if r =? e then
                  Some (GotoFail (set_err ctx (snprintf_err
                    (str "AI (" ++ take ailen (cstr buf ai)
                     ++ str ") value query element is empty"))))
                else
                  match URIunescape aival GS1_DL_MAX_AI_LEN buf e (r - e) true with
                  | None => None
                  | Some (aival, vlen) =>
                      if vlen =? 0 then
                        Some (GotoFail (set_err ctx
                          (str "Decoded AI (" ++ take ailen (cstr buf ai)
                           ++ str ") value from DL query params too long")))
                      else
                        match store_AI ctx buf ai ailen aival vlen with
                        | GotoFail c => Some (GotoFail c)
                        | Cont (ctx, aival) => query_loop fuel' buf ctx aival r
                        end
                  end
            else query_loop fuel' buf ctx aival r
        end
    end.

(** ** gs1_parseDLuri *)

(** Restore the original query parameter and fragment delimiters. *)
Definition put_back (buf : list ascii) (qp fr : option nat) : list ascii :=
  let buf := match qp with Some q => poke buf (q - 1) "?" | None => buf end in
  match fr with Some f => poke buf (f - 1) "#" | None => buf end.

(** The label [out]. *)
Definition label_out (ret : bool) (ctx : gs1DLparser) (buf : list ascii)
    (qp fr : option nat) : bool * gs1DLparser * list ascii :=
  (ret, ctx, put_back buf qp fr).

(** The label [fail]. *)
Definition label_fail (ctx : gs1DLparser) (buf : list ascii)
    (qp fr : option nat) : bool * gs1DLparser * list ascii :=
  let ctx := match err ctx with
             | [] => set_err ctx (str "Failed to parse DL data")
             | _ => ctx
             end in
  label_out false
    {| aiBuf := aiBuf ctx; aiData := aiData ctx; numAIs := 0; err := err ctx |}
    buf qp fr.

(** The local array [char aival[GS1_DL_MAX_AI_LEN+1]].  C leaves it
    uninitialised; the code writes every byte of it before reading it. *)
Definition aival0 : list ascii := replicate (GS1_DL_MAX_AI_LEN + 1) NUL.

(** The rest of [gs1_parseDLuri] once [pi], [qp] and [fr] are known:
    the backward search, the path loop and the query loop. *)
Definition locate_and_extract (fuel : nat) (ctx : gs1DLparser)
    (buf : list ascii) (pi : nat) (qp fr : option nat)
  : option (bool * gs1DLparser * list ascii) :=
  match find_dp fuel buf pi pi with
  | None => None
  | Some (buf, None) =>
      Some (label_fail (set_err ctx (str "No GS1 DL keys found in path info"))
              buf qp fr)
  | Some (buf, Some dp) =>
      match path_loop fuel buf ctx aival0 dp with
      | None => None
      | Some (GotoFail c) => Some (label_fail c buf qp fr)
      | Some (Cont (ctx, aival)) =>
          match (match qp with
                 | Some q => query_loop fuel buf ctx aival q
                 | None => Some (Cont (ctx, aival))
                 end) with
          | None => None
          | Some (GotoFail c) => Some (label_fail c buf qp fr)
          | Some (Cont (ctx, _)) => Some (label_out true ctx buf qp fr)
          end
      end
  end.

(** The context as the first three assignments leave it. *)
Definition ctx_reset : gs1DLparser :=
  {| aiBuf := [NUL]; aiData := []; numAIs := 0; err := [] |}.

(** [gs1_parseDLuri(ctx, dlData)]: the returned flag, the context and the
    caller's buffer after the call.  [None] is a run with no defined
    result. *)
Definition gs1_parseDLuri (ctx : gs1DLparser) (dlData : list ascii)
  : option (bool * gs1DLparser * list ascii) :=
  let fuel := S (length dlData) in
  let ctx := ctx_reset in
  let p := 0 in
  if negb (strspn dlData p uriCharacters =? strlen dlData p) then
    Some (label_fail (set_err ctx (str "URI contains illegal characters"))
            dlData None None)
  else
    let scheme :=
      if (8 <=? strlen dlData p) && strncmp_eq (cstr dlData p) (str "https://") 8
      then Some (p + 8)
      else if (7 <=? strlen dlData p) && strncmp_eq (cstr dlData p) (str "http://") 7
      then Some (p + 7)
      else None in
    match scheme with
    | None =>
        Some (label_fail (set_err ctx (str "Scheme must be http:// or https://"))
                dlData None None)
    | Some p =>
        match strchr dlData p "/" with
        | None =>
            Some (label_fail (set_err ctx (str "URI must contain a domain and path info"))
                    dlData None None)
        | Some r =>
            if r - p <? 1 then
              Some (label_fail (set_err ctx (str "URI must contain a domain and path info"))
                      dlData None None)
            else
              let pi := r in
              let '(buf, fr) := match strchr dlData pi "#" with
                                | Some f => (poke dlData f NUL, Some (f + 1))
                                | None => (dlData, None)
                                end in
              let '(buf, qp) := match strchr buf pi "?" with
                                | Some q => (poke buf q NUL, Some (q + 1))
                                | None => (buf, None)
                                end in
              locate_and_extract fuel ctx buf pi qp fr
        end
    end.

(** ** The three writers

    Each writer returns the bytes it stores in [out] before the final
    terminator.  The [for] loop over [ctx->aiData] runs once, or twice
    when [fixedFirst] is set ([goto nextPass]). *)

Definition noAI : gs1AIelement :=
  {| ai := 0; ailen := 0; value := 0; vallen := 0; fnc1 := false |}.

(** [ctx->aiData[i]]. *)
Definition aiData_at (ctx : gs1DLparser) (i : nat) : gs1AIelement :=
  nth i (aiData ctx) noAI.

(** [fixedFirst && !(fixedPass ^ ai.fnc1)]: the element is left for the
    other pass. *)
Definition skipped (fixedFirst fixedPass : bool) (a : gs1AIelement) : bool :=
  fixedFirst && negb (xorb fixedPass (fnc1 a)).

(** [for (i = 0; i < ctx->numAIs; i++)] with loop body [body]. *)
Definition for_AIs (ctx : gs1DLparser)
    (body : list ascii -> gs1AIelement -> list ascii) (out : list ascii)
  : list ascii :=
  fold_left (fun out i => body out (aiData_at ctx i)) (seq 0 (numAIs ctx)) out.

(** The two passes around a loop body. *)
Definition passes (ctx : gs1DLparser) (fixedFirst : bool)
    (body : bool -> list ascii -> gs1AIelement -> list ascii)
    (out : list ascii) : list ascii :=
  let out := for_AIs ctx (body true) out in
  if fixedFirst then for_AIs ctx (body false) out else out.

(** [printf]'s ["%.*s"] with precision [n] on the string at [aiBuf + p]. *)
Definition prec_s (ctx : gs1DLparser) (n p : nat) : list ascii :=
  take n (cstr (aiBuf ctx) p).

(** The bytes [ai.value[0 .. vallen-1]], each preceded by a backslash
    when [esc] holds of it. *)
Definition escaped_value (ctx : gs1DLparser) (esc : ascii -> bool)
    (a : gs1AIelement) : list ascii :=
  flat_map (fun j => let c := peek (aiBuf ctx) (value a + j) in
                     if esc c then ["\"; c] else [c])
           (seq 0 (vallen a)).

Definition unbr_item (ctx : gs1DLparser) (extraFNC1 : bool) (a : gs1AIelement)
  : list ascii :=
  prec_s ctx (ailen a) (ai a) ++ prec_s ctx (vallen a) (value a)
  ++ (if extraFNC1 || fnc1 a then ["^"] else []).

Definition brkt_item (ctx : gs1DLparser) (a : gs1AIelement) : list ascii :=
  "(" :: prec_s ctx (ailen a) (ai a) ++ ")"
  :: escaped_value ctx (fun c => Ascii.eqb c "(") a.

(** The double quote character. *)
Definition dquote : ascii := Eval cbv in ascii_of_nat 34.

Definition json_item (ctx : gs1DLparser) (a : gs1AIelement) : list ascii :=
  dquote :: prec_s ctx (ailen a) (ai a) ++ [dquote; ":"; dquote]
  ++ escaped_value ctx (fun c => Ascii.eqb c "\" || Ascii.eqb c dquote) a
  ++ [dquote; ","].

Definition gs1_writeUnbracketedAIelementString (ctx : gs1DLparser)
    (fixedFirst extraFNC1 : bool) : list ascii :=
  let out := ["^"] in
  let out := passes ctx fixedFirst
               (fun fixedPass out a =>
                  if skipped fixedFirst fixedPass a then out
                  else out ++ unbr_item ctx extraFNC1 a) out in
  if Ascii.eqb (peek out (length out - 1)) "^" then take (length out - 1) out
  else out.

Definition gs1_writeBracketedAIelementString (ctx : gs1DLparser)
    (fixedFirst : bool) : list ascii :=
  passes ctx fixedFirst
    (fun fixedPass out a =>
       if skipped fixedFirst fixedPass a then out else out ++ brkt_item ctx a) [].

Definition gs1_writeJSON (ctx : gs1DLparser) (fixedFirst : bool) : list ascii :=
  let out := ["{"] in
  let out := passes ctx fixedFirst
               (fun fixedPass out a =>
                  if skipped fixedFirst fixedPass a then out
                  else out ++ json_item ctx a) out in
  poke out (length out - 1) "}".

(** ** Definitions used to state the properties *)

(** The elements a writer walks over: [aiData[0 .. numAIs-1]]. *)
Definition elements (ctx : gs1DLparser) : list gs1AIelement :=
  map (aiData_at ctx) (seq 0 (numAIs ctx)).

(** Fixed-length AIs first, the others after, each group in its order. *)
Definition fixed_first (els : list gs1AIelement) : list gs1AIelement :=
  List.filter (fun a => negb (fnc1 a)) els ++ List.filter fnc1 els.

Definition emission_order (fixedFirst : bool) (els : list gs1AIelement)
  : list gs1AIelement :=
  if fixedFirst then fixed_first els else els.

(** A single trailing separator is dropped. *)
Definition strip_sep (out : list ascii) : list ascii :=
  if Ascii.eqb (peek out (length out - 1)) "^" then take (length out - 1) out
  else out.

(** GTIN-8, GTIN-12 or GTIN-13 carried by AI (01). *)
Definition short_gtin (buf : list ascii) (ai ailen vlen : nat) : Prop :=
  ailen = 2 /\ take 2 (cstr buf ai) = str "01"
  /\ (vlen = 8 \/ vlen = 12 \/ vlen = 13).

Definition zero_padded (v : list ascii) : list ascii :=
  replicate (14 - length v) "0" ++ v.

(** Percent decoding as the specification words it: a well-formed
    escape becomes its byte, [+] becomes a space in the query phase only,
    anything else is copied. *)
Fixpoint spec_unescape (is_query : bool) (s : list ascii) : list ascii :=
  match s with
  | [] => []
  | c :: s' =>
      let plain := if is_query && Ascii.eqb c "+" then " " else c in
      match s' with
      | x :: y :: s'' =>
          if Ascii.eqb c "%" && isxdigit x && isxdigit y
          then hexbyte x y :: spec_unescape is_query s''
          else plain :: spec_unescape is_query s'
      | _ => plain :: spec_unescape is_query s'
      end
  end.

(** A path made of AI/value pairs, [/ai/value/ai/value...], and the
    condition that the slashes shown are all its slashes. *)
Definition render_pairs (ps : list (list ascii * list ascii)) : list ascii :=
  flat_map (fun av => "/" :: fst av ++ "/" :: snd av) ps.

Definition slash_free (ps : list (list ascii * list ascii)) : Prop :=
  Forall (fun av => ("/" ∉ fst av) /\ ("/" ∉ snd av)) ps.

(** A path segment has the form of an AI: two to four digits. *)
Definition valid_AI_form (a : list ascii) : bool :=
  (2 <=? length a) && (length a <=? 4) && forallb is_digit a.

(** A path segment is one of the primary keys. *)
Definition is_pkey (a : list ascii) : bool := existsb (bytes_eqb a) dl_pkeys.

(** Every byte is one of [uriCharacters]. *)
Definition legal (s : list ascii) : Prop :=
  forallb (fun c => existsb (Ascii.eqb c) uriCharacters) s = true.

(** A URI in its parts: [tail] is empty or starts at the first '?' or
    '#' after the path. *)
Definition dl_uri (scheme domain path tail : list ascii) : list ascii :=
  scheme ++ domain ++ path ++ tail.

(** The parts of a URI that passes the structural splitter: scheme,
    non-empty domain, a path that starts with '/' and runs up to the
    query or fragment delimiter. *)
Definition well_formed (scheme domain path tail : list ascii) : Prop :=
  (scheme = str "https://" \/ scheme = str "http://")
  /\ domain <> [] /\ ("/" ∉ domain)
  /\ (exists path', path = "/" :: path')
  /\ ("#" ∉ path) /\ ("?" ∉ path)
  /\ (tail = [] \/ exists tail', tail = "?" :: tail' \/ tail = "#" :: tail')
  /\ legal (domain ++ path ++ tail).

(** The messages [gs1_parseDLuri] can leave in [ctx->err] when it
    fails. *)
Definition parse_error (e : list ascii) : Prop :=
  e = str "URI contains illegal characters"
  \/ e = str "Scheme must be http:// or https://"
  \/ e = str "URI must contain a domain and path info"
  \/ e = str "No GS1 DL keys found in path info"
  \/ e = str "Too many AIs"
  \/ e = str "Failed to parse DL data"
  \/ (exists a, e = snprintf_err (str "AI (" ++ a ++ str ") value path element is empty"))
  \/ (exists a, e = snprintf_err (str "AI (" ++ a ++ str ") value query element is empty"))
  \/ (exists a, e = str "Stopping. Numeric query parameter that is not a valid AI is illegal: "
                     ++ a ++ str "...").

(** The message of a failure inside the two extraction loops, [e0] being
    the message on entry (left in place by a failed [writeAIbuf]). *)
Definition loop_error (e0 e : list ascii) : Prop :=
  e = e0 \/ parse_error e.

(** What the caller may rely on after a parse that returned [ret]. *)
Definition outcome (ret : bool) (ctx : gs1DLparser) : Prop :=
  (ret = true -> err ctx = [])
  /\ (ret = false -> numAIs ctx = 0 /\ parse_error (err ctx)).

(** [URIunescape] on a whole string, as the unit tests call it: the
    decoded bytes. *)
Definition unescaped (s : string) (is_query : bool) : option (list ascii) :=
  match URIunescape aival0 GS1_DL_MAX_AI_LEN (str s) 0 (length (str s)) is_query with
  | Some (out, n) => Some (take n out)
  | None => None
  end.

(** Inputs used below. *)
Definition uri_sscc : list ascii := str "https://a/00/006141411234567890".
Definition uri_trailing_slash : list ascii :=
  str "https://a/stem/00/006141411234567890/".
Definition uri_no_pkey : list ascii := str "https://a/10/ABC".
Definition uri_full : list ascii :=
  str "https://a/8003/" ++ replicate 90 "A" ++
  concat (replicate 63 (str "/9999/" ++ replicate 90 "A")).
(** ** The extraction as a function of the URI's parts *)

(** An extracted element as the writers see it: the AI text, the value
    text and the separator flag. *)
Definition extracted (ctx : gs1DLparser)
  : list (list ascii * list ascii * bool) :=
  map (fun a => (prec_s ctx (ailen a) (ai a), prec_s ctx (vallen a) (value a),
                 fnc1 a))
      (elements ctx).

(** The value stored for the raw text [v] of AI [a]: decoded, cut to the
    capacity of [aival], and padded when it is a short GTIN. *)
Definition spec_value (is_query : bool) (a v : list ascii) : list ascii :=
  let d := take GS1_DL_MAX_AI_LEN (spec_unescape is_query v) in
  if bytes_eqb a (str "01")
     && ((length d =? 13) || (length d =? 12) || (length d =? 8))
  then zero_padded d else d.

(** What one AI/value pair of the path, or one query parameter, asks of
    the parser. *)
Inductive candidate : Type :=
  | Ignore
  | Store (is_query : bool) (a v : list ascii)
  | Reject (msg : list ascii).

Definition path_candidate (av : list ascii * list ascii) : candidate :=
  match snd av with
  | [] => Reject (snprintf_err
                    (str "AI (" ++ fst av ++ str ") value path element is empty"))
  | _ :: _ => Store false (fst av) (snd av)
  end.

(** A query parameter without '=' or with a name that is not all digits
    is skipped; an all-digit name (the empty name included) must have
    two to four digits and a value. *)
Definition query_candidate (q : list ascii) : candidate :=
  match index_of "=" q with
  | None => Ignore
  | Some k =>
      let a := take k q in
      if forallb is_digit a then
        if (length a <? 2) || (4 <? length a) then
          Reject (str "Stopping. Numeric query parameter that is not a valid AI is illegal: "
                  ++ take 10 a ++ str "...")
        else
          match drop (S k) q with
          | [] => Reject (snprintf_err
                            (str "AI (" ++ a ++ str ") value query element is empty"))
          | v => Store true a v
          end
      else Ignore
  end.

(** The bytes the elements take in [aiBuf]: of each one the AI and
    what [strncat] copies of the value, which is the value up to its
    first NUL byte (the whole value when it holds none). *)
Definition packed_bytes (els : list (list ascii * list ascii * bool)) : list ascii :=
  concat (map (fun e => fst (fst e) ++ until_nul (snd (fst e))) els).

(** The candidates in order, from the elements [els] already stored: the
    elements at the end, or the message the parse fails with. *)
Fixpoint spec_extract (cs : list candidate)
    (els : list (list ascii * list ascii * bool))
  : list (list ascii * list ascii * bool) + list ascii :=
  match cs with
  | [] => inl els
  | Ignore :: cs => spec_extract cs els
  | Reject msg :: _ => inr msg
  | Store q a v :: cs =>
      let d := spec_value q a v in
      if GS1_DL_MAX_AI_BUF <? length (packed_bytes els) + length a + length d
      then inr (str "Failed to parse DL data")
      else if length els <? GS1_DL_MAX_AIS
      then spec_extract cs (els ++ [(a, d, isFNC1required a)])
      else inr (str "Too many AIs")
  end.

(** Query parameters joined by '&'. *)
Fixpoint join_amp (qs : list (list ascii)) : list ascii :=
  match qs with
  | [] => []
  | [q] => q
  | q :: qs' => q ++ "&" :: join_amp qs'
  end.

(** What follows the path: the query parameters, if any, and the
    fragment, if any. *)
Definition uri_tail (query : option (list (list ascii)))
    (fragment : option (list ascii)) : list ascii :=
  match query with Some qs => "?" :: join_amp qs | None => [] end
  ++ match fragment with Some f => "#" :: f | None => [] end.

Definition query_candidates (query : option (list (list ascii))) : list candidate :=
  match query with Some qs => map query_candidate qs | None => [] end.

(** The message [label_fail] leaves for the message [e] it finds. *)
Definition final_err (e : list ascii) : list ascii :=
  match e with [] => str "Failed to parse DL data" | _ => e end.

(** The records of the elements [els] stored from offset [off] on: the
    recorded length of a value is its whole length, the next element
    starts after the bytes that were copied. *)
Fixpoint layout (off : nat) (els : list (list ascii * list ascii * bool))
  : list gs1AIelement :=
  match els with
  | [] => []
  | e :: els' =>
      {| ai := off; ailen := length (fst (fst e));
         value := off + length (fst (fst e)); vallen := length (snd (fst e));
         fnc1 := snd e |}
      :: layout (off + length (fst (fst e)) + length (until_nul (snd (fst e))))
                els'
  end.

(** The context holds exactly the elements [els]: their bytes and a
    terminator, and nothing after it. *)
Definition packed (ctx : gs1DLparser) (els : list (list ascii * list ascii * bool))
  : Prop :=
  cstr (aiBuf ctx) 0 = packed_bytes els
  /\ length (aiBuf ctx) = length (packed_bytes els) + 1
  /\ numAIs ctx = length els
  /\ aiData ctx = layout 0 els
  /\ Forall (fun e => length (fst (fst e)) <= 4
                      /\ length (snd (fst e)) <= GS1_DL_MAX_AI_LEN) els.

(** The decoded value as [URIunescape] leaves it in [aival]. *)
Definition holds_value (aival d : list ascii) : Prop :=
  take (length d) aival = d /\ aival !! length d = Some NUL.


(** A candidate whose decoded value holds no NUL byte (decoded from
    %00). *)
Definition no_nul_value (c : candidate) : Prop :=
  match c with
  | Store q a v => NUL ∉ spec_unescape q v
  | _ => True
  end.


(** Query parameters, each after its '&'. *)
Definition render_params (qs : list (list ascii)) : list ascii :=
  concat (map (fun q => "&" :: q) qs).

(** A loop ends as [spec_extract] says for the candidates [cs] it had
    before it. *)
Definition loop_result (cs : list candidate)
    (els : list (list ascii * list ascii * bool))
    (f : flow (gs1DLparser * list ascii)) : Prop :=
  match spec_extract cs els with
  | inl els' =>
      exists ctx' aival',
        f = Cont (ctx', aival') /\ packed ctx' els' /\ err ctx' = []
        /\ GS1_DL_MAX_AI_LEN < length aival'
  | inr msg => exists c, f = GotoFail c /\ final_err (err c) = msg
  end.

(** A candidate that is not rejected, and the elements that candidates
    ask to store. *)
Definition accepted (c : candidate) : Prop :=
  match c with Reject _ => False | _ => True end.

Definition stored (cs : list candidate) : list (list ascii * list ascii * bool) :=
  flat_map (fun c => match c with
                     | Store q a v => [(a, spec_value q a v, isFNC1required a)]
                     | _ => []
                     end) cs.

(** A Digital Link URI by its parts: the stem is what precedes the
    primary key in the path, [more] the AI/value pairs after the key's. *)
Record dl_parts := {
  scheme : list ascii;
  domain : list ascii;
  stem : list ascii;
  key : list ascii;
  key_value : list ascii;
  more : list (list ascii * list ascii);
  query : option (list (list ascii));
  fragment : option (list ascii)
}.

Definition dl_path (u : dl_parts) : list ascii :=
  stem u ++ render_pairs ((key u, key_value u) :: more u).

Definition uri_of (u : dl_parts) : list ascii :=
  dl_uri (scheme u) (domain u) (dl_path u) (uri_tail (query u) (fragment u)).

Definition candidates (u : dl_parts) : list candidate :=
  map path_candidate ((key u, key_value u) :: more u) ++ query_candidates (query u).

(** The parts are those of a URI whose rightmost primary key is [key]:
    the pairs after it have AIs of two to four digits that are no
    primary keys, no segment holds a '/' and no parameter a '&' or a
    '#'. *)
Definition parts_shape (u : dl_parts) : Prop :=
  well_formed (scheme u) (domain u) (dl_path u) (uri_tail (query u) (fragment u))
  /\ is_pkey (key u) = true
  /\ slash_free ((key u, key_value u) :: more u)
  /\ Forall (fun av => valid_AI_form (fst av) = true /\ is_pkey (fst av) = false)
            (more u)
  /\ (forall qs, query u = Some qs -> Forall (fun q => ("&" ∉ q) /\ ("#" ∉ q)) qs).

(** Moreover, no value decodes to a text with a NUL byte. *)
Definition parts_ok (u : dl_parts) : Prop :=
  parts_shape u /\ Forall no_nul_value (candidates u).

(** The values of the elements have no NUL byte. *)
Definition no_nul_elements (els : list (list ascii * list ascii * bool)) : Prop :=
  Forall (fun e => NUL ∉ snd (fst e)) els.

(** The parse has written nothing past the end of [aiBuf], so the
    pointer [aiData[0].ai], which follows the array in the structure,
    is the one that the parser stored. *)
Definition inside_aiBuf (ctx : gs1DLparser) : Prop :=
  length (aiBuf ctx) <= GS1_DL_MAX_AI_BUF.

(** The AI of a candidate to store has at most four bytes. *)
Definition short_AI (c : candidate) : Prop :=
  match c with Store _ a _ => length a <= 4 | _ => True end.

(** The sizes [aiBuf] is laid out for. *)
Definition element_bounds (e : list ascii * list ascii * bool) : Prop :=
  length (fst (fst e)) <= 4 /\ length (snd (fst e)) <= GS1_DL_MAX_AI_LEN.


(** Inputs used below. *)
Definition parts_example : dl_parts :=
  {| scheme := str "https://"; domain := str "id.gs1.org";
     stem := str "/some/stem"; key := str "01"; key_value := str "9520123456788";
     more := [(str "10", str "ABC%2F1")];
     query := Some [str "17=201225"; str "x=y"; str "lone"; []; str "3103=000195"];
     fragment := Some (str "frag") |}.

Definition parts_empty_value : dl_parts :=
  {| scheme := str "https://"; domain := str "a"; stem := [];
     key := str "01"; key_value := str "12312312312333"; more := [];
     query := Some [str "99="]; fragment := None |}.

(** Two values longer than [GS1_DL_MAX_AI_LEN], one in the path and one
    in the query string. *)
Definition parts_long : dl_parts :=
  {| scheme := str "https://"; domain := str "a"; stem := [];
     key := str "00"; key_value := replicate 95 "7"; more := [];
     query := Some [str "10=" ++ replicate 100 "A"]; fragment := None |}.

Definition parts_65 : dl_parts :=
  {| scheme := str "https://"; domain := str "a"; stem := [];
     key := str "00"; key_value := str "1";
     more := replicate GS1_DL_MAX_AIS (str "10", str "x");
     query := None; fragment := None |}.

(** What [find_dp] has walked over or found: pairs whose AIs have the
    form of an AI and are no primary keys. *)
Definition qualifier_pairs (ps : list (list ascii * list ascii)) : Prop :=
  Forall (fun av => valid_AI_form (fst av) = true /\ is_pkey (fst av) = false) ps.

(** The context in which a block of the parser ends. *)
Definition flow_ctx (f : flow (gs1DLparser * list ascii)) : gs1DLparser :=
  match f with Cont (c, _) => c | GotoFail c => c end.

(** What the writers' buffer sizes rest on: an AI of two to four bytes,
    a value of one to [GS1_DL_MAX_AI_LEN] bytes that follows the AI in
    [aiBuf]. *)
Definition element_ok (a : gs1AIelement) : Prop :=
  2 <= ailen a <= 4 /\ 1 <= vallen a <= GS1_DL_MAX_AI_LEN
  /\ value a = ai a + ailen a.

Definition context_ok (ctx : gs1DLparser) : Prop :=
  numAIs ctx <= GS1_DL_MAX_AIS /\ length (aiData ctx) = numAIs ctx
  /\ Forall element_ok (aiData ctx).

(** The string in [aiBuf] fits; its terminator may be the byte after
    the array. *)
Definition aiBuf_ok (ctx : gs1DLparser) : Prop :=
  strlen (aiBuf ctx) 0 <= GS1_DL_MAX_AI_BUF
  /\ length (aiBuf ctx) <= GS1_DL_MAX_AI_BUF + 1.

(** The sizes gs1dlparser.h gives for the writers' output buffers. *)
Definition GS1_DL_MAX_OUT_JSON : nat :=
  GS1_DL_MAX_AIS * (4 + GS1_DL_MAX_AI_LEN + 6) + 2.
Definition GS1_DL_MAX_OUT_UNBR : nat :=
  GS1_DL_MAX_AIS * (4 + GS1_DL_MAX_AI_LEN + 1) + 1.
Definition GS1_DL_MAX_OUT_BRKT : nat :=
  GS1_DL_MAX_AIS * (4 + GS1_DL_MAX_AI_LEN * 2 + 2) + 1.



(** 34 elements whose values are 90 double quotes each, written %22. *)
Definition uri_quotes : list ascii :=
  str "https://a/8003/" ++ concat (replicate 90 (str "%22")) ++
  concat (replicate 33 (str "/9999/" ++ concat (replicate 90 (str "%22")))).

(** The segments of a path: what stands between its slashes. *)
Fixpoint segments (s : list ascii) : list (list ascii) :=
  match s with
  | [] => [[]]
  | c :: s' =>
      if Ascii.eqb c "/" then [] :: segments s'
      else match segments s' with
           | seg :: rest => (c :: seg) :: rest
           | [] => [[c]]
           end
  end.

(** ** The writers' output as text *)

(** A text with a backslash before each byte [esc] holds of. *)
Definition escaped (esc : ascii -> bool) (v : list ascii) : list ascii :=
  flat_map (fun c => if esc c then ["\"; c] else [c]) v.

(** The elements in the order a writer emits them. *)
Definition text_order (fixedFirst : bool)
    (els : list (list ascii * list ascii * bool))
  : list (list ascii * list ascii * bool) :=
  if fixedFirst
  then List.filter (fun e => negb (snd e)) els ++ List.filter (fun e => snd e) els
  else els.

Definition unbr_text (extraFNC1 : bool) (e : list ascii * list ascii * bool)
  : list ascii :=
  fst (fst e) ++ snd (fst e) ++ (if extraFNC1 || snd e then ["^"] else []).

Definition brkt_text (e : list ascii * list ascii * bool) : list ascii :=
  "(" :: fst (fst e) ++ ")" :: escaped (fun c => Ascii.eqb c "(") (snd (fst e)).

(** One member of the JSON object, without the comma. *)
Definition json_member (e : list ascii * list ascii * bool) : list ascii :=
  dquote :: fst (fst e) ++ [dquote; ":"; dquote]
  ++ escaped (fun c => Ascii.eqb c "\" || Ascii.eqb c dquote) (snd (fst e))
  ++ [dquote].

Fixpoint join_comma (ms : list (list ascii)) : list ascii :=
  match ms with
  | [] => []
  | [m] => m
  | m :: ms' => m ++ "," :: join_comma ms'
  end.

(** The element as the writers read it from the context. *)
Definition element_text (ctx : gs1DLparser) (a : gs1AIelement)
  : list ascii * list ascii * bool :=
  (prec_s ctx (ailen a) (ai a), prec_s ctx (vallen a) (value a), fnc1 a).

(** ** The AIs of the stored elements *)

(** The AI texts of the stored elements, as ["%.*s"] prints them. *)
Definition ai_texts (ctx : gs1DLparser) : list (list ascii) :=
  map (fun a => prec_s ctx (ailen a) (ai a)) (aiData ctx).

(** The AI of every stored element lies inside the string of [aiBuf]. *)
Definition ais_in_string (ctx : gs1DLparser) : Prop :=
  Forall (fun a => ai a + ailen a <= strlen (aiBuf ctx) 0) (aiData ctx).

(** ** The size of the output against the size of the input *)

(** The bytes that the AIs and values of the stored elements count. *)
Definition weight (ctx : gs1DLparser) : nat :=
  list_sum (map (fun a => ailen a + vallen a) (aiData ctx)).

(** [aiData] holds the counted elements only, at most
    [GS1_DL_MAX_AIS]; [aiBuf] ends with the terminator of its string,
    and that string is no longer than the elements say. *)
Definition tight (ctx : gs1DLparser) : Prop :=
  length (aiData ctx) = numAIs ctx
  /\ length (aiBuf ctx) = strlen (aiBuf ctx) 0 + 1
  /\ strlen (aiBuf ctx) 0 <= weight ctx
  /\ numAIs ctx <= GS1_DL_MAX_AIS.

(** ** The example application (example.c)

    [main] as a function of [argv]: the exit status and the text it
    prints.  [None] is a run that writes outside an array: [strcpy]
    past the end of [in], the parser past the end of [ctx.aiBuf], or a
    writer past the end of its output buffer. *)

Definition newline : ascii := Eval cbv in ascii_of_nat 10.

(** [strcpy(dst, src)] for an array [dst] of [cap] bytes. *)
Definition strcpy_to (cap : nat) (src : list ascii) : option (list ascii) :=
  if strlen src 0 <? cap then Some (cstr src 0 ++ [NUL]) else None.

(** The text [s] and its terminator stored in an array of [cap] bytes:
    what the bracketed writer and the JSON writer store into. *)
Definition written_to (cap : nat) (s : list ascii) : option (list ascii) :=
  if length s <? cap then Some (s ++ [NUL]) else None.

(** One turn of the unbracketed writer's loop on the offset [p - out]
    and the number of bytes of [out] stored into so far: [sprintf]
    stores a terminator after the text of the element, and the '^' that
    follows, when there is one, takes its place. *)
Definition unbr_stores_step (ctx : gs1DLparser) (fixedFirst extraFNC1 : bool)
    (fixedPass : bool) (st : nat * nat) (a : gs1AIelement) : nat * nat :=
  if skipped fixedFirst fixedPass a then st
  else
    let p := fst st + length (prec_s ctx (ailen a) (ai a))
             + length (prec_s ctx (vallen a) (value a)) in
    let hi := Nat.max (snd st) (p + 1) in
    if extraFNC1 || fnc1 a then (p + 1, hi) else (p, hi).

(** The bytes of [out] that the unbracketed writer stores into, counted
    from [out[0]]: the '^' at the start, the turns of the loop in one
    or two passes, and the final terminator.  When the last element
    written has no '^' after it and its value ends with '^', the
    terminator of [sprintf] lies one byte after the final one. *)
Definition unbr_stores (ctx : gs1DLparser) (fixedFirst extraFNC1 : bool) : nat :=
  let loop (fixedPass : bool) (st : nat * nat) :=
    fold_left (fun st i => unbr_stores_step ctx fixedFirst extraFNC1 fixedPass st
                             (aiData_at ctx i))
              (seq 0 (numAIs ctx)) st in
  let st := loop true (1, 1) in
  let st := if fixedFirst then loop false st else st in
  Nat.max (snd st)
    (length (gs1_writeUnbracketedAIelementString ctx fixedFirst extraFNC1) + 1).

(** The unbracketed string written to an array of [cap] bytes. *)
Definition unbr_written_to (cap : nat) (ctx : gs1DLparser)
    (fixedFirst extraFNC1 : bool) : option (list ascii) :=
  if unbr_stores ctx fixedFirst extraFNC1 <=? cap
  then Some (gs1_writeUnbracketedAIelementString ctx fixedFirst extraFNC1 ++ [NUL])
  else None.

(** [printf("<label>%s\n", s)]. *)
Definition print_line (label : string) (s : list ascii) : list ascii :=
  str label ++ cstr s 0 ++ [newline].

Definition usage (prog : list ascii) : list ascii :=
  str "Usage: " ++ cstr prog 0 ++ str " '<Digital Link URI>'" ++ [newline]
  ++ str "  Example: " ++ cstr prog 0
  ++ str " 'https://id.gs1.org/01/09520123456788/10/ABC%2F123/21/12345?17=180426'"
  ++ [newline].

Definition main (ctx : gs1DLparser) (argv : list (list ascii))
  : option (nat * list ascii) :=
  match argv with
  | [_; arg] =>
      inbuf ← strcpy_to 2048 arg;
      '(ret, ctx, inbuf) ← gs1_parseDLuri ctx inbuf;
      if GS1_DL_MAX_AI_BUF <? length (aiBuf ctx) then None
      else if negb ret then Some (1, print_line "Error: " (err ctx))
      else
        u1 ← unbr_written_to GS1_DL_MAX_OUT_UNBR ctx false false;
        u2 ← unbr_written_to GS1_DL_MAX_OUT_UNBR ctx false true;
        u3 ← unbr_written_to GS1_DL_MAX_OUT_UNBR ctx true false;
        u4 ← unbr_written_to GS1_DL_MAX_OUT_UNBR ctx true true;
        b1 ← written_to GS1_DL_MAX_OUT_BRKT
               (gs1_writeBracketedAIelementString ctx false);
        b2 ← written_to GS1_DL_MAX_OUT_BRKT
               (gs1_writeBracketedAIelementString ctx true);
        j1 ← written_to GS1_DL_MAX_OUT_JSON (gs1_writeJSON ctx false);
        j2 ← written_to GS1_DL_MAX_OUT_JSON (gs1_writeJSON ctx true);
        Some (0,
              print_line "Provided Digital Link URI:                                 " inbuf
              ++ print_line "Unbracketed element string:                                " u1
              ++ print_line "Unbracketed element string (extra FNC1s):                  " u2
              ++ print_line "Unbracketed element string (fixed AIs first):              " u3
              ++ print_line "Unbracketed element string (fixed AIs first; extra FNC1s): " u4
              ++ print_line "Bracketed element string:                                  " b1
              ++ print_line "Bracketed element string (fixed AIs first):                " b2
              ++ print_line "JSON:                                                      " j1
              ++ print_line "JSON (fixed AIs first):                                    " j2)
  | prog :: _ => Some (1, usage prog)
  | [] => None
  end.
(** ** Facts about bytes and C strings *)

Lemma bytes_eqb_eq (a b : list ascii) : bytes_eqb a b = true <-> a = b.
Proof.
  revert b. induction a as [|x a IH]; intros [|y b]; simpl; try done.
  rewrite andb_true_iff, Ascii.eqb_eq, IH. split.
  - by intros [-> ->].
  - intros [= -> ->]. done.
Qed.

Lemma bytes_eqb_neq (a b : list ascii) : bytes_eqb a b = false <-> a <> b.
Proof.
  rewrite <- bytes_eqb_eq. destruct (bytes_eqb a b); split; congruence.
Qed.

Lemma until_nul_no_nul (l : list ascii) : NUL ∉ until_nul l.
Proof.
  induction l as [|c l IH]; simpl; [apply not_elem_of_nil|].
  destruct (Ascii.eqb_spec c NUL) as [->|Hc]; [apply not_elem_of_nil|].
  rewrite not_elem_of_cons. split; [congruence|done].
Qed.

Lemma until_nul_id (l : list ascii) : NUL ∉ l -> until_nul l = l.
Proof.
  induction l as [|c l IH]; simpl; [done|].
  rewrite not_elem_of_cons. intros [Hc Hl].
  destruct (Ascii.eqb_spec c NUL) as [->|_]; [done|]. by rewrite IH.
Qed.

Lemma until_nul_app (a l : list ascii) :
  NUL ∉ a -> until_nul (a ++ l) = a ++ until_nul l.
Proof.
  induction a as [|c a IH]; simpl; [done|].
  rewrite not_elem_of_cons. intros [Hc Ha].
  destruct (Ascii.eqb_spec c NUL) as [->|_]; [done|]. by rewrite IH.
Qed.

Lemma until_nul_app_nul (a l : list ascii) :
  NUL ∉ a -> until_nul (a ++ NUL :: l) = a.
Proof.
  intros Ha. rewrite until_nul_app by done. simpl. apply app_nil_r.
Qed.

(** A C string splits the memory it lives in. *)
Lemma until_nul_split (l : list ascii) :
  l = until_nul l ++ drop (length (until_nul l)) l
  /\ (drop (length (until_nul l)) l = []
      \/ exists l', drop (length (until_nul l)) l = NUL :: l').
Proof.
  induction l as [|c l [IH1 IH2]]; simpl; [auto|].
  destruct (Ascii.eqb_spec c NUL) as [->|Hc]; simpl.
  - split; [done|]. right. by eexists.
  - split; [by f_equal|done].
Qed.

Lemma until_nul_prefix (l a b : list ascii) :
  until_nul l = a ++ b -> exists l', l = a ++ l' /\ until_nul l' = b.
Proof.
  revert l. induction a as [|x a IH]; intros l; simpl; [by exists l|].
  destruct l as [|c l]; simpl; [done|].
  destruct (Ascii.eqb_spec c NUL) as [->|Hc]; [done|].
  intros [= -> H]. destruct (IH _ H) as (l' & -> & Hl'). by exists l'.
Qed.

Lemma peek_app_r (a l : list ascii) (i : nat) :
  peek (a ++ l) (length a + i) = peek l i.
Proof.
  unfold peek. rewrite app_nth2 by lia. f_equal. lia.
Qed.

Lemma peek_drop (buf : list ascii) (p i : nat) :
  peek (drop p buf) i = peek buf (p + i).
Proof.
  unfold peek. rewrite !nth_lookup, lookup_drop. done.
Qed.

Lemma peek_lookup (buf : list ascii) (i : nat) (c : ascii) :
  buf !! i = Some c -> peek buf i = c.
Proof. unfold peek. rewrite nth_lookup. by intros ->. Qed.

Lemma take_until_nul (l : list ascii) : take (length (until_nul l)) l = until_nul l.
Proof.
  destruct (until_nul_split l) as [H _].
  rewrite H at 2. by rewrite take_app_length.
Qed.

Lemma strncat_cstr (dst src : list ascii) (n : nat) :
  NUL ∉ take n src ->
  cstr (strncat dst src n) 0 = cstr dst 0 ++ take n src.
Proof.
  intros Hn. unfold strncat, cstr, strlen, cstr. rewrite !drop_0.
  rewrite take_until_nul.
  rewrite until_nul_app by apply until_nul_no_nul.
  rewrite <- (app_assoc (take n src)). simpl.
  by rewrite until_nul_app_nul.
Qed.

Lemma take_no_nul (l : list ascii) (n : nat) : NUL ∉ l -> NUL ∉ take n l.
Proof.
  intros H Hin. apply H. apply elem_of_take in Hin as (i & Hi & _).
  by eapply list_elem_of_lookup_2.
Qed.

Lemma cstr_no_nul (buf : list ascii) (p : nat) : NUL ∉ cstr buf p.
Proof. apply until_nul_no_nul. Qed.

Lemma take_cstr_0 (a : list ascii) (n : nat) :
  NUL ∉ take n a -> take n (cstr a 0) = take n a.
Proof.
  intros Hn. unfold cstr. rewrite drop_0.
  destruct (decide (n <= length a)) as [Hle|Hgt].
  - rewrite <- (take_drop n a) at 1.
    rewrite until_nul_app by done.
    rewrite take_app_le; [|rewrite length_take; lia].
    rewrite take_take. f_equal. lia.
  - rewrite take_ge in Hn by lia. by rewrite until_nul_id.
Qed.


(** ** Searching in a string *)

Lemma index_of_Some (c : ascii) (s : list ascii) (k : nat) :
  index_of c s = Some k ->
  exists s1 s2, s = s1 ++ c :: s2 /\ length s1 = k /\ c ∉ s1.
Proof.
  revert k. induction s as [|x s IH]; intros k; simpl; [done|].
  destruct (Ascii.eqb_spec x c) as [->|Hx].
  - intros [= <-]. exists [], s. split; [done|]. split; [done|apply not_elem_of_nil].
  - destruct (index_of c s) as [k'|]; [|done]. intros [= <-].
    destruct (IH k' eq_refl) as (s1 & s2 & -> & <- & Hn).
    exists (x :: s1), s2. split; [done|]. split; [done|].
    rewrite not_elem_of_cons. split; [congruence|done].
Qed.

Lemma index_of_None (c : ascii) (s : list ascii) :
  index_of c s = None <-> c ∉ s.
Proof.
  induction s as [|x s IH]; simpl.
  - split; [intros _; apply not_elem_of_nil|done].
  - rewrite not_elem_of_cons. destruct (Ascii.eqb_spec x c) as [->|Hx].
    + split; [done|intros [H _]; done].
    + destruct (index_of c s); simpl.
      * split; [done|]. intros [_ H]. by apply IH in H.
      * split; [|done]. intros _. split; [congruence|by apply IH].
Qed.

Lemma index_of_app (c : ascii) (s1 s2 : list ascii) :
  c ∉ s1 -> index_of c (s1 ++ c :: s2) = Some (length s1).
Proof.
  induction s1 as [|x s1 IH]; simpl.
  - intros _. by rewrite Ascii.eqb_refl.
  - rewrite not_elem_of_cons. intros [Hx Hs].
    destruct (Ascii.eqb_spec x c) as [->|_]; [done|]. by rewrite IH.
Qed.

Lemma rindex_of_None (c : ascii) (s : list ascii) :
  rindex_of c s = None <-> c ∉ s.
Proof.
  induction s as [|x s IH]; simpl.
  - split; [intros _; apply not_elem_of_nil|done].
  - rewrite not_elem_of_cons. destruct (rindex_of c s); simpl.
    + split; [done|]. intros [_ H]. by apply IH in H.
    + destruct (Ascii.eqb_spec x c) as [->|Hx].
      * split; [done|]. by intros [H _].
      * split; [|done]. intros _. split; [congruence|by apply IH].
Qed.

Lemma rindex_of_Some (c : ascii) (s : list ascii) (k : nat) :
  rindex_of c s = Some k ->
  exists s1 s2, s = s1 ++ c :: s2 /\ length s1 = k /\ c ∉ s2.
Proof.
  revert k. induction s as [|x s IH]; intros k; simpl; [done|].
  destruct (rindex_of c s) as [k'|] eqn:E.
  - intros [= <-]. destruct (IH k' eq_refl) as (s1 & s2 & -> & <- & Hn).
    by exists (x :: s1), s2.
  - destruct (Ascii.eqb_spec x c) as [->|Hx]; [|done]. intros [= <-].
    exists [], s. split; [done|]. split; [done|]. by apply rindex_of_None.
Qed.

Lemma rindex_of_app (c : ascii) (s1 s2 : list ascii) :
  c ∉ s2 -> rindex_of c (s1 ++ c :: s2) = Some (length s1).
Proof.
  intros Hn. induction s1 as [|x s1 IH]; simpl.
  - apply rindex_of_None in Hn. rewrite Hn. by rewrite Ascii.eqb_refl.
  - by rewrite IH.
Qed.

(** ** Strings inside a buffer *)

Lemma cstr_split (buf : list ascii) (p : nat) :
  exists rest, drop p buf = cstr buf p ++ rest
               /\ (rest = [] \/ exists r, rest = NUL :: r).
Proof.
  destruct (until_nul_split (drop p buf)) as [H1 H2].
  exists (drop (length (until_nul (drop p buf))) (drop p buf)). done.
Qed.

Lemma cstr_suffix (buf : list ascii) (p : nat) (a b : list ascii) :
  cstr buf p = a ++ b -> cstr buf (p + length a) = b.
Proof.
  unfold cstr. intros H. apply until_nul_prefix in H as (l' & Hl & Hb).
  rewrite <- drop_drop, Hl, drop_app_length. done.
Qed.

Lemma cstr_lookup (buf : list ascii) (p : nat) (a b : list ascii) (c : ascii) :
  cstr buf p = a ++ c :: b -> buf !! (p + length a) = Some c.
Proof.
  unfold cstr. intros H. apply until_nul_prefix in H as (l' & Hl & Hb).
  destruct l' as [|x l']; [done|]. simpl in Hb.
  destruct (Ascii.eqb_spec x NUL); [done|]. injection Hb as -> _.
  rewrite <- lookup_drop, Hl.
  rewrite lookup_app_r by lia. by rewrite Nat.sub_diag.
Qed.

Lemma cstr_peek (buf : list ascii) (p : nat) (a b : list ascii) (c : ascii) :
  cstr buf p = a ++ c :: b -> peek buf (p + length a) = c.
Proof. intros H. eapply peek_lookup, cstr_lookup, H. Qed.

Lemma poke_middle (pre a l : list ascii) (c x : ascii) :
  poke (pre ++ a ++ c :: l) (length pre + length a) x = pre ++ a ++ x :: l.
Proof.
  unfold poke. rewrite insert_app_r. f_equal.
  rewrite <- (Nat.add_0_r (length a)), insert_app_r. done.
Qed.

(** A byte of the string at [p] splits the whole buffer around it. *)
Lemma cstr_decompose (buf : list ascii) (p : nat) (a b : list ascii) (c : ascii) :
  cstr buf p = a ++ c :: b ->
  exists pre l, buf = pre ++ a ++ c :: l /\ length pre = p
                /\ until_nul l = b /\ (NUL ∉ a) /\ c <> NUL.
Proof.
  intros H. pose proof (cstr_no_nul buf p) as Hn. rewrite H in Hn.
  apply not_elem_of_app in Hn as [Hn Hc]. apply not_elem_of_cons in Hc as [Hc _].
  unfold cstr in H. apply until_nul_prefix in H as (l' & Hl & Hb).
  destruct l' as [|x l']; [done|]. simpl in Hb.
  destruct (Ascii.eqb_spec x NUL); [done|]. injection Hb as -> Hb.
  exists (take p buf), l'. rewrite <- Hl, take_drop.
  split; [done|]. split; [|done].
  apply length_take_le. destruct (decide (p <= length buf)); [done|].
  rewrite drop_ge in Hl by lia. by destruct a.
Qed.

Lemma cstr_poke_nul (buf : list ascii) (p : nat) (a b : list ascii) (c : ascii) :
  cstr buf p = a ++ c :: b -> cstr (poke buf (p + length a) NUL) p = a.
Proof.
  intros H. apply cstr_decompose in H as (pre & l & -> & <- & _ & Hn & _).
  rewrite poke_middle. unfold cstr. rewrite drop_app_length.
  by apply until_nul_app_nul.
Qed.

Lemma cstr_nil_peek (buf : list ascii) (p : nat) :
  cstr buf p = [] <-> peek buf p = NUL.
Proof.
  unfold cstr. rewrite <- (Nat.add_0_r p) at 2. rewrite <- peek_drop.
  destruct (drop p buf) as [|x l]; simpl; [done|].
  unfold peek. simpl. destruct (Ascii.eqb_spec x NUL); split; done.
Qed.

Lemma peek_strlen (buf : list ascii) (p : nat) : peek buf (p + strlen buf p) = NUL.
Proof.
  apply cstr_nil_peek. unfold strlen.
  apply (cstr_suffix buf p (cstr buf p) []). by rewrite app_nil_r.
Qed.

Lemma cstr_poke_before (buf : list ascii) (p q : nat) (c : ascii) :
  q < p -> cstr (poke buf q c) p = cstr buf p.
Proof.
  intros H. unfold cstr, poke. f_equal.
  apply list_eq. intros i. rewrite !lookup_drop.
  apply list_lookup_insert_ne. lia.
Qed.

Lemma poke_restore (buf : list ascii) (q : nat) (x c : ascii) :
  buf !! q = Some c -> poke (poke buf q x) q c = buf.
Proof.
  intros H. unfold poke. rewrite list_insert_insert_eq. by apply list_insert_id.
Qed.

Lemma poke_id (buf : list ascii) (q : nat) (c : ascii) :
  buf !! q = Some c -> poke buf q c = buf.
Proof. apply list_insert_id. Qed.

Lemma strchr_Some (buf : list ascii) (p q : nat) (c : ascii) :
  strchr buf p c = Some q ->
  exists a b, cstr buf p = a ++ c :: b /\ q = p + length a /\ c ∉ a.
Proof.
  unfold strchr. destruct (index_of c (cstr buf p)) as [k|] eqn:E; [|done].
  intros [= <-]. apply index_of_Some in E as (a & b & Hs & <- & Hn).
  by exists a, b.
Qed.

Lemma strchr_None (buf : list ascii) (p : nat) (c : ascii) :
  strchr buf p c = None <-> c ∉ cstr buf p.
Proof.
  unfold strchr. rewrite <- index_of_None.
  destruct (index_of c (cstr buf p)); split; done.
Qed.

Lemma strchr_app (buf : list ascii) (p : nat) (a b : list ascii) (c : ascii) :
  cstr buf p = a ++ c :: b -> c ∉ a -> strchr buf p c = Some (p + length a).
Proof. intros H Hn. unfold strchr. by rewrite H, index_of_app. Qed.

Lemma strrchr_Some (buf : list ascii) (p q : nat) (c : ascii) :
  strrchr buf p c = Some q ->
  exists a b, cstr buf p = a ++ c :: b /\ q = p + length a /\ c ∉ b.
Proof.
  unfold strrchr. destruct (rindex_of c (cstr buf p)) as [k|] eqn:E; [|done].
  intros [= <-]. apply rindex_of_Some in E as (a & b & Hs & <- & Hn).
  by exists a, b.
Qed.

Lemma strrchr_None (buf : list ascii) (p : nat) (c : ascii) :
  strrchr buf p c = None <-> c ∉ cstr buf p.
Proof.
  unfold strrchr. rewrite <- rindex_of_None.
  destruct (rindex_of c (cstr buf p)); split; done.
Qed.

(** ** C4: GTIN normalisation of AI (01) *)

Lemma short_gtin_test (buf : list ascii) (ai ailen vlen : nat) :
  (ailen =? 2) && strncmp_eq (cstr buf ai) (str "01") 2
  && ((vlen =? 13) || (vlen =? 12) || (vlen =? 8)) = true
  <-> short_gtin buf ai ailen vlen.
Proof.
  unfold short_gtin, strncmp_eq.
  rewrite !andb_true_iff, !orb_true_iff, !Nat.eqb_eq, bytes_eqb_eq.
  change (take 2 (str "01")) with (str "01"). tauto.
Qed.

Lemma pad_loop_result (aival : list ascii) (vlen : nat) :
  14 < length aival -> vlen = 8 \/ vlen = 12 \/ vlen = 13 ->
  poke (fold_left (pad_step vlen) (seq 0 14) aival) 14 NUL
  = replicate (14 - vlen) "0" ++ take vlen aival ++ NUL :: drop 15 aival.
Proof.
  intros Hlen Hv.
  do 15 (destruct aival as [|? aival]; [simpl in Hlen; lia|]).
  destruct Hv as [->|[->| ->]]; reflexivity.
Qed.

Lemma gtin14_padded (buf : list ascii) (ai ailen : nat) (aival : list ascii) (vlen : nat) :
  14 < length aival -> short_gtin buf ai ailen vlen ->
  gtin14 buf ai ailen aival vlen
  = (zero_padded (take vlen aival) ++ NUL :: drop 15 aival, 14).
Proof.
  intros Hlen Hs. unfold gtin14.
  rewrite (proj2 (short_gtin_test _ _ _ _) Hs).
  destruct Hs as (_ & _ & Hv).
  rewrite pad_loop_result by done. unfold zero_padded.
  rewrite length_take, Nat.min_l by lia. by rewrite <- app_assoc.
Qed.

Lemma gtin14_other (buf : list ascii) (ai ailen : nat) (aival : list ascii) (vlen : nat) :
  ~ short_gtin buf ai ailen vlen ->
  gtin14 buf ai ailen aival vlen = (aival, vlen).
Proof.
  intros Hs. unfold gtin14.
  destruct (_ && _ && _) eqn:E; [|done].
  by apply short_gtin_test in E.
Qed.
Lemma zero_padded_no_nul (v : list ascii) : NUL ∉ v -> NUL ∉ zero_padded v.
Proof.
  intros Hv. unfold zero_padded. rewrite not_elem_of_app. split; [|done].
  intros Hin. apply elem_of_replicate in Hin as [Hin _]. discriminate.
Qed.

Lemma zero_padded_length (v : list ascii) :
  length v <= 14 -> length (zero_padded v) = 14.
Proof.
  intros H. unfold zero_padded. rewrite length_app, length_replicate. lia.
Qed.





(** ** C5: the order in which the writers emit the elements *)

Section Passes.
Variable ctx : gs1DLparser.
Variable item : gs1AIelement -> list ascii.

Lemma fold_emit (sk : gs1AIelement -> bool) (l : list gs1AIelement) :
  forall out,
    fold_left (fun out a => if sk a then out else out ++ item a) l out
    = out ++ concat (map item (List.filter (fun a => negb (sk a)) l)).
Proof.
  induction l as [|a l IH]; intros out; simpl.
  - by rewrite app_nil_r.
  - rewrite IH. destruct (sk a); simpl; [done|].
    by rewrite <- app_assoc.
Qed.

Lemma for_AIs_emit (sk : gs1AIelement -> bool) (out : list ascii) :
  for_AIs ctx (fun out a => if sk a then out else out ++ item a) out
  = out ++ concat (map item (List.filter (fun a => negb (sk a)) (elements ctx))).
Proof.
  unfold for_AIs, elements. rewrite <- fold_emit.
  generalize (seq 0 (numAIs ctx)) out. clear out.
  induction l as [|i l IH]; intros out; simpl; [done|]. apply IH.
Qed.

Lemma filter_all (l : list gs1AIelement) :
  List.filter (fun _ => true) l = l.
Proof. induction l; simpl; congruence. Qed.

Lemma passes_emit (fixedFirst : bool) (out : list ascii) :
  passes ctx fixedFirst
    (fun fixedPass out a =>
       if skipped fixedFirst fixedPass a then out else out ++ item a) out
  = out ++ concat (map item (emission_order fixedFirst (elements ctx))).
Proof.
  unfold passes.
  destruct fixedFirst; unfold emission_order.
  - rewrite !for_AIs_emit. unfold fixed_first.
    rewrite map_app, concat_app, <- app_assoc.
    rewrite (filter_ext (fun a => negb (skipped true true a))
                        (fun a => negb (fnc1 a)))
      by (intros a; unfold skipped; by destruct (fnc1 a)).
    rewrite (filter_ext (fun a => negb (skipped true false a)) fnc1)
      by (intros a; unfold skipped; by destruct (fnc1 a)).
    done.
  - rewrite for_AIs_emit. rewrite (filter_ext _ (fun _ => true)) by done. by rewrite filter_all.
Qed.
End Passes.

Lemma fixed_first_perm (els : list gs1AIelement) : fixed_first els ≡ₚ els.
Proof.
  unfold fixed_first. induction els as [|a l IH]; simpl; [done|].
  destruct (fnc1 a); simpl.
  - rewrite <- Permutation_middle. by constructor.
  - by constructor.
Qed.

(** C5. Every writer emits the elements [aiData[0 .. numAIs-1]] in
    extraction order when [fixedFirst] is false and, when it is true, as
    the stable partition "separator flag false, then separator flag
    true"; hence the bracketed renderings under the two settings are a
    permutation of one another. *)
Theorem fixedFirst_is_stable_partition (ctx : gs1DLparser) (fixedFirst extraFNC1 : bool) :
  let els := elements ctx in
  gs1_writeUnbracketedAIelementString ctx fixedFirst extraFNC1
    = strip_sep ("^" :: concat (map (unbr_item ctx extraFNC1) (emission_order fixedFirst els)))
  /\ gs1_writeBracketedAIelementString ctx fixedFirst
    = concat (map (brkt_item ctx) (emission_order fixedFirst els))
  /\ (let out := "{" :: concat (map (json_item ctx) (emission_order fixedFirst els)) in
      gs1_writeJSON ctx fixedFirst = poke out (length out - 1) "}")
  /\ emission_order true els
     = List.filter (fun a => negb (fnc1 a)) els ++ List.filter fnc1 els
  /\ emission_order false els = els
  /\ map (brkt_item ctx) (emission_order true els)
     ≡ₚ map (brkt_item ctx) (emission_order false els).
Proof.
  intros els. repeat split.
  - unfold gs1_writeUnbracketedAIelementString.
    rewrite (passes_emit ctx (unbr_item ctx extraFNC1)). done.
  - unfold gs1_writeBracketedAIelementString.
    rewrite (passes_emit ctx (brkt_item ctx)). done.
  - unfold gs1_writeJSON.
    rewrite (passes_emit ctx (json_item ctx)). done.
  - simpl. apply Permutation_map, fixed_first_perm.
Qed.

(** ** Runs on concrete inputs *)

(** C9. The boundary input https://a/00/006141411234567890 parses to the
    single element (00, 006141411234567890), leaves the input as it was,
    and the three writers give the expected texts under both settings of
    [fixedFirst]. *)
Theorem sscc_boundary (ctx : gs1DLparser) :
  exists ctx',
    gs1_parseDLuri ctx uri_sscc = Some (true, ctx', uri_sscc)
    /\ numAIs ctx' = 1
    /\ map (fun a => (prec_s ctx' (ailen a) (ai a), prec_s ctx' (vallen a) (value a)))
           (take (numAIs ctx') (aiData ctx'))
       = [ (str "00", str "006141411234567890") ]
    /\ forall fixedFirst,
         gs1_writeUnbracketedAIelementString ctx' fixedFirst false
           = str "^00006141411234567890"
         /\ gs1_writeBracketedAIelementString ctx' fixedFirst
           = str "(00)006141411234567890"
         /\ gs1_writeJSON ctx' fixedFirst
           = "{" :: dquote :: str "00" ++ dquote :: ":" :: dquote
               :: str "006141411234567890" ++ [dquote; "}"].
Proof.
  eexists. split; [vm_compute; reflexivity|].
  split; [reflexivity|]. split; [vm_compute; reflexivity|].
  intros []; vm_compute; auto.
Qed.

(** ** C6: percent decoding *)

Lemma size_guard (inlen i : nat) :
  i < inlen ->
  (Z.of_nat i <? size_sub inlen 2)%Z
  = if 2 <=? inlen then i + 2 <? inlen else true.
Proof.
  intros Hi. unfold size_sub, SIZE_MAX.
  destruct (Nat.leb_spec 2 inlen).
  - destruct (Nat.ltb_spec (i + 2) inlen); [apply Z.ltb_lt|apply Z.ltb_ge]; lia.
  - apply Z.ltb_lt. lia.
Qed.

Lemma drop_cons_inv (val : list ascii) (i : nat) (c : ascii) (v : list ascii) :
  drop i val = c :: v ->
  i < length val /\ peek val i = c /\ drop (i + 1) val = v.
Proof.
  intros H. assert (Hl : val !! i = Some c).
  { rewrite <- (Nat.add_0_r i), <- lookup_drop, H. done. }
  split; [by eapply lookup_lt_Some|]. split; [by apply peek_lookup|].
  rewrite Nat.add_1_r. rewrite (drop_S _ _ _ Hl) in H. congruence.
Qed.

Section Unescape.
Variables (buf : list ascii) (inp : nat) (val : list ascii).
Variables (q : bool) (maxlen : nat).
Hypothesis Hval : forall k, k < length val -> peek buf (inp + k) = peek val k.
Hypothesis Hdelim : isxdigit (peek buf (inp + length val)) = false.

Lemma escape_at_spec (i : nat) (c : ascii) (v : list ascii) :
  drop i val = c :: v ->
  escape_at buf inp (length val) i
  = match v with
    | x :: y :: _ => Ascii.eqb c "%" && isxdigit x && isxdigit y
    | _ => false
    end.
Proof.
  intros Hd. destruct (drop_cons_inv _ _ _ _ Hd) as (Hi & Hc & Hv).
  unfold escape_at. rewrite size_guard by done.
  rewrite Hval, Hc by done.
  destruct v as [|x [|y v]].
  - assert (length val = i + 1).
    { apply (f_equal length) in Hd. rewrite length_drop in Hd. simpl in Hd. lia. }
    destruct (Nat.leb_spec 2 (length val)).
    + destruct (Nat.ltb_spec (i + 2) (length val)); [lia|done].
    + assert (i = 0) as -> by lia. simpl.
      replace (inp + 0 + 1) with (inp + length val) by lia.
      rewrite Hdelim. by destruct (Ascii.eqb c "%").
  - assert (length val = i + 2).
    { apply (f_equal length) in Hd. rewrite length_drop in Hd. simpl in Hd. lia. }
    destruct (Nat.leb_spec 2 (length val)); [|lia].
    destruct (Nat.ltb_spec (i + 2) (length val)); [lia|done].
  - assert (i + 2 < length val).
    { apply (f_equal length) in Hd. rewrite length_drop in Hd. simpl in Hd. lia. }
    destruct (Nat.leb_spec 2 (length val)); [|lia].
    destruct (Nat.ltb_spec (i + 2) (length val)); [|lia].
    destruct (drop_cons_inv _ _ _ _ Hv) as (_ & Hx & Hv').
    destruct (drop_cons_inv _ _ _ _ Hv') as (_ & Hy & _).
    replace (inp + i + 1) with (inp + (i + 1)) by lia.
    replace (inp + i + 2) with (inp + (i + 1 + 1)) by lia.
    rewrite !Hval, Hx, Hy by lia. done.
Qed.

Lemma URIunescape_loop_spec (fuel : nat) :
  forall out i j,
    length val - i <= fuel -> i <= length val ->
    j <= maxlen -> maxlen <= length out ->
    let d := take (maxlen - j) (spec_unescape q (drop i val)) in
    exists out',
      URIunescape_loop fuel out maxlen buf inp (length val) q i j
        = Some (out', j + length d)
      /\ take (j + length d) out' = take j out ++ d
      /\ length out' = length out.
Proof.
  induction fuel as [|fuel IH]; intros out i j Hf Hi Hj Hout d.
  - assert (drop i val = []) as Hd by (apply drop_ge; lia).
    unfold d. rewrite Hd. simpl. rewrite take_nil. simpl.
    destruct (Nat.ltb_spec i (length val)); [lia|]. simpl.
    exists out. rewrite Nat.add_0_r, app_nil_r. done.
  - cbn [URIunescape_loop].
    destruct (Nat.ltb_spec i (length val)) as [Hlt|Hge]; simpl.
    2:{ assert (drop i val = []) as Hd by (apply drop_ge; lia).
        unfold d. rewrite Hd. simpl. rewrite take_nil. simpl.
        exists out. rewrite Nat.add_0_r, app_nil_r. done. }
    destruct (Nat.ltb_spec j maxlen) as [Hjlt|Hjge].
    2:{ unfold d. replace (maxlen - j) with 0 by lia. simpl.
        exists out. rewrite Nat.add_0_r, app_nil_r. done. }
    destruct (drop i val) as [|c v] eqn:Hd.
    { apply (f_equal length) in Hd. rewrite length_drop in Hd. simpl in Hd. lia. }
    pose proof (escape_at_spec i c v Hd) as Hesc.
    destruct (drop_cons_inv _ _ _ _ Hd) as (_ & Hc & Hv).
    assert (Hstep : forall b rest k,
               k <= length val -> length val - k <= fuel ->
               drop k val = rest ->
               d = b :: take (maxlen - (j + 1)) (spec_unescape q rest) ->
               exists out',
                 URIunescape_loop fuel (poke out j b) maxlen buf inp (length val) q k (j + 1)
                 = Some (out', j + length d)
                 /\ take (j + length d) out' = take j out ++ d
                 /\ length out' = length out).
    { intros b rest k Hk Hfk Hrest Hdb.
      destruct (IH (poke out j b) k (j + 1)) as (out' & E & Ht & Hl);
        [lia|lia|lia|unfold poke; rewrite length_insert; lia|].
      rewrite Hrest in E, Ht. exists out'.
      rewrite Hdb. cbn [length].
      replace (j + S (length (take (maxlen - (j + 1)) (spec_unescape q rest))))
        with (j + 1 + length (take (maxlen - (j + 1)) (spec_unescape q rest))) by lia.
      split; [done|]. split.
      - rewrite Ht. unfold poke. rewrite (Nat.add_1_r j).
        rewrite (take_S_r _ j b) by (apply list_lookup_insert_eq; lia).
        rewrite take_insert_ge by lia. by rewrite <- app_assoc.
      - rewrite Hl. unfold poke. apply length_insert. }
    assert (Hd1 : forall b rest,
               spec_unescape q (c :: v) = b :: spec_unescape q rest ->
               d = b :: take (maxlen - (j + 1)) (spec_unescape q rest)).
    { intros b rest Hs. unfold d. rewrite Hs.
      replace (maxlen - j) with (S (maxlen - (j + 1))) by lia. done. }
    rewrite Hesc. rewrite Hval, Hc by done.
    destruct v as [|x [|y v]].
    + destruct (q && Ascii.eqb c "+") eqn:Eq.
      * apply (Hstep _ []); [lia|lia|done|]. apply Hd1. simpl. by rewrite Eq.
      * apply (Hstep _ []); [lia|lia|done|]. apply Hd1. simpl. by rewrite Eq.
    + destruct (q && Ascii.eqb c "+") eqn:Eq.
      * apply (Hstep _ [x]); [lia|lia|done|]. apply Hd1. cbn [spec_unescape]. by rewrite Eq.
      * apply (Hstep _ [x]); [lia|lia|done|]. apply Hd1. cbn [spec_unescape]. by rewrite Eq.
    + destruct (drop_cons_inv _ _ _ _ Hv) as (Hi1 & Hx & Hv').
      destruct (drop_cons_inv _ _ _ _ Hv') as (Hi2 & Hy & Hv'').
      replace (inp + i + 1) with (inp + (i + 1)) by lia.
      replace (inp + i + 2) with (inp + (i + 1 + 1)) by lia.
      rewrite !Hval, Hx, Hy by lia.
      destruct (Ascii.eqb c "%" && isxdigit x && isxdigit y) eqn:Ee.
      * apply (Hstep _ v); [lia|lia| |].
        { rewrite <- Hv''. f_equal. lia. }
        apply Hd1. cbn [spec_unescape]. by rewrite Ee.
      * destruct (q && Ascii.eqb c "+") eqn:Eq.
        -- apply (Hstep _ (x :: y :: v)); [lia|lia|done|].
           apply Hd1. cbn [spec_unescape]. by rewrite Ee, Eq.
        -- apply (Hstep _ (x :: y :: v)); [lia|lia|done|].
           apply Hd1. cbn [spec_unescape]. by rewrite Ee, Eq.
Qed.
End Unescape.




(** The unit tests of [test_dl_URIunescape], path and query phase. *)
Example unescape_tests :
  unescaped "test" false = Some (str "test")
  /\ unescaped "+" false = Some (str "+") /\ unescaped "+" true = Some (str " ")
  /\ unescaped "%20AB" false = Some (str " AB")
  /\ unescaped "AB%20" true = Some (str "AB ")
  /\ unescaped "ABC%2" false = Some (str "ABC%2")
  /\ unescaped "ABCD%" true = Some (str "ABCD%")
  /\ unescaped "A%4FB" false = Some (str "AOB")
  /\ unescaped "A%4fB" false = Some (str "AOB")
  /\ unescaped "A%4gB" false = Some (str "A%4gB")
  /\ unescaped "A%G4B" true = Some (str "A%G4B")
  /\ unescaped "%2F" false = Some (str "/").
Proof. repeat split; reflexivity. Qed.

(** Outside the parser the guard [i < inlen - 2] protects nothing when
    [inlen] is 0 or 1, the subtraction being unsigned: a lone '%' is
    decoded with the two bytes that follow the input. *)
Remark URIunescape_reads_past_short_input :
  exists out, URIunescape aival0 GS1_DL_MAX_AI_LEN (str "%41") 0 1 false
              = Some (out, 1) /\ take 1 out = str "A".
Proof. eexists. split; reflexivity. Qed.


(** ** The backward search *)

Lemma allDigits_forallb (buf : list ascii) (p : nat) (a b : list ascii) :
  cstr buf p = a ++ b -> allDigits buf p (length a) = forallb is_digit a.
Proof.
  revert p. induction a as [|c a IH]; intros p H; simpl; [done|].
  pose proof (cstr_peek buf p [] (a ++ b) c H) as Hc. simpl in Hc.
  rewrite Nat.add_0_r in Hc. rewrite Hc.
  destruct (is_digit c); [|done]. simpl.
  replace (S p) with (p + length [c]) by (simpl; lia).
  apply IH. apply (cstr_suffix buf p [c]). done.
Qed.

Lemma isDLpkey_is_pkey (buf : list ascii) (p : nat) (a b : list ascii) :
  cstr buf p = a ++ b -> isDLpkey buf p (length a) = is_pkey a.
Proof.
  intros H. unfold isDLpkey, is_pkey. rewrite H.
  induction dl_pkeys as [|k ks IH]; simpl; [done|]. rewrite IH. f_equal.
  unfold strncmp_eq. rewrite take_app_length.
  destruct (Nat.eqb_spec (length k) (length a)) as [E|E]; simpl.
  - by rewrite <- E, firstn_all.
  - symmetry. apply bytes_eqb_neq. intros ->. done.
Qed.

Lemma render_pairs_cons (a v : list ascii) (ps : list (list ascii * list ascii)) :
  render_pairs ((a, v) :: ps) = "/" :: a ++ "/" :: v ++ render_pairs ps.
Proof. unfold render_pairs. simpl. by rewrite <- app_assoc. Qed.

Section Locate.
Variables (B : list ascii) (pi : nat).

Lemma find_dp_no_slash (fuel : nat) (buf : list ascii) (p : nat) :
  "/" ∉ cstr buf pi -> find_dp fuel buf pi p = Some (buf, None).
Proof.
  intros H. apply strrchr_None in H.
  destruct fuel; simpl; by rewrite H.
Qed.

Lemma find_dp_one_slash (fuel : nat) (buf : list ascii) (p : nat)
    (t v rest : list ascii) :
  cstr B pi = t ++ "/" :: v ++ rest -> cstr buf pi = t ++ "/" :: v ->
  poke buf p "/" = B -> "/" ∉ t -> "/" ∉ v ->
  find_dp (S fuel) buf pi p = Some (B, None).
Proof.
  intros HB Hbuf Hp Ht Hv. cbn [find_dp].
  unfold strrchr at 1. rewrite Hbuf, rindex_of_app by done. simpl.
  rewrite Hp. unfold strrchr.
  rewrite (cstr_poke_nul _ _ _ _ _ HB).
  apply rindex_of_None in Ht. rewrite Ht. simpl.
  by rewrite (poke_restore _ _ _ _ (cstr_lookup _ _ _ _ _ HB)).
Qed.

Lemma find_dp_step (fuel : nat) (buf : list ascii) (p : nat)
    (t a v rest : list ascii) :
  cstr B pi = t ++ "/" :: a ++ "/" :: v ++ rest ->
  cstr buf pi = t ++ "/" :: a ++ "/" :: v ->
  poke buf p "/" = B -> "/" ∉ a -> "/" ∉ v ->
  find_dp (S fuel) buf pi p
  = if negb (valid_AI_form a) then Some (B, None)
    else if is_pkey a then Some (B, Some (pi + length t))
    else find_dp fuel (poke B (pi + length t) NUL) pi (pi + length t).
Proof.
  intros HB Hbuf Hp Ha Hv. cbn [find_dp].
  assert (HB' : cstr B pi = (t ++ "/" :: a) ++ "/" :: v ++ rest)
    by (rewrite HB, <- app_assoc; done).
  unfold strrchr at 1.
  replace (cstr buf pi) with ((t ++ "/" :: a) ++ "/" :: v)
    by (rewrite Hbuf, <- app_assoc; done).
  rewrite rindex_of_app by done. simpl. rewrite Hp.
  unfold strrchr.
  rewrite (cstr_poke_nul _ _ _ _ _ HB').
  rewrite rindex_of_app by done. simpl.
  rewrite (poke_restore _ _ _ _ (cstr_lookup _ _ _ _ _ HB')).
  replace (pi + length (t ++ "/" :: a) - (pi + length t) - 1) with (length a)
    by (rewrite length_app; simpl; lia).
  assert (Hai : cstr B (pi + length t + 1) = a ++ "/" :: v ++ rest).
  { replace (pi + length t + 1) with (pi + length (t ++ ["/"]))
      by (rewrite length_app; simpl; lia).
    apply cstr_suffix. rewrite HB, <- app_assoc. done. }
  rewrite (allDigits_forallb _ _ _ _ Hai), (isDLpkey_is_pkey _ _ _ _ Hai).
  unfold valid_AI_form.
  destruct (Nat.ltb_spec (length a) 2), (Nat.leb_spec 2 (length a)); try lia;
    destruct (Nat.ltb_spec 4 (length a)), (Nat.leb_spec (length a) 4); try lia;
    simpl; done.
Qed.

(** Loop invariant of [find_dp]: the string at [pi] is the original
    one cut at [p], what was cut off is a sequence of AI/value pairs,
    and putting the '/' back at [p] gives the original buffer.  The
    search ends with the original buffer, or with the first byte of the
    path overwritten and nothing found. *)
Lemma find_dp_inv (fuel : nat) :
  B !! pi = Some "/" ->
  forall buf p t ps,
    cstr B pi = t ++ render_pairs ps -> slash_free ps ->
    cstr buf pi = t -> poke buf p "/" = B ->
    buf = B \/ (buf = poke B p NUL /\ p = pi + length t) ->
    length t <= fuel ->
    exists buf' dp,
      find_dp fuel buf pi p = Some (buf', dp)
      /\ match dp with
         | Some d =>
             buf' = B
             /\ exists t' ps',
                  cstr B pi = t' ++ render_pairs ps' /\ d = pi + length t'
                  /\ ps' <> [] /\ slash_free ps'
         | None => buf' = B \/ buf' = poke B pi NUL
         end.
Proof.
  intros Hpi.
  assert (Hexit : forall buf p t ps,
             cstr B pi = t ++ render_pairs ps ->
             buf = B \/ (buf = poke B p NUL /\ p = pi + length t) ->
             ("/" ∉ t) ->
             buf = B \/ buf = poke B pi NUL).
  { intros buf p t ps Hs [->|[-> ->]] Ht; [by left|right].
    destruct t as [|c t]; [by rewrite Nat.add_0_r|]. exfalso.
    apply cstr_lookup with (a := []) in Hs. simpl in Hs.
    rewrite Nat.add_0_r, Hpi in Hs. injection Hs as <-.
    apply Ht. by left. }
  induction fuel as [|fuel IH]; intros buf p t ps Hs Hps Ht Hp Hbuf Hfuel.
  - destruct t; [|simpl in Hfuel; lia].
    exists buf, None. split.
    + apply find_dp_no_slash. rewrite Ht. apply not_elem_of_nil.
    + apply (Hexit buf p [] ps); [done|done|apply not_elem_of_nil].
  - destruct (rindex_of "/" t) as [r|] eqn:Er.
    2:{ apply rindex_of_None in Er. exists buf, None. split.
        - apply find_dp_no_slash. by rewrite Ht.
        - by apply (Hexit buf p t ps). }
    apply rindex_of_Some in Er as (t1 & v & -> & _ & Hv).
    destruct (rindex_of "/" t1) as [r1|] eqn:Er1.
    2:{ exists B, None. split; [|by left].
        apply (find_dp_one_slash fuel buf p t1 v (render_pairs ps)); try done.
        - rewrite Hs, <- app_assoc. reflexivity.
        - by apply rindex_of_None. }
    apply rindex_of_Some in Er1 as (t0 & a & -> & _ & Ha).
    rewrite <- !app_assoc in Hs. rewrite <- !app_assoc in Ht.
    simpl in Hs, Ht.
    rewrite (find_dp_step fuel buf p t0 a v (render_pairs ps)) by done.
    assert (Hps' : slash_free ((a, v) :: ps)) by (constructor; done).
    destruct (valid_AI_form a); simpl.
    2:{ exists B, None. split; [done|by left]. }
    destruct (is_pkey a).
    { exists B, (Some (pi + length t0)). split; [done|]. split; [done|].
      exists t0, ((a, v) :: ps). by rewrite render_pairs_cons. }
    apply (IH _ _ t0 ((a, v) :: ps)); try done.
    + by rewrite render_pairs_cons.
    + by apply (cstr_poke_nul _ _ _ _ _ Hs).
    + by apply poke_restore, (cstr_lookup _ _ _ _ _ Hs).
    + by right.
    + rewrite !length_app in Hfuel. simpl in Hfuel. lia.
Qed.
End Locate.

(** ** The extraction loops *)

Lemma URIunescape_loop_total (fuel : nat) (maxlen : nat) (buf : list ascii)
    (inp inlen : nat) (q : bool) :
  forall out i j,
    inlen - i <= fuel ->
    exists out' n,
      URIunescape_loop fuel out maxlen buf inp inlen q i j = Some (out', n)
      /\ j <= n /\ (j <= maxlen -> n <= maxlen).
Proof.
  induction fuel as [|fuel IH]; intros out i j Hf; cbn [URIunescape_loop].
  - destruct (Nat.ltb_spec i inlen); [lia|]. simpl. by exists out, j.
  - destruct (Nat.ltb_spec i inlen); [|by exists out, j].
    destruct (Nat.ltb_spec j maxlen); [|by exists out, j]. simpl.
    destruct (escape_at _ _ _ _); [|destruct (q && _)].
    all: match goal with
         | |- context [URIunescape_loop _ ?o _ _ _ _ _ ?i' ?j'] =>
             destruct (IH o i' j') as (out' & n & -> & Hn & Hm); [lia|];
             exists out', n; split; [done|lia]
         end.
Qed.

(** [URIunescape] always returns; it returns at most [maxlen], and at
    least 1 when there is input and room for a byte. *)
Lemma URIunescape_total (out : list ascii) (maxlen : nat) (buf : list ascii)
    (inp inlen : nat) (q : bool) :
  exists out' n,
    URIunescape out maxlen buf inp inlen q = Some (out', n)
    /\ n <= maxlen
    /\ (1 <= inlen -> 1 <= maxlen -> 1 <= n).
Proof.
  unfold URIunescape.
  destruct (URIunescape_loop_total inlen maxlen buf inp inlen q out 0 0)
    as (out' & n & E & _ & Hmax); [lia|].
  rewrite E. exists (poke out' n NUL), n. split; [done|]. split; [lia|].
  intros Hin Hm. destruct inlen as [|m]; [lia|]. destruct maxlen as [|k]; [lia|].
  cbn [URIunescape_loop] in E.
  replace ((0 <? S m) && (0 <? S k)) with true in E by done.
  destruct (escape_at _ _ _ _); [|destruct (q && _)].
  all: match type of E with
       | URIunescape_loop ?f ?o _ _ _ _ _ ?i' ?j' = _ =>
           destruct (URIunescape_loop_total f (S k) buf inp (S f) q o i' j')
             as (out2 & n2 & E2 & Hn & _); [lia|];
           rewrite E2 in E; injection E as _ <-; lia
       end.
Qed.

Lemma store_AI_err (ctx : gs1DLparser) (buf : list ascii) (ai ailen : nat)
    (aival : list ascii) (vlen : nat) :
  match store_AI ctx buf ai ailen aival vlen with
  | Cont (ctx', _) => err ctx' = err ctx
  | GotoFail c => loop_error (err ctx) (err c)
  end.
Proof.
  unfold store_AI. destruct (gtin14 _ _ _ _ _) as [a' n'].
  unfold writeAIbuf. destruct (_ <? _); [by left|].
  cbn [aiBuf set_aiBuf]. destruct (_ <? _); [by left|].
  cbn [aiBuf set_aiBuf numAIs aiData err].
  destruct (_ <? _); [done|]. right. unfold parse_error. simpl. tauto.
Qed.

Section PathLoop.
Variable B : list ascii.

Lemma path_loop_step (fuel : nat) (ctx : gs1DLparser) (aival : list ascii)
    (p : nat) (a v rest : list ascii) :
  cstr B p = "/" :: a ++ "/" :: v ++ rest ->
  "/" ∉ a -> "/" ∉ v -> (rest = [] \/ exists rest', rest = "/" :: rest') ->
  path_loop (S fuel) B ctx aival p
  = match v with
    | [] => Some (GotoFail (set_err ctx (snprintf_err
               (str "AI (" ++ a ++ str ") value path element is empty"))))
    | _ :: _ =>
        match URIunescape aival GS1_DL_MAX_AI_LEN B (p + 1 + length a + 1)
                (length v) false with
        | None => None
        | Some (aival, vlen) =>
            if vlen =? 0 then
              Some (GotoFail (set_err ctx
                (str "Decoded AI (" ++ a ++ str ") from DL path info too long")))
            else
              match store_AI ctx B (p + 1) (length a) aival vlen with
              | GotoFail c => Some (GotoFail c)
              | Cont (ctx, aival) =>
                  path_loop fuel B ctx aival (p + 1 + length a + 1 + length v)
              end
        end
    end.
Proof.
  intros Hs Ha Hv Hrest. cbn [path_loop].
  assert (Hpk : peek B p = "/").
  { pose proof (cstr_peek B p [] _ _ Hs) as H. simpl in H.
    by rewrite Nat.add_0_r in H. }
  rewrite Hpk. simpl.
  assert (Hai : cstr B (p + 1) = a ++ "/" :: v ++ rest)
    by (apply (cstr_suffix B p ["/"]); done).
  rewrite (strchr_app _ _ _ _ _ Hai Ha).
  assert (Hval : cstr B (p + 1 + length a + 1) = v ++ rest).
  { replace (p + 1 + length a + 1) with (p + 1 + length (a ++ ["/"]))
      by (rewrite length_app; simpl; lia).
    apply cstr_suffix. by rewrite <- app_assoc. }
  replace (p + 1 + length a - (p + 1)) with (length a) by lia.
  rewrite Hai, take_app_length.
  set (r := p + 1 + length a + 1) in *.
  assert (Hp : match strchr B r "/" with
               | Some q => q
               | None => r + strlen B r
               end = r + length v).
  { destruct Hrest as [->|[rest' ->]].
    - rewrite app_nil_r in Hval.
      assert (strchr B r "/" = None) as -> by (apply strchr_None; by rewrite Hval).
      unfold strlen. by rewrite Hval.
    - by rewrite (strchr_app _ _ _ _ _ Hval Hv). }
  rewrite Hp. replace (r + length v - r) with (length v) by lia.
  destruct v as [|c v].
  - simpl. rewrite Nat.add_0_r, Nat.eqb_refl. done.
  - destruct (Nat.eqb_spec (r + length (c :: v)) r) as [E|_];
      [simpl in E; lia|]. done.
Qed.

Lemma path_loop_pairs (ps : list (list ascii * list ascii)) :
  forall fuel ctx aival p,
    cstr B p = render_pairs ps -> slash_free ps -> length ps <= fuel ->
    exists f,
      path_loop fuel B ctx aival p = Some f
      /\ match f with
         | Cont (ctx', _) =>
             err ctx' = err ctx /\ Forall (fun av => snd av <> []) ps
         | GotoFail c => loop_error (err ctx) (err c)
         end.
Proof.
  induction ps as [|[a v] ps IH]; intros fuel ctx aival p Hs Hps Hf.
  - exists (Cont (ctx, aival)). split; [|done].
    apply cstr_nil_peek in Hs.
    destruct fuel; simpl; by rewrite Hs.
  - destruct fuel as [|fuel]; [simpl in Hf; lia|].
    rewrite render_pairs_cons in Hs.
    apply Forall_cons in Hps as [[Ha Hv] Hps]. simpl in Ha, Hv.
    rewrite (path_loop_step fuel ctx aival p a v (render_pairs ps)); try done.
    2:{ destruct ps as [|[a' v'] ps']; [by left|right].
        rewrite render_pairs_cons. by eexists. }
    destruct v as [|c v].
    { eexists. split; [done|]. right. unfold parse_error.
      do 6 right. left. by exists a. }
    destruct (URIunescape_total aival GS1_DL_MAX_AI_LEN B
                (p + 1 + length a + 1) (length (c :: v)) false)
      as (aival' & n & -> & _ & Hn).
    destruct (Nat.eqb_spec n 0) as [->|_].
    { exfalso. simpl in Hn. unfold GS1_DL_MAX_AI_LEN in Hn. lia. }
    pose proof (store_AI_err ctx B (p + 1) (length a) aival' n) as Hst.
    destruct (store_AI ctx B (p + 1) (length a) aival' n) as [[ctx' aival'']|c'].
    2:{ eexists. split; done. }
    destruct (IH fuel ctx' aival'' (p + 1 + length a + 1 + length (c :: v)))
      as (f & -> & Hpost); [|done|simpl in Hf; lia|].
    { replace (p + 1 + length a + 1 + length (c :: v))
        with (p + length ("/" :: a ++ "/" :: c :: v))
        by (simpl; rewrite length_app; simpl; lia).
      apply cstr_suffix. rewrite Hs. simpl. rewrite <- app_assoc. done. }
    exists f. split; [done|]. destruct f as [[ctx'' ?]|c''].
    + destruct Hpost as [He Hall]. split; [congruence|].
      constructor; [done|done].
    + by rewrite <- Hst.
Qed.
End PathLoop.

Lemma count_amp_until_nul (l : list ascii) :
  until_nul l = replicate (count_amp l) "&" ++ until_nul (drop (count_amp l) l).
Proof.
  induction l as [|c l IH]; simpl; [done|].
  destruct (Ascii.eqb_spec c "&") as [->|Hc]; simpl; [|done].
  by rewrite <- IH.
Qed.

Lemma strlen_skip_amp (buf : list ascii) (p : nat) :
  strlen buf p = count_amp (drop p buf) + strlen buf (p + count_amp (drop p buf)).
Proof.
  unfold strlen, cstr. rewrite (count_amp_until_nul (drop p buf)) at 1.
  by rewrite length_app, length_replicate, drop_drop.
Qed.

Lemma count_amp_0 (buf : list ascii) (p : nat) :
  count_amp (drop p buf) = 0 -> peek buf p <> "&".
Proof.
  rewrite <- (Nat.add_0_r p) at 2. rewrite <- peek_drop.
  destruct (drop p buf) as [|c l]; simpl; [done|].
  unfold peek. simpl. by destruct (Ascii.eqb_spec c "&").
Qed.

Lemma strlen_pos (buf : list ascii) (p : nat) :
  peek buf p <> NUL -> 0 < strlen buf p.
Proof.
  intros H. unfold strlen. destruct (cstr buf p) eqn:E; simpl; [|lia].
  by apply cstr_nil_peek in E.
Qed.

(** Each turn of the query loop moves [p] forward inside the string. *)
Lemma query_advance (buf : list ascii) (p : nat) :
  peek buf p <> NUL ->
  let p1 := p + count_amp (drop p buf) in
  let r := match strchr buf p1 "&" with
           | Some r => r
           | None => p1 + strlen buf p1
           end in
  strlen buf r < strlen buf p.
Proof.
  intros Hp p1 r. pose proof (strlen_skip_amp buf p) as Hk. fold p1 in Hk.
  pose proof (strlen_pos buf p Hp) as Hpos.
  subst r. destruct (strchr buf p1 "&") as [r|] eqn:E.
  - apply strchr_Some in E as (a & b & Hs & -> & Ha).
    pose proof (cstr_suffix _ _ _ _ Hs) as Hr.
    assert (Hl : strlen buf p1 = length a + strlen buf (p1 + length a)).
    { unfold strlen. rewrite Hs, Hr, length_app. done. }
    destruct (count_amp (drop p buf)) as [|k] eqn:Ek; [|lia].
    apply count_amp_0 in Ek. destruct a as [|c a]; [|simpl in *; lia].
    exfalso. apply Ek. unfold p1 in Hs. rewrite Nat.add_0_r in Hs.
    pose proof (cstr_peek buf p [] _ _ Hs) as H. simpl in H.
    by rewrite Nat.add_0_r in H.
  - assert (strlen buf (p1 + strlen buf p1) = 0) as ->; [|lia].
    unfold strlen at 1. replace (cstr buf (p1 + strlen buf p1)) with (@nil ascii); [done|].
    symmetry. apply cstr_nil_peek, peek_strlen.
Qed.

Lemma memchr_Some (buf : list ascii) (p n e : nat) (c : ascii) :
  memchr buf p c n = Some e -> p <= e /\ e < p + n.
Proof.
  unfold memchr. destruct (index_of c _) as [k|] eqn:E; [|done].
  intros [= <-]. apply index_of_Some in E as (s1 & s2 & Hs & <- & _).
  apply (f_equal length) in Hs. rewrite length_take, length_app in Hs.
  simpl in Hs. lia.
Qed.

Lemma query_loop_total (fuel : nat) (buf : list ascii) :
  forall ctx aival p,
    strlen buf p <= fuel ->
    exists f,
      query_loop fuel buf ctx aival p = Some f
      /\ match f with
         | Cont (ctx', _) => err ctx' = err ctx
         | GotoFail c => loop_error (err ctx) (err c)
         end.
Proof.
  induction fuel as [|fuel IH]; intros ctx aival p Hf.
  - exists (Cont (ctx, aival)). split; [|done]. simpl.
    destruct (Ascii.eqb_spec (peek buf p) NUL) as [|Hp]; [done|].
    apply strlen_pos in Hp. lia.
  - cbn [query_loop].
    destruct (Ascii.eqb_spec (peek buf p) NUL) as [|Hp].
    { by exists (Cont (ctx, aival)). }
    pose proof (query_advance buf p Hp) as Hadv. cbv zeta in Hadv.
    set (p1 := p + count_amp (drop p buf)) in *.
    set (r := match strchr buf p1 "&" with
              | Some r => r
              | None => p1 + strlen buf p1
              end) in *.
    assert (Hrec : forall ctx' aival',
               err ctx' = err ctx ->
               exists f,
                 query_loop fuel buf ctx' aival' r = Some f
                 /\ match f with
                    | Cont (ctx'', _) => err ctx'' = err ctx
                    | GotoFail c => loop_error (err ctx) (err c)
                    end).
    { intros ctx' aival' He. destruct (IH ctx' aival' r) as (f & -> & Hpost); [lia|].
      exists f. split; [done|]. by rewrite <- He. }
    destruct (memchr buf p1 "=" (r - p1)) as [e|] eqn:Em; [|by apply Hrec].
    apply memchr_Some in Em.
    destruct (allDigits buf p1 (e - p1)); [|by apply Hrec].
    destruct (_ || _).
    { eexists. split; [done|]. right. unfold parse_error.
      do 8 right. by eexists. }
    destruct (Nat.eqb_spec r (e + 1)) as [|Hre].
    { eexists. split; [done|]. right. unfold parse_error.
      do 7 right. left. by eexists. }
    destruct (URIunescape_total aival GS1_DL_MAX_AI_LEN buf (e + 1) (r - (e + 1)) true)
      as (aival' & n & -> & _ & Hn).
    destruct (Nat.eqb_spec n 0) as [->|_].
    { exfalso. unfold GS1_DL_MAX_AI_LEN in Hn. lia. }
    pose proof (store_AI_err ctx buf p1 (e - p1) aival' n) as Hst.
    destruct (store_AI ctx buf p1 (e - p1) aival' n) as [[ctx' aival'']|c'].
    + by apply Hrec.
    + by eexists.
Qed.

(** ** Every parse returns *)

Lemma until_nul_length (l : list ascii) : length (until_nul l) <= length l.
Proof.
  induction l as [|c l IH]; simpl; [done|].
  destruct (Ascii.eqb c NUL); simpl; lia.
Qed.

Lemma strlen_le (buf : list ascii) (p : nat) : strlen buf p <= length buf.
Proof.
  unfold strlen, cstr. etrans; [apply until_nul_length|].
  rewrite length_drop. lia.
Qed.

Lemma length_render_pairs (ps : list (list ascii * list ascii)) :
  length ps <= length (render_pairs ps).
Proof.
  induction ps as [|[a v] ps IH]; [done|].
  rewrite render_pairs_cons. simpl. rewrite !length_app. simpl.
  rewrite length_app. lia.
Qed.

Lemma strchr_lookup (buf : list ascii) (p q : nat) (c : ascii) :
  strchr buf p c = Some q -> buf !! q = Some c.
Proof.
  intros H. apply strchr_Some in H as (a & b & Hs & -> & _).
  by apply (cstr_lookup _ _ _ _ _ Hs).
Qed.

Lemma chop_keeps (buf : list ascii) (r f : nat) (c d : ascii) :
  buf !! r = Some d -> buf !! f = Some c -> c <> d ->
  poke buf f NUL !! r = Some d.
Proof.
  intros Hr Hf Hc. unfold poke. rewrite list_lookup_insert_ne; [done|].
  intros ->. rewrite Hr in Hf. congruence.
Qed.

Lemma poke_swap (buf : list ascii) (i j : nat) (x y : ascii) :
  i <> j -> poke (poke buf j y) i x = poke (poke buf i x) j y.
Proof. intros H. unfold poke. by apply list_insert_insert_ne. Qed.

Lemma chop_apart (buf : list ascii) (r f : nat) (c d : ascii) :
  buf !! r = Some d -> buf !! f = Some c -> c <> d -> f <> r.
Proof. intros Hr Hf Hc ->. rewrite Hr in Hf. congruence. Qed.

Lemma label_fail_outcome (c : gs1DLparser) (buf : list ascii) (qp fr : option nat) :
  loop_error [] (err c) ->
  exists c' buf', label_fail c buf qp fr = (false, c', buf') /\ outcome false c'.
Proof.
  intros He. unfold label_fail, label_out. do 2 eexists. split; [done|].
  split; [done|]. intros _. split; [done|]. cbn [err].
  destruct (err c) as [|x e] eqn:E.
  - simpl. unfold parse_error. tauto.
  - rewrite E. by destruct He.
Qed.

Lemma label_fail_msg (msg : string) (buf : list ascii) (qp fr : option nat) :
  parse_error (str msg) ->
  exists c' buf',
    label_fail (set_err ctx_reset (str msg)) buf qp fr = (false, c', buf')
    /\ outcome false c'.
Proof. intros H. apply label_fail_outcome. by right. Qed.

(** The backward search and the two loops return; on success the path
    is a stem followed by AI/value pairs with no empty value.  The
    buffer handed back is the one received with its delimiters put
    back, but for a failure that leaves a NUL at [pi]. *)
Lemma locate_and_extract_outcome (fuel : nat) (ctx : gs1DLparser)
    (B : list ascii) (pi : nat) (qp fr : option nat) :
  B !! pi = Some "/" -> err ctx = [] -> length B <= fuel ->
  exists ret ctx' buf',
    locate_and_extract fuel ctx B pi qp fr = Some (ret, ctx', buf')
    /\ outcome ret ctx'
    /\ (buf' = put_back B qp fr
        \/ (ret = false /\ buf' = put_back (poke B pi NUL) qp fr))
    /\ (ret = true ->
        exists t ps, cstr B pi = t ++ render_pairs ps /\ ps <> []
                     /\ slash_free ps /\ Forall (fun av => snd av <> []) ps).
Proof.
  intros Hpi Herr Hfuel. unfold locate_and_extract.
  destruct (find_dp_inv B pi fuel Hpi B pi (cstr B pi) [])
    as (buf' & dp & -> & Hdp).
  { by rewrite app_nil_r. }
  { constructor. }
  { done. }
  { by apply poke_id. }
  { by left. }
  { etrans; [apply strlen_le|done]. }
  assert (Hfail : forall c b,
             loop_error [] (err c) ->
             b = B \/ b = poke B pi NUL ->
             exists ret ctx' buf',
               Some (label_fail c b qp fr) = Some (ret, ctx', buf')
               /\ outcome ret ctx'
               /\ (buf' = put_back B qp fr
                   \/ (ret = false /\ buf' = put_back (poke B pi NUL) qp fr))
               /\ (ret = true ->
                   exists t ps, cstr B pi = t ++ render_pairs ps /\ ps <> []
                                /\ slash_free ps
                                /\ Forall (fun av => snd av <> []) ps)).
  { intros c b Hc Hb.
    destruct (label_fail_outcome c b qp fr Hc) as (c' & b' & E & Ho).
    exists false, c', b'. rewrite E. split; [done|]. split; [done|].
    split; [|done]. unfold label_fail, label_out in E. injection E as _ <-.
    destruct Hb as [->| ->]; [by left|by right]. }
  destruct dp as [d|].
  2:{ apply Hfail; [|done]. right. unfold parse_error. simpl. tauto. }
  destruct Hdp as (-> & t' & ps' & Hs & -> & Hne & Hps).
  destruct (path_loop_pairs B ps' fuel ctx aival0 (pi + length t'))
    as (f & -> & Hf); [by apply cstr_suffix|done| |].
  { etrans; [apply length_render_pairs|].
    etrans; [|apply Hfuel]. etrans; [|apply (strlen_le B pi)].
    unfold strlen. rewrite Hs, length_app. lia. }
  destruct f as [[ctx1 aival1]|c].
  2:{ rewrite Herr in Hf. apply Hfail; [done|by left]. }
  destruct Hf as [He1 Hval]. rewrite Herr in He1.
  assert (Hok : exists t ps, cstr B pi = t ++ render_pairs ps /\ ps <> []
                  /\ slash_free ps /\ Forall (fun av => snd av <> []) ps)
    by (by exists t', ps').
  destruct qp as [q|].
  2:{ eexists true, ctx1, _. split; [done|]. split; [done|].
      split; [by left|done]. }
  destruct (query_loop_total fuel B ctx1 aival1 q) as (f & -> & Hf).
  { etrans; [apply strlen_le|done]. }
  destruct f as [[ctx2 aival2]|c].
  - eexists true, ctx2, _. split; [done|]. split; [|split; [by left|done]].
    split; [congruence|done].
  - rewrite He1 in Hf. apply Hfail; [done|by left].
Qed.

(** [gs1_parseDLuri] returns on every input, with the flag, the count
    and the message in step.  The caller's buffer is as it was, but for
    a failure that leaves a NUL over the first '/' of the path. *)
Lemma gs1_parseDLuri_outcome (ctx : gs1DLparser) (dlData : list ascii) :
  exists ret ctx' buf',
    gs1_parseDLuri ctx dlData = Some (ret, ctx', buf') /\ outcome ret ctx'
    /\ (buf' = dlData
        \/ (ret = false
            /\ exists pi, dlData !! pi = Some "/" /\ buf' = poke dlData pi NUL)).
Proof.
  unfold gs1_parseDLuri.
  assert (Hmsg : forall msg,
             parse_error (str msg) ->
             exists ret ctx' buf',
               Some (label_fail (set_err ctx_reset (str msg)) dlData None None)
               = Some (ret, ctx', buf') /\ outcome ret ctx'
               /\ (buf' = dlData
                   \/ (ret = false
                       /\ exists pi, dlData !! pi = Some "/"
                                     /\ buf' = poke dlData pi NUL))).
  { intros msg H.
    destruct (label_fail_msg msg dlData None None H) as (c' & b' & E & Ho).
    exists false, c', b'. rewrite E. split; [done|]. split; [done|]. left.
    unfold label_fail, label_out in E. by injection E as _ <-. }
  destruct (negb _).
  { apply Hmsg. unfold parse_error. tauto. }
  destruct (_ && _).
  2: destruct (_ && _).
  3:{ apply Hmsg. unfold parse_error. tauto. }
  all: match goal with
       | |- context [strchr ?d ?p "/"] =>
           destruct (strchr d p "/") as [r|] eqn:Er;
             [|apply Hmsg; unfold parse_error; tauto];
           destruct (r - p <? 1); [apply Hmsg; unfold parse_error; tauto|]
       end.
  all: apply strchr_lookup in Er.
  all: destruct (strchr _ _ "#") as [f|] eqn:Ef;
         [apply strchr_lookup in Ef|].
  all: destruct (strchr _ _ "?") as [q|] eqn:Eq;
         [apply strchr_lookup in Eq|].
  all: match goal with
       | |- context [locate_and_extract ?fl ?c ?b ?pi ?qp ?fr] =>
           destruct (locate_and_extract_outcome fl c b pi qp fr)
             as (ret & ctx' & buf' & -> & Ho & Hb & _);
             [| done | unfold poke; rewrite ?length_insert; lia
              | exists ret, ctx', buf'; split; [done|]; split; [done|] ]
       end.
  all: try (repeat first [ exact Er
                         | eapply chop_keeps; [|eassumption|discriminate] ]; fail).
  all: unfold put_back in Hb; rewrite ?Nat.add_sub in Hb.
  all: destruct Hb as [->|[-> ->]];
         [left|right; split; [done|]; exists r; split; [done|]].
  all: repeat first
         [ rewrite (poke_restore _ _ _ _ Eq)
         | rewrite (poke_restore _ _ _ _ Ef)
         | match goal with
           | |- context [poke (poke ?X ?j NUL) ?i "?"] =>
               rewrite (poke_swap X i j "?" NUL);
                 [|eapply (chop_apart _ _ _ "?" "/");
                   [|exact Eq|discriminate];
                   repeat first
                     [ exact Er
                     | eapply chop_keeps; [|eassumption|discriminate] ]]
           | |- context [poke (poke ?X ?j NUL) ?i "#"] =>
               rewrite (poke_swap X i j "#" NUL);
                 [|eapply chop_apart; [exact Er|exact Ef|discriminate]]
           end ].
  all: done.
Qed.

(** ** The structural splitter on a well-formed URI *)

Lemma legal_app (a b : list ascii) : legal (a ++ b) <-> legal a /\ legal b.
Proof. unfold legal. rewrite forallb_app, andb_true_iff. done. Qed.

Lemma legal_no_nul (s : list ascii) : legal s -> NUL ∉ s.
Proof.
  unfold legal. induction s as [|c s IH]; simpl; [intros _; apply not_elem_of_nil|].
  rewrite andb_true_iff. intros [Hc Hs]. rewrite not_elem_of_cons.
  split; [|by apply IH]. intros <-. vm_compute in Hc. discriminate.
Qed.

Lemma span_len_legal (s : list ascii) :
  legal s -> span_len uriCharacters s = length s.
Proof.
  unfold legal. induction s as [|c s IH]; simpl; [done|].
  rewrite andb_true_iff. intros [-> Hs]. by rewrite IH.
Qed.

Lemma cstr_whole (buf : list ascii) : NUL ∉ buf -> cstr buf 0 = buf.
Proof. intros H. unfold cstr. rewrite drop_0. by apply until_nul_id. Qed.

(** Cutting the string at the first [c] keeps a prefix free of [c]. *)
Lemma cstr_chop_after (buf : list ascii) (pi f : nat) (x t : list ascii) (c : ascii) :
  cstr buf pi = x ++ t -> strchr buf pi c = Some f -> c ∉ x ->
  exists t', cstr (poke buf f NUL) pi = x ++ t'.
Proof.
  intros Hs Hf Hx. apply strchr_Some in Hf as (a & b & Ha & -> & Hna).
  rewrite (cstr_poke_nul _ _ _ _ _ Ha).
  assert (Hlen : length x <= length a).
  { destruct (decide (length x <= length a)) as [|Hgt]; [done|]. exfalso.
    apply Hx. apply (list_elem_of_lookup_2 _ (length a)).
    assert (H : (x ++ t) !! length a = Some c).
    { rewrite <- Hs, Ha. rewrite lookup_app_r by lia. by rewrite Nat.sub_diag. }
    rewrite lookup_app_l in H by lia. done. }
  exists (take (length a - length x) t).
  assert (Hax : a = take (length a) (x ++ t))
    by (by rewrite <- Hs, Ha, take_app_length).
  rewrite Hax at 1. by rewrite take_app_ge.
Qed.

Lemma split_at_delimiters (dl : list ascii) (pi : nat) (path tail : list ascii) :
  cstr dl pi = path ++ tail -> ("#" ∉ path) -> ("?" ∉ path) ->
  (tail = [] \/ exists tail', tail = "?" :: tail' \/ tail = "#" :: tail') ->
  exists B qp fr,
    cstr B pi = path /\ length B = length dl
    /\ forall (A : Type) (k : list ascii -> option nat -> option nat -> A),
         (let '(buf, fr) := match strchr dl pi "#" with
                            | Some f => (poke dl f NUL, Some (f + 1))
                            | None => (dl, None)
                            end in
          let '(buf, qp) := match strchr buf pi "?" with
                            | Some q => (poke buf q NUL, Some (q + 1))
                            | None => (buf, None)
                            end in
          k buf qp fr) = k B qp fr.
Proof.
  intros Hs Hh Hq [->|[tail' [->| ->]]].
  - rewrite app_nil_r in Hs. exists dl, None, None.
    split; [done|]. split; [done|]. intros A k.
    assert (strchr dl pi "#" = None) as -> by (apply strchr_None; by rewrite Hs).
    assert (strchr dl pi "?" = None) as -> by (apply strchr_None; by rewrite Hs).
    done.
  - destruct (strchr dl pi "#") as [f|] eqn:Ef.
    + destruct (cstr_chop_after dl pi f (path ++ ["?"]) tail' "#") as (t' & Ht').
      { by rewrite <- app_assoc. }
      { done. }
      { rewrite not_elem_of_app. split; [done|].
        rewrite not_elem_of_cons. split; [done|apply not_elem_of_nil]. }
      rewrite <- app_assoc in Ht'. simpl in Ht'.
      exists (poke (poke dl f NUL) (pi + length path) NUL),
             (Some (pi + length path + 1)), (Some (f + 1)).
      split; [by apply (cstr_poke_nul _ _ _ _ _ Ht')|].
      split; [unfold poke; by rewrite !length_insert|]. intros A k.
      by rewrite (strchr_app _ _ _ _ _ Ht' Hq).
    + exists (poke dl (pi + length path) NUL), (Some (pi + length path + 1)), None.
      split; [by apply (cstr_poke_nul _ _ _ _ _ Hs)|].
      split; [unfold poke; by rewrite !length_insert|]. intros A k.
      by rewrite (strchr_app _ _ _ _ _ Hs Hq).
  - exists (poke dl (pi + length path) NUL), None, (Some (pi + length path + 1)).
    pose proof (cstr_poke_nul _ _ _ _ _ Hs) as HB.
    split; [done|]. split; [unfold poke; by rewrite !length_insert|]. intros A k.
    rewrite (strchr_app _ _ _ _ _ Hs Hh).
    assert (strchr (poke dl (pi + length path) NUL) pi "?" = None) as ->
      by (apply strchr_None; by rewrite HB).
    done.
Qed.

Lemma parse_well_formed (ctx : gs1DLparser) (scheme domain path tail : list ascii) :
  well_formed scheme domain path tail ->
  let dl := dl_uri scheme domain path tail in
  let pi := length scheme + length domain in
  exists B qp fr,
    cstr B pi = path /\ length B = length dl
    /\ gs1_parseDLuri ctx dl
       = locate_and_extract (S (length dl)) ctx_reset B pi qp fr.
Proof.
  intros (Hsch & Hdom & Hdslash & [path' ->] & Hh & Hq & Htail & Hlegal) dl pi.
  assert (Hleg : legal dl).
  { unfold dl, dl_uri. apply legal_app. split; [|done].
    by destruct Hsch as [->| ->]. }
  pose proof (cstr_whole dl (legal_no_nul dl Hleg)) as Hwhole.
  assert (Hrest : cstr dl (length scheme) = domain ++ ("/" :: path') ++ tail).
  { apply (cstr_suffix dl 0 scheme). by rewrite Hwhole. }
  assert (Hpi : cstr dl pi = ("/" :: path') ++ tail).
  { apply (cstr_suffix dl (length scheme) domain). done. }
  destruct (split_at_delimiters dl pi ("/" :: path') tail Hpi Hh Hq Htail)
    as (B & qp & fr & HB & HlenB & Hk).
  exists B, qp, fr. split; [done|]. split; [done|].
  unfold gs1_parseDLuri.
  unfold strspn, strlen. rewrite Hwhole, span_len_legal, Nat.eqb_refl by done.
  cbn [negb].
  assert (Hsel :
    (if (8 <=? length dl) && strncmp_eq dl (str "https://") 8 then Some (0 + 8)
     else if (7 <=? length dl) && strncmp_eq dl (str "http://") 7 then Some (0 + 7)
     else None) = Some (length scheme)).
  { unfold dl, dl_uri. destruct Hsch as [->| ->].
    - rewrite length_app. unfold strncmp_eq.
      rewrite take_app_length' by done. done.
    - rewrite length_app. unfold strncmp_eq.
      destruct domain as [|d domain']; [done|].
      simpl. done. }
  rewrite Hsel.
  rewrite (strchr_app _ _ domain (path' ++ tail) "/" Hrest Hdslash).
  fold pi.
  replace (pi - length scheme <? 1) with false.
  2:{ symmetry. apply Nat.ltb_ge. unfold pi. destruct domain; [done|simpl; lia]. }
  apply Hk.
Qed.

(** ** C7 and C3: where the backward search stops *)

Ltac reassoc :=
  repeat first [ rewrite <- !app_assoc | progress cbn [app] ].

Lemma render_pairs_app (ps1 ps2 : list (list ascii * list ascii)) :
  render_pairs (ps1 ++ ps2) = render_pairs ps1 ++ render_pairs ps2.
Proof. unfold render_pairs. apply flat_map_app. Qed.

Section Stops.
Variables (B : list ascii) (pi : nat) (stem seg last : list ascii).
Hypothesis Hseg : "/" ∉ seg.
Hypothesis Hlast : "/" ∉ last.
Hypothesis Hinvalid : valid_AI_form seg = false.

(** Candidates that have the form of an AI and are no primary key are
    walked over; the first candidate of another form ends the search
    with nothing found, whatever stands to its left. *)
Lemma find_dp_stops (ps : list (list ascii * list ascii)) :
  forall fuel buf p rest,
    cstr B pi = (stem ++ "/" :: seg ++ "/" :: last ++ render_pairs ps) ++ rest ->
    cstr buf pi = stem ++ "/" :: seg ++ "/" :: last ++ render_pairs ps ->
    poke buf p "/" = B -> slash_free ps ->
    Forall (fun av => valid_AI_form (fst av) = true /\ is_pkey (fst av) = false) ps ->
    length ps < fuel ->
    find_dp fuel buf pi p = Some (B, None).
Proof.
  induction ps as [|[a v] ps IH] using rev_ind;
    intros fuel buf p rest HB Hbuf Hp Hsf Hok Hfuel.
  - destruct fuel as [|fuel]; [lia|].
    simpl in HB, Hbuf. rewrite app_nil_r in HB, Hbuf.
    rewrite (find_dp_step B pi fuel buf p stem seg last rest); try done.
    + by rewrite Hinvalid.
    + rewrite HB. by reassoc.
  - destruct fuel as [|fuel]; [lia|].
    apply Forall_app in Hsf as [Hsf Hav]. apply Forall_app in Hok as [Hok Hav'].
    apply Forall_singleton in Hav as [Ha Hv]. simpl in Ha, Hv.
    apply Forall_singleton in Hav' as [Hva Hnk]. simpl in Hva, Hnk.
    rewrite render_pairs_app in HB, Hbuf.
    change (render_pairs [(a, v)]) with (("/" :: a ++ "/" :: v) ++ []) in HB, Hbuf.
    rewrite app_nil_r in HB, Hbuf.
    set (t := stem ++ "/" :: seg ++ "/" :: last ++ render_pairs ps) in *.
    assert (HB' : cstr B pi = t ++ "/" :: a ++ "/" :: v ++ rest).
    { rewrite HB. unfold t. by reassoc. }
    assert (Hbuf' : cstr buf pi = t ++ "/" :: a ++ "/" :: v).
    { rewrite Hbuf. unfold t. by reassoc. }
    rewrite (find_dp_step B pi fuel buf p t a v rest HB' Hbuf' Hp Ha Hv).
    rewrite Hva, Hnk. simpl.
    apply (IH fuel _ _ ("/" :: a ++ "/" :: v ++ rest)); try done.
    + by apply (cstr_poke_nul _ _ _ _ _ HB').
    + by apply poke_restore, (cstr_lookup _ _ _ _ _ HB').
    + rewrite length_app in Hfuel. simpl in Hfuel. lia.
Qed.
End Stops.

Lemma cstr_head_lookup (buf : list ascii) (p : nat) (c : ascii) (s : list ascii) :
  cstr buf p = c :: s -> buf !! p = Some c.
Proof.
  intros H. pose proof (cstr_lookup buf p [] s c H) as Hl. simpl in Hl.
  by rewrite Nat.add_0_r in Hl.
Qed.

Lemma label_fail_result (msg : list ascii) (buf : list ascii) (qp fr : option nat) :
  msg <> [] ->
  exists ctx' buf',
    label_fail (set_err ctx_reset msg) buf qp fr = (false, ctx', buf')
    /\ err ctx' = msg /\ numAIs ctx' = 0.
Proof.
  intros Hm. unfold label_fail, label_out. cbn [err set_err].
  destruct msg as [|c msg]; [done|]. by do 2 eexists.
Qed.

(** Shared by C7 and C3: when the search returns NULL the parse fails
    with "No GS1 DL keys found in path info". *)
Lemma no_keys_found (fuel : nat) (B : list ascii) (pi : nat) (qp fr : option nat) :
  find_dp fuel B pi pi = Some (B, None) ->
  exists ctx' buf',
    locate_and_extract fuel ctx_reset B pi qp fr = Some (false, ctx', buf')
    /\ err ctx' = str "No GS1 DL keys found in path info"
    /\ numAIs ctx' = 0.
Proof.
  intros E. unfold locate_and_extract. rewrite E.
  destruct (label_fail_result (str "No GS1 DL keys found in path info") B qp fr)
    as (ctx' & buf' & -> & He & Hn); [done|].
  by exists ctx', buf'.
Qed.

Lemma pairs_fit (B : list ascii) (pi : nat) (t : list ascii)
    (ps : list (list ascii * list ascii)) :
  cstr B pi = t ++ render_pairs ps -> length ps <= length B.
Proof.
  intros HB. etrans; [apply length_render_pairs|].
  etrans; [|apply (strlen_le B pi)].
  unfold strlen. rewrite HB, length_app. lia.
Qed.

Lemma is_pkey_In (a : list ascii) : is_pkey a = true -> In a dl_pkeys.
Proof.
  unfold is_pkey. rewrite existsb_exists. intros (k & Hk & E).
  apply bytes_eqb_eq in E. by subst.
Qed.

Lemma pkey_valid_form (a : list ascii) :
  is_pkey a = true -> valid_AI_form a = true /\ length a <= 4.
Proof.
  intros H. apply is_pkey_In in H. simpl in H.
  repeat (destruct H as [<-|H]; [split; [reflexivity|simpl; lia]|]). done.
Qed.

(** Shared by C3: a path that ends in a primary key and a '/' fails in
    the path loop with the empty-value message. *)
Lemma parse_pkey_without_value (ctx : gs1DLparser)
    (scheme domain stem seg tail : list ascii) :
  well_formed scheme domain (stem ++ "/" :: seg ++ ["/"]) tail ->
  ("/" ∉ seg) -> is_pkey seg = true ->
  exists ctx' buf',
    gs1_parseDLuri ctx (dl_uri scheme domain (stem ++ "/" :: seg ++ ["/"]) tail)
    = Some (false, ctx', buf')
    /\ err ctx' = str "AI (" ++ seg ++ str ") value path element is empty".
Proof.
  intros Hwf Hseg Hkey.
  destruct (parse_well_formed ctx _ _ _ _ Hwf) as (B & qp & fr & HB & Hlen & ->).
  destruct Hwf as (_ & _ & _ & [path' Hpath] & _).
  destruct (pkey_valid_form seg Hkey) as [Hvalid Hlen4].
  set (pi := length scheme + length domain) in *.
  unfold locate_and_extract.
  assert (HB' : cstr B pi = stem ++ "/" :: seg ++ "/" :: [] ++ []) by done.
  rewrite (find_dp_step B pi _ B pi stem seg [] [] HB'); try done.
  2:{ apply poke_id. rewrite Hpath in HB. by apply cstr_head_lookup in HB. }
  2:{ apply not_elem_of_nil. }
  rewrite Hvalid, Hkey. cbn [negb].
  assert (Hd : cstr B (pi + length stem) = "/" :: seg ++ "/" :: [] ++ [])
    by (by apply cstr_suffix).
  rewrite (path_loop_step B _ ctx_reset aival0 _ seg [] [] Hd); try done.
  2:{ apply not_elem_of_nil. }
  2:{ by left. }
  assert (Hmsg : snprintf_err (str "AI (" ++ seg ++ str ") value path element is empty")
                 = str "AI (" ++ seg ++ str ") value path element is empty").
  { unfold snprintf_err. apply take_ge. rewrite !length_app. simpl. lia. }
  rewrite Hmsg.
  destruct (label_fail_result
              (str "AI (" ++ seg ++ str ") value path element is empty") B qp fr)
    as (ctx' & buf' & -> & He & Hn); [done|].
  by exists ctx', buf'.
Qed.

(** C7. Let the path be [stem/seg/last] followed by any number of pairs
    whose AI has the form of an AI (two to four digits) and is no primary
    key, and let [seg] not have that form.  Then whatever [stem] holds,
    primary keys included, the parse fails with "No GS1 DL keys found in
    path info": the search stops at [seg] and looks no further left. *)
Theorem search_stops_at_invalid_candidate (ctx : gs1DLparser)
    (scheme domain stem seg last : list ascii)
    (ps : list (list ascii * list ascii)) (tail : list ascii) :
  well_formed scheme domain
    (stem ++ "/" :: seg ++ "/" :: last ++ render_pairs ps) tail ->
  ("/" ∉ seg) -> ("/" ∉ last) -> slash_free ps ->
  Forall (fun av => valid_AI_form (fst av) = true /\ is_pkey (fst av) = false) ps ->
  valid_AI_form seg = false ->
  exists ctx' buf',
    gs1_parseDLuri ctx
      (dl_uri scheme domain (stem ++ "/" :: seg ++ "/" :: last ++ render_pairs ps) tail)
    = Some (false, ctx', buf')
    /\ err ctx' = str "No GS1 DL keys found in path info"
    /\ numAIs ctx' = 0.
Proof.
  intros Hwf Hseg Hlast Hsf Hok Hinv.
  destruct (parse_well_formed ctx _ _ _ _ Hwf) as (B & qp & fr & HB & Hlen & ->).
  destruct Hwf as (_ & _ & _ & [path' Hpath] & _).
  apply no_keys_found.
  apply (find_dp_stops B _ stem seg last Hseg Hlast Hinv ps _ B _ []);
    try done.
  - by rewrite app_nil_r.
  - apply poke_id. rewrite Hpath in HB. by apply cstr_head_lookup in HB.
  - assert (length ps <= length B); [|lia].
    apply (pairs_fit B (length scheme + length domain)
             (stem ++ "/" :: seg ++ "/" :: last)).
    rewrite HB. by reassoc.
Qed.

Lemma render_pairs_snoc (ps : list (list ascii * list ascii)) (a v : list ascii) :
  render_pairs (ps ++ [(a, v)]) = render_pairs ps ++ "/" :: a ++ "/" :: v.
Proof.
  rewrite render_pairs_app, render_pairs_cons. simpl. by rewrite app_nil_r.
Qed.

(** A path that ends in '/' is no stem followed by pairs with non-empty
    values. *)
Lemma trailing_slash_no_pairs (path t : list ascii)
    (ps : list (list ascii * list ascii)) :
  path ++ ["/"] = t ++ render_pairs ps -> ps <> [] -> slash_free ps ->
  ~ Forall (fun av => snd av <> []) ps.
Proof.
  intros Hp Hne Hsf Hall.
  destruct (exists_last Hne) as (ps0 & [a v] & ->).
  apply Forall_app in Hsf as [_ Hav]. apply Forall_singleton in Hav as [_ Hv].
  apply Forall_app in Hall as [_ Hnv]. rewrite Forall_singleton in Hnv.
  simpl in Hv, Hnv. rewrite render_pairs_snoc in Hp.
  destruct (exists_last Hnv) as (v0 & c & ->).
  assert (E : path ++ ["/"] = (t ++ render_pairs ps0 ++ "/" :: a ++ "/" :: v0) ++ [c]).
  { rewrite Hp. by reassoc. }
  apply app_inj_tail in E as [_ <-].
  apply Hv. apply elem_of_app. right. apply list_elem_of_singleton. done.
Qed.

(** C3, as the code has it.  A URI whose path ends in '/' is rejected.
    When the segment before that '/' has not the form of an AI (in
    https://a/stem/00/006141411234567890/ it is the 18-digit value) the
    backward search gives up at once and the message is "No GS1 DL keys
    found in path info"; when that segment is itself a primary key the
    message is the empty-value message of the path loop. *)
Theorem trailing_slash_fails (ctx : gs1DLparser)
    (scheme domain path tail : list ascii) :
  well_formed scheme domain (path ++ ["/"]) tail ->
  exists ctx' buf',
    gs1_parseDLuri ctx (dl_uri scheme domain (path ++ ["/"]) tail)
    = Some (false, ctx', buf')
    /\ (forall stem seg,
          path = stem ++ "/" :: seg -> ("/" ∉ seg) -> valid_AI_form seg = false ->
          err ctx' = str "No GS1 DL keys found in path info")
    /\ (forall stem seg,
          path = stem ++ "/" :: seg -> ("/" ∉ seg) -> is_pkey seg = true ->
          err ctx' = str "AI (" ++ seg ++ str ") value path element is empty").
Proof.
  intros Hwf.
  destruct (parse_well_formed ctx _ _ _ _ Hwf) as (B & qp & fr & HB & Hlen & E).
  destruct (locate_and_extract_outcome
              (S (length (dl_uri scheme domain (path ++ ["/"]) tail)))
              ctx_reset B (length scheme + length domain) qp fr)
    as (ret & ctx' & buf' & E' & _ & _ & Hok).
  { destruct Hwf as (_ & _ & _ & [path' Hpath] & _).
    rewrite Hpath in HB. by apply cstr_head_lookup in HB. }
  { done. }
  { lia. }
  rewrite E' in E. destruct ret.
  { exfalso. destruct (Hok eq_refl) as (t & ps & Hs & Hne & Hsf & Hall).
    rewrite HB in Hs. by apply (trailing_slash_no_pairs path t ps). }
  exists ctx', buf'. split; [done|]. split.
  - intros stem seg -> Hseg Hinv.
    destruct (no_keys_found
                (S (length (dl_uri scheme domain ((stem ++ "/" :: seg) ++ ["/"]) tail)))
                B (length scheme + length domain) qp fr)
      as (c2 & b2 & E2 & He & _).
    + apply (find_dp_stops B _ stem seg [] Hseg (not_elem_of_nil _) Hinv [] _ B _ []).
      * rewrite HB. by reassoc.
      * rewrite HB. by reassoc.
      * destruct Hwf as (_ & _ & _ & [path' Hpath] & _).
        apply poke_id. rewrite Hpath in HB. by apply cstr_head_lookup in HB.
      * constructor.
      * constructor.
      * simpl. lia.
    + rewrite E2 in E'. by injection E' as <- <-.
  - intros stem seg -> Hseg Hkey.
    rewrite <- app_assoc in Hwf, E. simpl in Hwf, E.
    destruct (parse_pkey_without_value ctx scheme domain stem seg tail Hwf Hseg Hkey)
      as (c2 & b2 & E2 & He).
    rewrite E in E2. by injection E2 as <- _.
Qed.

Lemma not_in_by_search (c : ascii) (s : list ascii) : index_of c s = None -> c ∉ s.
Proof. apply index_of_None. Qed.

Ltac well_formed_by_computation :=
  unfold well_formed;
  repeat match goal with
         | |- _ /\ _ => split
         | |- _ ∉ _ => apply not_in_by_search; reflexivity
         | |- legal _ => reflexivity
         | |- _ = _ \/ _ = _ => first [ left; reflexivity | right; reflexivity ]
         | |- _ = [] \/ _ =>
             first [ left; reflexivity
                   | right; eexists;
                     first [ left; reflexivity | right; reflexivity ] ]
         | |- exists _, _ = _ => eexists; reflexivity
         | |- _ <> _ => discriminate
         end.

Lemma trailing_slash_fails_witness :
  exists ctx' buf',
    gs1_parseDLuri ctx_reset uri_trailing_slash = Some (false, ctx', buf')
    /\ err ctx' = str "No GS1 DL keys found in path info".
Proof.
  assert (Hwf : well_formed (str "https://") (str "a")
                  (str "/stem/00/006141411234567890" ++ ["/"]) []).
  { well_formed_by_computation. }
  destruct (trailing_slash_fails ctx_reset _ _ _ _ Hwf) as (ctx' & buf' & E & H1 & _).
  exists ctx', buf'. split; [exact E|].
  apply (H1 (str "/stem/00") (str "006141411234567890")).
  - reflexivity.
  - apply not_in_by_search. reflexivity.
  - reflexivity.
Defined.

(** C3 as it was stated fails at its own example: the message is not the
    empty-value message of the extraction stage. *)
Lemma trailing_slash_counterexample :
  exists ctx' buf',
    gs1_parseDLuri ctx_reset uri_trailing_slash = Some (false, ctx', buf')
    /\ err ctx' = str "No GS1 DL keys found in path info"
    /\ ~ (exists code,
            err ctx' = str "AI (" ++ code ++ str ") value path element is empty").
Proof.
  do 2 eexists. split; [vm_compute; reflexivity|].
  split; [reflexivity|]. intros [code H]. discriminate.
Qed.

Lemma search_stops_at_invalid_candidate_witness :
  exists ctx' buf',
    gs1_parseDLuri ctx_reset (str "https://a/00/123/x9/ABC/10/XYZ?q=1")
    = Some (false, ctx', buf')
    /\ err ctx' = str "No GS1 DL keys found in path info"
    /\ numAIs ctx' = 0.
Proof.
  apply (search_stops_at_invalid_candidate ctx_reset (str "https://") (str "a")
           (str "/00/123") (str "x9") (str "ABC") [(str "10", str "XYZ")]
           (str "?q=1")).
  - well_formed_by_computation.
  - apply not_in_by_search. reflexivity.
  - apply not_in_by_search. reflexivity.
  - repeat constructor; apply not_in_by_search; reflexivity.
  - repeat constructor.
  - reflexivity.
Defined.

(** ** C8 and C10: flag, count and message after a parse *)

Lemma parse_error_not_empty (e : list ascii) : parse_error e -> e <> [].
Proof.
  unfold parse_error, snprintf_err.
  intros [->|[->|[->|[->|[->|[->|[[a ->]|[[a ->]|[a ->]]]]]]]]]; done.
Qed.

Lemma parse_error_not_too_long (e : list ascii) :
  parse_error e -> forall rest, e <> str "Decoded AI (" ++ rest.
Proof.
  unfold parse_error, snprintf_err.
  intros [->|[->|[->|[->|[->|[->|[[a ->]|[[a ->]|[a ->]]]]]]]]] rest; done.
Qed.

(** C8. Every call returns.  When it returns false the element count is
    zero and the message is not empty; when it returns true the message
    is empty. *)
Theorem failure_resets_count_and_sets_message (ctx : gs1DLparser)
    (dlData : list ascii) :
  exists ret ctx' buf',
    gs1_parseDLuri ctx dlData = Some (ret, ctx', buf')
    /\ if ret then err ctx' = []
       else numAIs ctx' = 0 /\ err ctx' <> [].
Proof.
  destruct (gs1_parseDLuri_outcome ctx dlData)
    as (ret & ctx' & buf' & E & [Htrue Hfalse] & _).
  exists ret, ctx', buf'. split; [done|]. destruct ret.
  - by apply Htrue.
  - destruct (Hfalse eq_refl) as [Hn He]. split; [done|].
    by apply parse_error_not_empty.
Qed.


(** ** C1 and C2: what the code does to the two buffers *)

(** C1 fails on the code: for https://a/10/ABC the backward search chops
    the path at its first '/', finds the string empty and leaves the loop
    through its condition, so the NUL stays in the caller's buffer. *)
Theorem input_clobbered (ctx : gs1DLparser) :
  exists ctx',
    gs1_parseDLuri ctx uri_no_pkey
      = Some (false, ctx', str "https://a" ++ NUL :: str "10/ABC")
    /\ str "https://a" ++ NUL :: str "10/ABC" <> uri_no_pkey.
Proof.
  eexists. split; [vm_compute; reflexivity|]. vm_compute. discriminate.
Qed.

(** What does hold of the caller's buffer: it comes back unchanged from
    every successful call, and from every failing call but those in
    which the backward search leaves a NUL over the first '/' of the
    path. *)
Lemma input_unchanged_or_chopped (ctx : gs1DLparser) (dlData : list ascii) :
  exists ret ctx' buf',
    gs1_parseDLuri ctx dlData = Some (ret, ctx', buf')
    /\ (ret = true -> buf' = dlData)
    /\ (buf' = dlData
        \/ exists pi, dlData !! pi = Some "/" /\ buf' = poke dlData pi NUL).
Proof.
  destruct (gs1_parseDLuri_outcome ctx dlData)
    as (ret & ctx' & buf' & E & _ & Hb).
  exists ret, ctx', buf'. split; [done|]. split.
  - intros ->. by destruct Hb as [|[? _]].
  - destruct Hb as [|[_ ?]]; [by left|by right].
Qed.

(** C2 fails on the code: [writeAIbuf] admits an append that fills the
    array exactly, and [strncat] then stores the terminator one byte past
    its end.  64 elements of 4 + 90 bytes do that, and the parse
    succeeds. *)
Lemma uri_full_summary (ctx : gs1DLparser) :
  match gs1_parseDLuri ctx uri_full with
  | Some (r, c, _) => Some (r, numAIs c, strlen (aiBuf c) 0, length (aiBuf c))
  | None => None
  end = Some (true, GS1_DL_MAX_AIS, GS1_DL_MAX_AI_BUF, S GS1_DL_MAX_AI_BUF).
Proof. vm_compute. reflexivity. Qed.

(** C2, at the failing input: the string in [aiBuf] has
    [GS1_DL_MAX_AI_BUF] bytes and its terminator is the byte after the
    array. *)
Theorem aiBuf_overrun (ctx : gs1DLparser) :
  exists ctx' buf',
    gs1_parseDLuri ctx uri_full = Some (true, ctx', buf')
    /\ numAIs ctx' = GS1_DL_MAX_AIS
    /\ strlen (aiBuf ctx') 0 = GS1_DL_MAX_AI_BUF
    /\ length (aiBuf ctx') = GS1_DL_MAX_AI_BUF + 1.
Proof.
  pose proof (uri_full_summary ctx) as H.
  destruct (gs1_parseDLuri ctx uri_full) as [[[r c] b]|]; [|discriminate].
  injection H as -> H1 H2 H3. exists c, b. rewrite Nat.add_1_r. repeat split; assumption.
Qed.

(** What does hold of [aiBuf]: the string itself never grows past the
    capacity; it is the terminator that may fall outside. *)
Lemma writeAIbuf_strlen (ctx ctx' : gs1DLparser) (v : list ascii) (l : nat) :
  NUL ∉ take l v ->
  writeAIbuf ctx v l = Cont ctx' ->
  strlen (aiBuf ctx') 0 = strlen (aiBuf ctx) 0 + length (take l v)
  /\ strlen (aiBuf ctx') 0 <= GS1_DL_MAX_AI_BUF.
Proof.
  intros Hv. unfold writeAIbuf.
  destruct (Nat.ltb_spec GS1_DL_MAX_AI_BUF (strlen (aiBuf ctx) 0 + l)); [done|].
  intros [= <-]. cbn [aiBuf set_aiBuf]. unfold strlen at 1 3.
  rewrite strncat_cstr, length_app by done. fold (strlen (aiBuf ctx) 0).
  split; [done|]. rewrite length_take. lia.
Qed.
(** ** Storing an element *)

Lemma packed_bytes_snoc (els : list (list ascii * list ascii * bool))
    (a d : list ascii) (f : bool) :
  packed_bytes (els ++ [(a, d, f)]) = packed_bytes els ++ a ++ until_nul d.
Proof.
  unfold packed_bytes. rewrite map_app, concat_app. simpl.
  by rewrite app_nil_r.
Qed.

Lemma layout_snoc (els : list (list ascii * list ascii * bool))
    (a d : list ascii) (f : bool) :
  forall off,
    layout off (els ++ [(a, d, f)])
    = layout off els
      ++ [ {| ai := off + length (packed_bytes els); ailen := length a;
              value := off + length (packed_bytes els) + length a;
              vallen := length d; fnc1 := f |} ].
Proof.
  induction els as [|[[a' d'] f'] els IH]; intros off; simpl.
  - by rewrite Nat.add_0_r.
  - rewrite IH. do 3 f_equal. unfold packed_bytes. simpl.
    rewrite !length_app. f_equal; lia.
Qed.

Lemma length_layout (els : list (list ascii * list ascii * bool)) :
  forall off, length (layout off els) = length els.
Proof. induction els as [|e els IH]; intros off; simpl; [done|]. by rewrite IH. Qed.

Lemma packed_bytes_bound (els : list (list ascii * list ascii * bool)) :
  Forall (fun e => length (fst (fst e)) <= 4
                   /\ length (snd (fst e)) <= GS1_DL_MAX_AI_LEN) els ->
  length (packed_bytes els) <= length els * (4 + GS1_DL_MAX_AI_LEN).
Proof.
  induction 1 as [|[[a d] f] els [Ha Hd] _ IH]; simpl; [done|].
  unfold packed_bytes in *. simpl. rewrite !length_app. simpl in *.
  pose proof (until_nul_length d). unfold GS1_DL_MAX_AI_LEN in *. lia.
Qed.

Lemma isFNC1required_prefix (a x : list ascii) :
  2 <= length a -> isFNC1required (a ++ x) = isFNC1required a.
Proof.
  intros Ha. unfold isFNC1required. f_equal.
  induction fixedAIprefixes as [|k ks IH]; simpl; [done|]. rewrite IH. f_equal.
  unfold strncmp_eq. by rewrite take_app_le.
Qed.

Lemma until_nul_before_nul (d r : list ascii) :
  until_nul (d ++ NUL :: r) = until_nul d.
Proof.
  induction d as [|c d IH]; simpl; [done|].
  destruct (Ascii.eqb c NUL); [done|]. by rewrite IH.
Qed.

Lemma holds_value_cstr (aival d : list ascii) :
  holds_value aival d -> cstr aival 0 = until_nul d.
Proof.
  intros (Ht & Hn). unfold cstr. rewrite drop_0.
  rewrite <- (take_drop (length d) aival), Ht.
  rewrite (drop_S _ _ _ Hn). apply until_nul_before_nul.
Qed.

Lemma strncat_length (dst src : list ascii) (n : nat) :
  length (strncat dst src n)
  = Nat.max (length dst) (strlen dst 0 + length (take n src) + 1).
Proof.
  unfold strncat. cbv zeta. pose proof (strlen_le dst 0) as Hk.
  repeat first [ rewrite length_app | rewrite length_take | rewrite length_drop
               | rewrite length_cons ].
  simpl. lia.
Qed.

Lemma short_gtin_spec (buf : list ascii) (ai : nat) (a rest : list ascii) (n : nat) :
  cstr buf ai = a ++ rest ->
  short_gtin buf ai (length a) n
  <-> bytes_eqb a (str "01") && ((n =? 13) || (n =? 12) || (n =? 8)) = true.
Proof.
  intros Hs. unfold short_gtin. rewrite Hs.
  rewrite andb_true_iff, !orb_true_iff, !Nat.eqb_eq, bytes_eqb_eq.
  split.
  - intros (Hl & Ht & Hn). rewrite take_app_le in Ht by lia.
    rewrite <- Hl, firstn_all in Ht. split; [done|tauto].
  - intros [-> Hn]. split; [done|]. split; [done|tauto].
Qed.

(** The value handed to the append after the GTIN padding. *)
Lemma gtin14_holds (buf : list ascii) (ai : nat) (a rest aival d : list ascii) :
  cstr buf ai = a ++ rest -> 14 < length aival -> holds_value aival d ->
  let d' := if bytes_eqb a (str "01")
               && ((length d =? 13) || (length d =? 12) || (length d =? 8))
            then zero_padded d else d in
  exists aival',
    gtin14 buf ai (length a) aival (length d) = (aival', length d')
    /\ holds_value aival' d' /\ length aival' = length aival.
Proof.
  intros Hs Hlen Hv d'. pose proof Hv as (Ht & Hn).
  destruct (bytes_eqb a (str "01")
            && ((length d =? 13) || (length d =? 12) || (length d =? 8))) eqn:E.
  - pose proof (proj2 (short_gtin_spec buf ai a rest (length d) Hs) E) as Hsg.
    rewrite (gtin14_padded _ _ _ _ _ Hlen Hsg). rewrite Ht.
    assert (Hl : length d <= 14).
    { destruct Hsg as (_ & _ & [->|[->| ->]]); lia. }
    subst d'. rewrite (zero_padded_length d Hl).
    eexists. split; [done|]. split.
    + split.
      * rewrite zero_padded_length by done.
        rewrite <- (zero_padded_length d Hl) at 1. by rewrite take_app_length.
      * rewrite zero_padded_length by done.
        rewrite <- (zero_padded_length d Hl) at 1.
        by rewrite list_lookup_middle.
    + rewrite length_app, zero_padded_length by done. simpl.
      rewrite length_drop. lia.
  - rewrite gtin14_other.
    + exists aival. done.
    + intros Hsg. apply (short_gtin_spec buf ai a rest (length d) Hs) in Hsg.
      congruence.
Qed.

Lemma packed_strlen (ctx : gs1DLparser) (els : list (list ascii * list ascii * bool)) :
  packed ctx els -> strlen (aiBuf ctx) 0 = length (packed_bytes els).
Proof. intros (H & _). unfold strlen. by rewrite H. Qed.

(** [store_AI] on a context that holds [els]: it fails for want of room
    in [aiBuf] or in [aiData], and appends the element otherwise. *)
Lemma store_AI_packed (ctx : gs1DLparser) (buf : list ascii) (ai : nat)
    (a rest aival d : list ascii) (els : list (list ascii * list ascii * bool)) :
  packed ctx els -> cstr buf ai = a ++ rest -> 2 <= length a <= 4 ->
  holds_value aival d -> length d <= GS1_DL_MAX_AI_LEN -> 14 < length aival ->
  let d' := if bytes_eqb a (str "01")
               && ((length d =? 13) || (length d =? 12) || (length d =? 8))
            then zero_padded d else d in
  match store_AI ctx buf ai (length a) aival (length d) with
  | Cont (ctx', aival') =>
      length (packed_bytes els) + length a + length d' <= GS1_DL_MAX_AI_BUF
      /\ length els < GS1_DL_MAX_AIS
      /\ packed ctx' (els ++ [(a, d', isFNC1required a)])
      /\ err ctx' = err ctx /\ length aival' = length aival
  | GotoFail c =>
      (GS1_DL_MAX_AI_BUF < length (packed_bytes els) + length a + length d'
       /\ err c = err ctx)
      \/ (length (packed_bytes els) + length a + length d' <= GS1_DL_MAX_AI_BUF
          /\ GS1_DL_MAX_AIS <= length els /\ err c = str "Too many AIs")
  end.
Proof.
  intros Hp Hs Ha Hv Hd Hlen d'.
  destruct (gtin14_holds buf ai a rest aival d Hs Hlen Hv)
    as (aival' & Eg & Hv' & Hlen').
  fold d' in Eg, Hv'.
  assert (Hd' : length d' <= GS1_DL_MAX_AI_LEN).
  { subst d'. destruct (_ && _) eqn:E; [|done].
    apply andb_true_iff in E as [_ E].
    rewrite !orb_true_iff, !Nat.eqb_eq in E.
    rewrite zero_padded_length by lia. unfold GS1_DL_MAX_AI_LEN. lia. }
  unfold store_AI. rewrite Eg.
  pose proof (packed_strlen ctx els Hp) as Hsl.
  destruct Hp as (Hb & Hlb & Hn & Hdata & Hall).
  assert (Hna : NUL ∉ a).
  { pose proof (cstr_no_nul buf ai) as H. rewrite Hs in H.
    by apply not_elem_of_app in H as [H _]. }
  assert (Hta : take (length a) (cstr buf ai) = a) by (by rewrite Hs, take_app_length).
  assert (Htv : take (length d') (cstr aival' 0) = until_nul d').
  { rewrite (holds_value_cstr _ _ Hv'). apply take_ge, until_nul_length. }
  assert (Hnv : NUL ∉ until_nul d') by apply until_nul_no_nul.
  pose proof (until_nul_length d') as Hshort.
  unfold writeAIbuf at 1. rewrite Hsl.
  destruct (Nat.ltb_spec GS1_DL_MAX_AI_BUF (length (packed_bytes els) + length a))
    as [Hfull|Hroom].
  { left. split; [lia|done]. }
  set (ctx1 := set_aiBuf ctx (strncat (aiBuf ctx) (cstr buf ai) (length a))).
  assert (Hb1 : cstr (aiBuf ctx1) 0 = packed_bytes els ++ a).
  { unfold ctx1. cbn [aiBuf set_aiBuf]. rewrite strncat_cstr, Hta, Hb; [done|].
    by rewrite Hta. }
  assert (Hl1 : length (aiBuf ctx1) = length (packed_bytes els ++ a) + 1).
  { unfold ctx1. cbn [aiBuf set_aiBuf].
    rewrite strncat_length, Hsl, Hta, Hlb, length_app. lia. }
  unfold writeAIbuf. unfold strlen at 1. rewrite Hb1, length_app.
  destruct (Nat.ltb_spec GS1_DL_MAX_AI_BUF
              (length (packed_bytes els) + length a + length d')) as [Hfull|Hroom'].
  { left. split; [lia|done]. }
  set (ctx2 := set_aiBuf ctx1 (strncat (aiBuf ctx1) (cstr aival' 0) (length d'))).
  assert (Hb2 : cstr (aiBuf ctx2) 0 = packed_bytes els ++ a ++ until_nul d').
  { unfold ctx2. cbn [aiBuf set_aiBuf].
    rewrite strncat_cstr, Htv, Hb1, <- app_assoc; [done|]. by rewrite Htv. }
  assert (Hl2 : length (aiBuf ctx2)
                = length (packed_bytes els ++ a ++ until_nul d') + 1).
  { unfold ctx2. cbn [aiBuf set_aiBuf].
    rewrite strncat_length, Htv, Hl1. unfold strlen. rewrite Hb1.
    rewrite !length_app. lia. }
  change (numAIs ctx2) with (numAIs ctx). change (aiData ctx2) with (aiData ctx).
  change (err ctx2) with (err ctx).
  destruct (Nat.ltb_spec (numAIs ctx) GS1_DL_MAX_AIS) as [Hcnt|Hcnt].
  2:{ right. split; [lia|]. split; [lia|done]. }
  split; [lia|]. split; [lia|]. split; [|done].
  split; [|split; [|split; [|split]]]; cbn [aiBuf aiData numAIs].
  - by rewrite packed_bytes_snoc.
  - by rewrite packed_bytes_snoc.
  - rewrite length_app. simpl. lia.
  - rewrite layout_snoc. rewrite Hdata, Hn.
    rewrite <- (length_layout els 0) at 1. rewrite firstn_all. simpl.
    change (strncat (strncat _ _ _) _ _) with (aiBuf ctx2).
    change (strncat (aiBuf ctx) _ _) with (aiBuf ctx1).
    assert (Ho : cstr (aiBuf ctx2) (length (packed_bytes els)) = a ++ until_nul d')
      by (by apply (cstr_suffix (aiBuf ctx2) 0 (packed_bytes els))).
    rewrite Ho, isFNC1required_prefix by lia.
    unfold strlen. by rewrite Hb1, length_app.
  - apply Forall_app. split; [done|]. constructor; [|done]. simpl. lia.
Qed.
(** ** The path loop on AI/value pairs *)

Lemma peek_cstr_prefix (buf : list ascii) (p k : nat) (v rest : list ascii) :
  cstr buf p = v ++ rest -> k < length v -> peek buf (p + k) = peek v k.
Proof.
  intros Hs Hk. destruct (cstr_split buf p) as (rest0 & Hd & _).
  rewrite <- peek_drop, Hd, Hs, <- app_assoc. unfold peek.
  by rewrite app_nth1.
Qed.

Lemma peek_cstr_end (buf : list ascii) (p : nat) (v rest : list ascii) (c : ascii) :
  cstr buf p = v ++ rest -> (rest = [] \/ exists rest', rest = c :: rest') ->
  peek buf (p + length v) = NUL \/ peek buf (p + length v) = c.
Proof.
  intros Hs [->|[rest' ->]].
  - left. apply cstr_nil_peek. by apply (cstr_suffix buf p v []).
  - right. by apply (cstr_peek buf p v rest' c).
Qed.

Lemma spec_unescape_cons (q : bool) (c : ascii) (v : list ascii) :
  exists b s, spec_unescape q (c :: v) = b :: s.
Proof.
  cbn [spec_unescape]. destruct v as [|x [|y v]]; try by eexists _, _.
  destruct (_ && _ && _); by eexists _, _.
Qed.

(** [URIunescape] on a value that lies in the buffer and is followed by
    a byte that is no hex digit. *)
Lemma URIunescape_value (out buf : list ascii) (inp : nat) (val : list ascii)
    (q : bool) :
  (forall k, k < length val -> peek buf (inp + k) = peek val k) ->
  isxdigit (peek buf (inp + length val)) = false ->
  GS1_DL_MAX_AI_LEN < length out ->
  let d := take GS1_DL_MAX_AI_LEN (spec_unescape q val) in
  exists out',
    URIunescape out GS1_DL_MAX_AI_LEN buf inp (length val) q = Some (out', length d)
    /\ take (length d) out' = d /\ out' !! length d = Some NUL
    /\ length out' = length out.
Proof.
  intros Hpeek Hdelim Hout d.
  destruct (URIunescape_loop_spec buf inp val q GS1_DL_MAX_AI_LEN Hpeek Hdelim
              (length val) out 0 0) as (out' & E & Ht & Hl); [lia..|].
  rewrite drop_0, Nat.sub_0_r in E, Ht. simpl in E, Ht. fold d in E, Ht.
  unfold URIunescape. rewrite E.
  assert (Hd : length d <= GS1_DL_MAX_AI_LEN) by (unfold d; rewrite length_take; lia).
  exists (poke out' (length d) NUL). split; [done|]. unfold poke.
  split; [by rewrite take_insert_ge|].
  split; [apply list_lookup_insert_eq; lia|].
  by rewrite length_insert.
Qed.

Lemma spec_value_no_nul (q : bool) (a v : list ascii) :
  NUL ∉ spec_unescape q v -> NUL ∉ spec_value q a v.
Proof.
  intros H. unfold spec_value.
  assert (Hd : NUL ∉ take GS1_DL_MAX_AI_LEN (spec_unescape q v))
    by (by apply take_no_nul).
  destruct (_ && _); [by apply zero_padded_no_nul|done].
Qed.

Lemma final_err_cons (c : ascii) (e : list ascii) : final_err (c :: e) = c :: e.
Proof. done. Qed.

Lemma snprintf_err_AI (a tl : list ascii) :
  final_err (snprintf_err (str "AI (" ++ a ++ tl))
  = snprintf_err (str "AI (" ++ a ++ tl).
Proof. done. Qed.

(** One value decoded and stored: the step the two loops share. *)
Lemma decode_and_store (B : list ascii) (ctx : gs1DLparser) (aival : list ascii)
    (ai inp : nat) (a rest : list ascii) (c : ascii) (v rest' : list ascii)
    (q : bool) (d : ascii)
    (els : list (list ascii * list ascii * bool)) :
  cstr B ai = a ++ rest -> 2 <= length a <= 4 ->
  cstr B inp = (c :: v) ++ rest' -> (rest' = [] \/ exists r, rest' = d :: r) ->
  isxdigit d = false ->
  packed ctx els -> err ctx = [] -> GS1_DL_MAX_AI_LEN < length aival ->
  exists aival1 n,
    URIunescape aival GS1_DL_MAX_AI_LEN B inp (length (c :: v)) q = Some (aival1, n)
    /\ (n =? 0) = false
    /\ match spec_extract [Store q a (c :: v)] els with
       | inl els' =>
           exists ctx' aival',
             store_AI ctx B ai (length a) aival1 n = Cont (ctx', aival')
             /\ packed ctx' els' /\ err ctx' = []
             /\ GS1_DL_MAX_AI_LEN < length aival'
       | inr msg =>
           exists c', store_AI ctx B ai (length a) aival1 n = GotoFail c'
                      /\ final_err (err c') = msg
       end.
Proof.
  intros Hai Ha Hv Hrest Hd Hp Herr Hlen.
  set (val := c :: v) in *.
  set (d0 := take GS1_DL_MAX_AI_LEN (spec_unescape q val)).
  destruct (URIunescape_value aival B inp val q) as (aival1 & E & Ht & Hn & Hl1).
  { intros k Hk. by apply (peek_cstr_prefix B inp k val rest'). }
  { destruct (peek_cstr_end B inp val rest' d Hv Hrest) as [-> | ->]; done. }
  { done. }
  fold d0 in E, Ht, Hn.
  exists aival1, (length d0). split; [done|].
  assert (Hd0 : 1 <= length d0 <= GS1_DL_MAX_AI_LEN).
  { unfold d0, val. rewrite length_take.
    destruct (spec_unescape_cons q c v) as (b & s & ->). cbn [length].
    unfold GS1_DL_MAX_AI_LEN. lia. }
  split; [apply Nat.eqb_neq; lia|].
  assert (Hhv : holds_value aival1 d0).
  { by split. }
  pose proof (store_AI_packed ctx B ai a rest aival1 d0 els Hp Hai Ha Hhv
                ltac:(lia) ltac:(unfold GS1_DL_MAX_AI_LEN in *; lia)) as Hst.
  cbv zeta in Hst. cbn [spec_extract]. unfold spec_value. fold d0.
  set (d' := if bytes_eqb a (str "01")
                && ((length d0 =? 13) || (length d0 =? 12) || (length d0 =? 8))
             then zero_padded d0 else d0) in *.
  destruct (store_AI ctx B ai (length a) aival1 (length d0)) as [[ctx' aival']|c'].
  - destruct Hst as (Hroom & Hcnt & Hp' & He & Hl').
    destruct (Nat.ltb_spec GS1_DL_MAX_AI_BUF
                (length (packed_bytes els) + length a + length d')); [lia|].
    destruct (Nat.ltb_spec (length els) GS1_DL_MAX_AIS); [|lia].
    exists ctx', aival'. split; [done|]. split; [done|].
    split; [congruence|lia].
  - destruct Hst as [[Hfull He]|(Hroom & Hcnt & He)].
    + destruct (Nat.ltb_spec GS1_DL_MAX_AI_BUF
                  (length (packed_bytes els) + length a + length d')); [|lia].
      exists c'. split; [done|]. by rewrite He, Herr.
    + destruct (Nat.ltb_spec GS1_DL_MAX_AI_BUF
                  (length (packed_bytes els) + length a + length d')); [lia|].
      destruct (Nat.ltb_spec (length els) GS1_DL_MAX_AIS); [lia|].
      exists c'. split; [done|]. by rewrite He.
Qed.

Lemma valid_AI_form_length (a : list ascii) :
  valid_AI_form a = true -> 2 <= length a <= 4.
Proof.
  unfold valid_AI_form. rewrite !andb_true_iff, !Nat.leb_le. tauto.
Qed.

Section PathSpec.
Variable B : list ascii.

(** The path loop stores the pairs in order and stops at the first one
    it cannot take. *)
Lemma path_loop_spec (ps : list (list ascii * list ascii)) :
  forall fuel ctx aival p els,
    cstr B p = render_pairs ps -> slash_free ps ->
    Forall (fun av => valid_AI_form (fst av) = true) ps ->
    packed ctx els -> err ctx = [] -> GS1_DL_MAX_AI_LEN < length aival ->
    length ps <= fuel ->
    exists f,
      path_loop fuel B ctx aival p = Some f
      /\ match spec_extract (map path_candidate ps) els with
         | inl els' =>
             exists ctx' aival',
               f = Cont (ctx', aival') /\ packed ctx' els' /\ err ctx' = []
               /\ GS1_DL_MAX_AI_LEN < length aival'
         | inr msg => exists c, f = GotoFail c /\ final_err (err c) = msg
         end.
Proof.
  induction ps as [|[a v] ps IH];
    intros fuel ctx aival p els Hs Hsf Hva Hp Herr Hlen Hf.
  - exists (Cont (ctx, aival)). split.
    + apply cstr_nil_peek in Hs. destruct fuel; simpl; by rewrite Hs.
    + simpl. by exists ctx, aival.
  - destruct fuel as [|fuel]; [simpl in Hf; lia|].
    rewrite render_pairs_cons in Hs.
    apply Forall_cons in Hsf as [[Ha Hv] Hsf]. simpl in Ha, Hv.
    apply Forall_cons in Hva as [Hvalid Hva]. simpl in Hvalid.
    assert (Hrest : render_pairs ps = []
                    \/ exists rest', render_pairs ps = "/" :: rest').
    { destruct ps as [|[a' v'] ps']; [by left|right].
      rewrite render_pairs_cons. by eexists. }
    rewrite (path_loop_step B fuel ctx aival p a v (render_pairs ps)); try done.
    rewrite map_cons. unfold path_candidate at 1. cbn [fst snd].
    destruct v as [|c v].
    { eexists. split; [done|]. cbn [spec_extract]. eexists. split; [done|].
      cbn [err set_err]. apply snprintf_err_AI. }
    assert (Hai : cstr B (p + 1) = a ++ "/" :: (c :: v) ++ render_pairs ps)
      by (by apply (cstr_suffix B p ["/"])).
    assert (Hval : cstr B (p + 1 + length a + 1) = (c :: v) ++ render_pairs ps).
    { replace (p + 1 + length a + 1) with (p + 1 + length (a ++ ["/"]))
        by (rewrite length_app; simpl; lia).
      apply cstr_suffix. by rewrite <- app_assoc. }
    destruct (decode_and_store B ctx aival (p + 1) (p + 1 + length a + 1)
                a _ c v (render_pairs ps) false "/" els Hai
                (valid_AI_form_length a Hvalid) Hval Hrest eq_refl Hp Herr Hlen)
      as (aival1 & n & -> & -> & Hst).
    assert (Hsplit : forall els0,
               spec_extract (Store false a (c :: v) :: map path_candidate ps) els0
               = match spec_extract [Store false a (c :: v)] els0 with
                 | inl els' => spec_extract (map path_candidate ps) els'
                 | inr m => inr m
                 end).
    { intros els0. cbn [spec_extract].
      destruct (_ <? _); [done|]. by destruct (_ <? _). }
    rewrite Hsplit.
    destruct (spec_extract [Store false a (c :: v)] els) as [els'|msg].
    + destruct Hst as (ctx' & aival' & -> & Hp' & He' & Hl').
      apply (IH fuel ctx' aival' _ els'); try done.
      * replace (p + 1 + length a + 1 + length (c :: v))
          with (p + length ("/" :: a ++ "/" :: c :: v))
          by (simpl; rewrite length_app; simpl; lia).
        apply cstr_suffix. rewrite Hs. simpl. rewrite <- app_assoc. done.
      * simpl in Hf. lia.
    + destruct Hst as (c' & -> & He). eexists. split; [done|]. by exists c'.
Qed.
End PathSpec.
(** ** The query loop on parameters *)

Lemma peek_lookup_ne (buf : list ascii) (i : nat) (c : ascii) :
  peek buf i = c -> c <> NUL -> buf !! i = Some c.
Proof.
  unfold peek. intros H Hc. destruct (buf !! i) as [x|] eqn:E.
  - rewrite (nth_lookup_Some _ _ _ _ E) in H. by subst.
  - apply lookup_ge_None in E. rewrite nth_overflow in H by lia. congruence.
Qed.

Section QuerySpec.
Variable buf : list ascii.

(** A '&' at the head of the string is skipped by the turn that
    handles the parameter after it. *)
Lemma query_skip (fuel : nat) (ctx : gs1DLparser) (aival : list ascii) (p : nat) :
  peek buf p = "&" ->
  query_loop (S fuel) buf ctx aival p = query_loop (S fuel) buf ctx aival (p + 1).
Proof.
  intros Hp. cbn [query_loop]. rewrite Hp.
  change (Ascii.eqb "&" NUL) with false. cbv iota.
  apply peek_lookup_ne in Hp; [|done].
  rewrite (drop_S _ _ _ Hp). cbn [count_amp].
  change (Ascii.eqb "&" "&") with true. cbv iota.
  replace (S p) with (p + 1) by lia.
  replace (p + S (count_amp (drop (p + 1) buf)))
    with (p + 1 + count_amp (drop (p + 1) buf)) by lia.
  destruct (Ascii.eqb_spec (peek buf (p + 1)) NUL) as [Hn|Hn]; [|done].
  assert (Hc : cstr buf (p + 1) = []) by (by apply cstr_nil_peek).
  assert (Hk : count_amp (drop (p + 1) buf) = 0).
  { rewrite <- (Nat.add_0_r (p + 1)), <- peek_drop in Hn.
    destruct (drop (p + 1) buf) as [|x l]; [done|].
    unfold peek in Hn. simpl in Hn. subst x. done. }
  rewrite Hk, Nat.add_0_r.
  assert (strchr buf (p + 1) "&" = None) as ->
    by (apply strchr_None; rewrite Hc; apply not_elem_of_nil).
  unfold strlen. rewrite Hc. simpl. rewrite Nat.add_0_r, Nat.sub_diag.
  unfold memchr. rewrite take_0. simpl.
  destruct fuel; simpl; by rewrite Hn.
Qed.

Lemma count_amp_app (k : nat) (c : ascii) (l : list ascii) :
  c <> "&" -> count_amp (replicate k "&" ++ c :: l) = k.
Proof.
  intros Hc. induction k as [|k IH]; simpl.
  - by destruct (Ascii.eqb_spec c "&").
  - by rewrite IH.
Qed.

(** One turn of the loop on a parameter that is not empty. *)
Lemma query_step (fuel : nat) (ctx : gs1DLparser) (aival : list ascii)
    (p k : nat) (q rest : list ascii) :
  cstr buf p = replicate k "&" ++ q ++ rest -> q <> [] -> ("&" ∉ q) ->
  (rest = [] \/ exists r, rest = "&" :: r) ->
  query_loop (S fuel) buf ctx aival p
  = match index_of "=" q with
    | None => query_loop fuel buf ctx aival (p + k + length q)
    | Some k0 =>
        if forallb is_digit (take k0 q) then
          if (k0 <? 2) || (4 <? k0) then
            Some (GotoFail (set_err ctx
              (str "Stopping. Numeric query parameter that is not a valid AI is illegal: "
               ++ take 10 (take k0 q) ++ str "...")))
          else if length q =? k0 + 1 then
            Some (GotoFail (set_err ctx (snprintf_err
              (str "AI (" ++ take k0 q ++ str ") value query element is empty"))))
          else
            match URIunescape aival GS1_DL_MAX_AI_LEN buf (p + k + k0 + 1)
                    (length q - (k0 + 1)) true with
            | None => None
            | Some (aival, vlen) =>
                if vlen =? 0 then
                  Some (GotoFail (set_err ctx
                    (str "Decoded AI (" ++ take k0 q
                     ++ str ") value from DL query params too long")))
                else
                  match store_AI ctx buf (p + k) k0 aival vlen with
                  | GotoFail c => Some (GotoFail c)
                  | Cont (ctx, aival) =>
                      query_loop fuel buf ctx aival (p + k + length q)
                  end
            end
        else query_loop fuel buf ctx aival (p + k + length q)
    end.
Proof.
  intros Hs Hq Hamp Hrest. destruct q as [|c q']; [done|]. clear Hq.
  assert (Hc : c <> "&").
  { intros ->. apply Hamp. by left. }
  cbn [query_loop].
  assert (Hp0 : peek buf p <> NUL).
  { intros Hn. apply cstr_nil_peek in Hn. rewrite Hn in Hs.
    destruct k; discriminate. }
  destruct (Ascii.eqb_spec (peek buf p) NUL) as [|_]; [done|].
  assert (Hk : count_amp (drop p buf) = k).
  { destruct (cstr_split buf p) as (rest0 & -> & _). rewrite Hs.
    rewrite <- !app_assoc. simpl. by apply count_amp_app. }
  rewrite Hk. set (q := c :: q') in *. set (p1 := p + k).
  assert (Hs1 : cstr buf p1 = q ++ rest).
  { unfold p1. rewrite <- (length_replicate k "&") at 1. by apply cstr_suffix. }
  assert (Hr : match strchr buf p1 "&" with
               | Some r => r
               | None => p1 + strlen buf p1
               end = p1 + length q).
  { destruct Hrest as [->|[r ->]].
    - rewrite app_nil_r in Hs1.
      assert (strchr buf p1 "&" = None) as -> by (apply strchr_None; by rewrite Hs1).
      unfold strlen. by rewrite Hs1.
    - by rewrite (strchr_app _ _ _ _ _ Hs1 Hamp). }
  rewrite Hr. replace (p1 + length q - p1) with (length q) by lia.
  assert (Htake : take (length q) (drop p1 buf) = q).
  { destruct (cstr_split buf p1) as (rest0 & -> & _).
    by rewrite Hs1, <- app_assoc, take_app_length. }
  unfold memchr. rewrite Htake.
  destruct (index_of "=" q) as [k0|] eqn:Ei; cbn [option_map]; [|done].
  apply index_of_Some in Ei as (s1 & s2 & Hqs & Hl1 & _).
  assert (Hk0 : k0 < length q).
  { rewrite Hqs, length_app. simpl. lia. }
  replace (p1 + k0 - p1) with k0 by lia.
  assert (Hta : take k0 q = s1) by (by rewrite Hqs, <- Hl1, take_app_length).
  assert (Hai : cstr buf p1 = s1 ++ ("=" :: s2) ++ rest).
  { by rewrite Hs1, Hqs, <- app_assoc. }
  rewrite <- Hl1 at 1. rewrite (allDigits_forallb _ _ _ _ Hai), Hta.
  destruct (forallb is_digit s1); [|done].
  assert (Hmsg : take (if k0 <? 10 then k0 else 10) (cstr buf p1) = take 10 s1).
  { rewrite Hai. destruct (Nat.ltb_spec k0 10).
    - rewrite <- Hl1, take_app_length. symmetry. apply take_ge. lia.
    - by rewrite take_app_le by lia. }
  rewrite Hmsg.
  destruct ((k0 <? 2) || (4 <? k0)); [done|].
  replace (p1 + length q =? p1 + k0 + 1) with (length q =? k0 + 1).
  2:{ destruct (Nat.eqb_spec (length q) (k0 + 1)), (Nat.eqb_spec (p1 + length q) (p1 + k0 + 1));
        done || lia. }
  assert (Hta' : take k0 (cstr buf p1) = s1) by (by rewrite Hai, <- Hl1, take_app_length).
  rewrite Hta'.
  replace (p1 + length q - (p1 + k0 + 1)) with (length q - (k0 + 1)) by lia.
  done.
Qed.

(** The turn on a parameter that is not empty, followed by whatever the
    loop does with the candidates [cs] after it. *)
Lemma query_param_spec (fuel : nat) (ctx : gs1DLparser) (aival : list ascii)
    (p k : nat) (q rest : list ascii) (cs : list candidate)
    (els : list (list ascii * list ascii * bool)) :
  cstr buf p = replicate k "&" ++ q ++ rest -> q <> [] -> ("&" ∉ q) ->
  (rest = [] \/ exists r, rest = "&" :: r) ->
  packed ctx els -> err ctx = [] -> GS1_DL_MAX_AI_LEN < length aival ->
  (forall ctx' aival' els',
      packed ctx' els' -> err ctx' = [] -> GS1_DL_MAX_AI_LEN < length aival' ->
      exists f, query_loop fuel buf ctx' aival' (p + k + length q) = Some f
                /\ loop_result cs els' f) ->
  exists f, query_loop (S fuel) buf ctx aival p = Some f
            /\ loop_result (query_candidate q :: cs) els f.
Proof.
  intros Hs Hq Hamp Hrest Hp Herr Hlen Hnext.
  rewrite (query_step fuel ctx aival p k q rest Hs Hq Hamp Hrest).
  assert (Hs1 : cstr buf (p + k) = q ++ rest).
  { rewrite <- (length_replicate k "&") at 1. by apply cstr_suffix. }
  unfold loop_result. unfold query_candidate in *.
  destruct (index_of "=" q) as [k0|] eqn:Ei.
  2:{ cbn [spec_extract]. by apply Hnext. }
  apply index_of_Some in Ei as (s1 & s2 & Hqs & Hl1 & _).
  assert (Hta : take k0 q = s1) by (by rewrite Hqs, <- Hl1, take_app_length).
  assert (Hdr : drop (S k0) q = s2).
  { rewrite Hqs, <- Hl1. change (s1 ++ "=" :: s2) with (s1 ++ ["="] ++ s2).
    rewrite app_assoc. apply drop_app_length'. rewrite length_app. simpl. lia. }
  assert (Hlq : length q = k0 + 1 + length s2).
  { rewrite Hqs, length_app. simpl. lia. }
  rewrite Hta, Hdr in *. rewrite <- Hl1 in *.
  destruct (forallb is_digit s1); [|cbn [spec_extract]; by apply Hnext].
  destruct ((length s1 <? 2) || (4 <? length s1)) eqn:Elen.
  { eexists. split; [done|]. cbn [spec_extract]. eexists. split; [done|]. done. }
  apply orb_false_iff in Elen as [E2 E4].
  apply Nat.ltb_ge in E2, E4.
  destruct s2 as [|c v].
  { replace (length q =? length s1 + 1) with true
      by (symmetry; apply Nat.eqb_eq; simpl in Hlq; lia).
    eexists. split; [done|]. cbn [spec_extract]. eexists. split; [done|].
    cbn [err set_err]. apply snprintf_err_AI. }
  replace (length q =? length s1 + 1) with false
    by (symmetry; apply Nat.eqb_neq; simpl in Hlq; lia).
  replace (length q - (length s1 + 1)) with (length (c :: v)) by lia.
  assert (Hai : cstr buf (p + k) = s1 ++ ("=" :: c :: v) ++ rest).
  { by rewrite Hs1, Hqs, <- app_assoc. }
  assert (Hval : cstr buf (p + k + length s1 + 1) = (c :: v) ++ rest).
  { replace (p + k + length s1 + 1) with (p + k + length (s1 ++ ["="]))
      by (rewrite length_app; simpl; lia).
    apply cstr_suffix. by rewrite <- app_assoc. }
  destruct (decode_and_store buf ctx aival (p + k) (p + k + length s1 + 1)
              s1 _ c v rest true "&" els Hai ltac:(lia) Hval Hrest eq_refl
              Hp Herr Hlen)
    as (aival1 & n & -> & -> & Hst).
  assert (Hsplit :
    spec_extract (Store true s1 (c :: v) :: cs) els
    = match spec_extract [Store true s1 (c :: v)] els with
      | inl els' => spec_extract cs els'
      | inr m => inr m
      end).
  { cbn [spec_extract]. destruct (_ <? _); [done|]. by destruct (_ <? _). }
  rewrite Hsplit.
  destruct (spec_extract [Store true s1 (c :: v)] els) as [els'|msg].
  - destruct Hst as (ctx' & aival' & -> & Hp' & He' & Hl').
    by apply Hnext.
  - destruct Hst as (c' & -> & He). eexists. split; [done|]. by exists c'.
Qed.

Lemma render_params_cons (q : list ascii) (qs : list (list ascii)) :
  render_params (q :: qs) = "&" :: q ++ render_params qs.
Proof. done. Qed.

Lemma render_params_head (qs : list (list ascii)) :
  render_params qs = [] \/ exists r, render_params qs = "&" :: r.
Proof. destruct qs as [|q qs]; [by left|right]. by eexists. Qed.

(** The query loop, entered at a '&' or at the end of the string, takes
    the parameters in order and stops at the first one it rejects. *)
Lemma query_loop_spec (qs : list (list ascii)) :
  forall fuel ctx aival p els,
    cstr buf p = render_params qs -> Forall (fun q => "&" ∉ q) qs ->
    packed ctx els -> err ctx = [] -> GS1_DL_MAX_AI_LEN < length aival ->
    length (render_params qs) <= fuel ->
    exists f, query_loop fuel buf ctx aival p = Some f
              /\ loop_result (map query_candidate qs) els f.
Proof.
  induction qs as [|q qs IH];
    intros fuel ctx aival p els Hs Hamp Hp Herr Hlen Hf.
  - exists (Cont (ctx, aival)). split.
    + apply cstr_nil_peek in Hs. destruct fuel; simpl; by rewrite Hs.
    + unfold loop_result. simpl. by exists ctx, aival.
  - rewrite render_params_cons in Hs, Hf.
    destruct fuel as [|fuel]; [simpl in Hf; lia|].
    apply Forall_cons in Hamp as [Hq Hamp].
    rewrite map_cons.
    destruct q as [|c q'].
    + rewrite query_skip.
      2:{ pose proof (cstr_peek buf p [] _ _ Hs) as H. simpl in H.
          by rewrite Nat.add_0_r in H. }
      change (query_candidate []) with Ignore.
      unfold loop_result. cbn [spec_extract].
      apply (IH (S fuel) ctx aival (p + 1) els); try done.
      * by apply (cstr_suffix buf p ["&"]).
      * simpl in Hf. lia.
    + apply (query_param_spec fuel ctx aival p 1 (c :: q') (render_params qs));
        try done.
      * apply render_params_head.
      * intros ctx' aival' els' Hp' He' Hl'.
        apply (IH fuel ctx' aival' _ els'); try done.
        -- replace (p + 1 + length (c :: q')) with (p + length ("&" :: c :: q'))
             by (simpl; lia).
           apply cstr_suffix. by rewrite Hs.
        -- simpl in Hf. rewrite length_app in Hf. simpl in Hf. lia.
Qed.

Lemma join_amp_cons (q : list ascii) (qs : list (list ascii)) :
  join_amp (q :: qs) = q ++ render_params qs.
Proof.
  revert q. induction qs as [|q' qs IH]; intros q.
  - simpl. by rewrite app_nil_r.
  - change (join_amp (q :: q' :: qs)) with (q ++ "&" :: join_amp (q' :: qs)).
    by rewrite IH.
Qed.

(** The same from the start of the query string, whose first parameter
    has no '&' before it. *)
Lemma query_loop_join (qs : list (list ascii)) (fuel : nat) (ctx : gs1DLparser)
    (aival : list ascii) (p : nat) (els : list (list ascii * list ascii * bool)) :
  cstr buf p = join_amp qs -> Forall (fun q => "&" ∉ q) qs ->
  packed ctx els -> err ctx = [] -> GS1_DL_MAX_AI_LEN < length aival ->
  length (join_amp qs) < fuel ->
  exists f, query_loop fuel buf ctx aival p = Some f
            /\ loop_result (map query_candidate qs) els f.
Proof.
  intros Hs Hamp Hp Herr Hlen Hf.
  destruct qs as [|q qs].
  { apply (query_loop_spec [] fuel ctx aival p els); try done. simpl. lia. }
  rewrite join_amp_cons in Hs, Hf.
  apply Forall_cons in Hamp as [Hq Hamp].
  rewrite map_cons.
  destruct q as [|c q'].
  - change (query_candidate []) with Ignore.
    unfold loop_result. cbn [spec_extract].
    apply (query_loop_spec qs fuel ctx aival p els); try done. simpl in Hf. lia.
  - destruct fuel as [|fuel]; [lia|].
    apply (query_param_spec fuel ctx aival p 0 (c :: q') (render_params qs));
      try done.
    + apply render_params_head.
    + intros ctx' aival' els' Hp' He' Hl'.
      apply (query_loop_spec qs fuel ctx' aival' _ els'); try done.
      * rewrite Nat.add_0_r. by apply cstr_suffix.
      * rewrite length_app in Hf. simpl in Hf. lia.
Qed.
End QuerySpec.
(** ** The parse of a URI given by its parts *)

Section Finds.
Variables (B : list ascii) (pi : nat) (stem k v : list ascii).
Hypothesis Hk : "/" ∉ k.
Hypothesis Hv : "/" ∉ v.
Hypothesis Hkey : is_pkey k = true.

(** The search walks over the pairs that have the form of an AI and are
    no primary key, and stops at the first primary key from the right. *)
Lemma find_dp_finds (ps : list (list ascii * list ascii)) :
  forall fuel buf p rest,
    cstr B pi = (stem ++ "/" :: k ++ "/" :: v ++ render_pairs ps) ++ rest ->
    cstr buf pi = stem ++ "/" :: k ++ "/" :: v ++ render_pairs ps ->
    poke buf p "/" = B -> slash_free ps ->
    Forall (fun av => valid_AI_form (fst av) = true /\ is_pkey (fst av) = false) ps ->
    length ps < fuel ->
    find_dp fuel buf pi p = Some (B, Some (pi + length stem)).
Proof.
  induction ps as [|[a v'] ps IH] using rev_ind;
    intros fuel buf p rest HB Hbuf Hp Hsf Hok Hfuel.
  - destruct fuel as [|fuel]; [lia|].
    simpl in HB, Hbuf. rewrite app_nil_r in HB, Hbuf.
    rewrite (find_dp_step B pi fuel buf p stem k v rest); try done.
    + destruct (pkey_valid_form k Hkey) as [-> _]. by rewrite Hkey.
    + rewrite HB. by reassoc.
  - destruct fuel as [|fuel]; [lia|].
    apply Forall_app in Hsf as [Hsf Hav]. apply Forall_app in Hok as [Hok Hav'].
    rewrite Forall_singleton in Hav. destruct Hav as [Ha Hv']. simpl in Ha, Hv'.
    rewrite Forall_singleton in Hav'. destruct Hav' as [Hva Hnk]. simpl in Hva, Hnk.
    rewrite render_pairs_app in HB, Hbuf.
    change (render_pairs [(a, v')]) with (("/" :: a ++ "/" :: v') ++ []) in HB, Hbuf.
    rewrite app_nil_r in HB, Hbuf.
    set (t := stem ++ "/" :: k ++ "/" :: v ++ render_pairs ps) in *.
    assert (HB' : cstr B pi = t ++ "/" :: a ++ "/" :: v' ++ rest).
    { rewrite HB. unfold t. by reassoc. }
    assert (Hbuf' : cstr buf pi = t ++ "/" :: a ++ "/" :: v').
    { rewrite Hbuf. unfold t. by reassoc. }
    rewrite (find_dp_step B pi fuel buf p t a v' rest HB' Hbuf' Hp Ha Hv').
    rewrite Hva, Hnk. simpl.
    apply (IH fuel _ _ ("/" :: a ++ "/" :: v' ++ rest)); try done.
    + by apply (cstr_poke_nul _ _ _ _ _ HB').
    + by apply poke_restore, (cstr_lookup _ _ _ _ _ HB').
    + rewrite length_app in Hfuel. simpl in Hfuel. lia.
Qed.
End Finds.

Lemma cstr_at_app (x s : list ascii) : NUL ∉ s -> cstr (x ++ s) (length x) = s.
Proof. intros H. unfold cstr. rewrite drop_app_length. by apply until_nul_id. Qed.

Lemma cstr_at_app_nul (x s y : list ascii) :
  NUL ∉ s -> cstr (x ++ s ++ NUL :: y) (length x) = s.
Proof.
  intros H. unfold cstr. rewrite drop_app_length. by apply until_nul_app_nul.
Qed.

Lemma poke_at (x y : list ascii) (c d : ascii) :
  poke (x ++ c :: y) (length x) d = x ++ d :: y.
Proof.
  pose proof (poke_middle x [] y c d) as H. simpl in H.
  by rewrite Nat.add_0_r in H.
Qed.

Lemma strchr_at (x s y : list ascii) (c : ascii) :
  NUL ∉ s -> c <> NUL -> (c ∉ s) -> NUL ∉ y ->
  strchr (x ++ s ++ c :: y) (length x) c = Some (length x + length s).
Proof.
  intros Hs Hc Hcs Hy. apply (strchr_app _ _ s y); [|done].
  apply cstr_at_app. rewrite not_elem_of_app, not_elem_of_cons. by intuition.
Qed.

Lemma strchr_at_none (x s : list ascii) (c : ascii) :
  NUL ∉ s -> (c ∉ s) -> strchr (x ++ s) (length x) c = None.
Proof. intros Hs Hc. apply strchr_None. by rewrite cstr_at_app. Qed.

Lemma strchr_at_nul_none (x s y : list ascii) (c : ascii) :
  NUL ∉ s -> (c ∉ s) -> strchr (x ++ s ++ NUL :: y) (length x) c = None.
Proof. intros Hs Hc. apply strchr_None. by rewrite cstr_at_app_nul. Qed.

(** What the splitter hands to the search: the path cut off from the
    query and the fragment, the query cut off from the fragment. *)
Lemma split_tail (pre path : list ascii) (query : option (list (list ascii)))
    (fragment : option (list ascii)) :
  let dl := pre ++ path ++ uri_tail query fragment in
  let pi := length pre in
  NUL ∉ dl -> ("#" ∉ path) -> ("?" ∉ path) ->
  (forall qs, query = Some qs -> "#" ∉ join_amp qs) ->
  exists B qp fr,
    cstr B pi = path /\ length B = length dl /\ put_back B qp fr = dl
    /\ match query with
       | Some qs => exists q, qp = Some q /\ cstr B q = join_amp qs
       | None => qp = None
       end
    /\ forall (A : Type) (k : list ascii -> option nat -> option nat -> A),
         (let '(buf, fr) := match strchr dl pi "#" with
                            | Some f => (poke dl f NUL, Some (f + 1))
                            | None => (dl, None)
                            end in
          let '(buf, qp) := match strchr buf pi "?" with
                            | Some q => (poke buf q NUL, Some (q + 1))
                            | None => (buf, None)
                            end in
          k buf qp fr) = k B qp fr.
Proof.
  intros dl pi Hnul Hh Hq Hjoin. subst dl pi.
  rewrite !not_elem_of_app in Hnul. destruct Hnul as (Hpre & Hpath & Htail).
  unfold uri_tail in *.
  destruct query as [qs|], fragment as [f|]; simpl in Htail |- *.
  - (* query and fragment *)
    specialize (Hjoin qs eq_refl). set (J := join_amp qs) in *.
    rewrite not_elem_of_cons, not_elem_of_app, not_elem_of_cons in Htail.
    destruct Htail as (_ & HJ & _ & Hf).
    exists (pre ++ path ++ NUL :: J ++ NUL :: f),
           (Some (length pre + length path + 1)),
           (Some (length pre + length (path ++ "?" :: J) + 1)).
    split; [by apply cstr_at_app_nul|].
    split; [rewrite !length_app; simpl; rewrite ?length_app; simpl; lia|].
    split.
    { unfold put_back. rewrite !Nat.add_sub.
      rewrite (app_assoc pre path), <- length_app, poke_at.
      rewrite <- (app_assoc pre path).
      replace (pre ++ path ++ "?" :: J ++ NUL :: f)
        with ((pre ++ path ++ "?" :: J) ++ NUL :: f) by (by reassoc).
      replace (length pre + length (path ++ "?" :: J))
        with (length (pre ++ path ++ "?" :: J)) by (by rewrite !length_app).
      rewrite poke_at. by reassoc. }
    split.
    { eexists. split; [done|].
      replace (pre ++ path ++ NUL :: J ++ NUL :: f)
        with ((pre ++ path ++ [NUL]) ++ J ++ NUL :: f) by (by reassoc).
      replace (length pre + length path + 1) with (length (pre ++ path ++ [NUL]))
        by (rewrite !length_app; simpl; lia).
      by apply cstr_at_app_nul. }
    intros A k.
    replace (pre ++ path ++ "?" :: J ++ "#" :: f)
      with (pre ++ (path ++ "?" :: J) ++ "#" :: f) by (by reassoc).
    rewrite strchr_at; try done.
    2:{ rewrite not_elem_of_app, not_elem_of_cons. by intuition. }
    2:{ rewrite not_elem_of_app, not_elem_of_cons. by intuition. }
    rewrite (app_assoc pre (path ++ "?" :: J)), <- length_app, poke_at.
    replace ((pre ++ path ++ "?" :: J) ++ NUL :: f)
      with (pre ++ path ++ "?" :: (J ++ NUL :: f)) by (by reassoc).
    assert (Hc : cstr (pre ++ path ++ "?" :: J ++ NUL :: f) (length pre)
                 = path ++ "?" :: J).
    { replace (pre ++ path ++ "?" :: J ++ NUL :: f)
        with (pre ++ (path ++ "?" :: J) ++ NUL :: f) by (by reassoc).
      apply cstr_at_app_nul.
      rewrite not_elem_of_app, not_elem_of_cons. by intuition. }
    rewrite (strchr_app _ _ _ _ _ Hc Hq).
    rewrite (app_assoc pre path), <- length_app, poke_at.
    rewrite <- (app_assoc pre path). rewrite !length_app. done.
  - (* query only *)
    specialize (Hjoin qs eq_refl). set (J := join_amp qs) in *.
    rewrite app_nil_r in Htail |- *.
    rewrite not_elem_of_cons in Htail. destruct Htail as (_ & HJ).
    exists (pre ++ path ++ NUL :: J), (Some (length pre + length path + 1)), None.
    split; [by apply cstr_at_app_nul|].
    split; [rewrite !length_app; simpl; rewrite ?length_app; simpl; lia|].
    split.
    { unfold put_back. rewrite !Nat.add_sub.
      by rewrite (app_assoc pre path), <- length_app, poke_at, <- app_assoc. }
    split.
    { eexists. split; [done|].
      replace (pre ++ path ++ NUL :: J) with ((pre ++ path ++ [NUL]) ++ J)
        by (by reassoc).
      replace (length pre + length path + 1) with (length (pre ++ path ++ [NUL]))
        by (rewrite !length_app; simpl; lia).
      by apply cstr_at_app. }
    intros A k.
    rewrite strchr_at_none; try done.
    2:{ rewrite not_elem_of_app, not_elem_of_cons. by intuition. }
    2:{ rewrite not_elem_of_app, not_elem_of_cons. by intuition. }
    rewrite strchr_at; try done.
    by rewrite (app_assoc pre path), <- length_app, poke_at, <- app_assoc,
         length_app.
  - (* fragment only *)
    rewrite not_elem_of_cons in Htail. destruct Htail as (_ & Hf).
    exists (pre ++ path ++ NUL :: f), None, (Some (length pre + length path + 1)).
    split; [by apply cstr_at_app_nul|].
    split; [rewrite !length_app; simpl; lia|].
    split.
    { unfold put_back. rewrite !Nat.add_sub.
      by rewrite (app_assoc pre path), <- length_app, poke_at, <- app_assoc. }
    split; [done|].
    intros A k.
    rewrite strchr_at; try done.
    rewrite (app_assoc pre path), <- length_app, poke_at, <- app_assoc.
    rewrite strchr_at_nul_none by done.
    by rewrite length_app.
  - (* neither *)
    rewrite app_nil_r.
    exists (pre ++ path), None, None.
    split; [by apply cstr_at_app|]. split; [done|]. split; [done|].
    split; [done|]. intros A k.
    by rewrite !strchr_at_none.
Qed.
Lemma well_formed_legal (scheme domain path tail : list ascii) :
  well_formed scheme domain path tail -> legal (dl_uri scheme domain path tail).
Proof.
  intros (Hsch & _ & _ & _ & _ & _ & _ & Hlegal).
  unfold dl_uri. apply legal_app. split; [|done]. by destruct Hsch as [->| ->].
Qed.

(** A well-formed URI passes the checks on characters, scheme and
    domain. *)
Lemma parse_past_domain (ctx : gs1DLparser) (scheme domain path tail : list ascii) :
  well_formed scheme domain path tail ->
  let dl := dl_uri scheme domain path tail in
  let pi := length scheme + length domain in
  gs1_parseDLuri ctx dl
  = let '(buf, fr) := match strchr dl pi "#" with
                      | Some f => (poke dl f NUL, Some (f + 1))
                      | None => (dl, None)
                      end in
    let '(buf, qp) := match strchr buf pi "?" with
                      | Some q => (poke buf q NUL, Some (q + 1))
                      | None => (buf, None)
                      end in
    locate_and_extract (S (length dl)) ctx_reset buf pi qp fr.
Proof.
  intros Hwf dl pi. pose proof (well_formed_legal _ _ _ _ Hwf) as Hleg.
  fold dl in Hleg.
  destruct Hwf as (Hsch & Hdom & Hdslash & [path' ->] & Hh & Hq & Htail & Hlegal).
  pose proof (cstr_whole dl (legal_no_nul dl Hleg)) as Hwhole.
  assert (Hrest : cstr dl (length scheme) = domain ++ ("/" :: path') ++ tail).
  { apply (cstr_suffix dl 0 scheme). by rewrite Hwhole. }
  unfold gs1_parseDLuri.
  unfold strspn, strlen. rewrite Hwhole, span_len_legal, Nat.eqb_refl by done.
  cbn [negb].
  assert (Hsel :
    (if (8 <=? length dl) && strncmp_eq dl (str "https://") 8 then Some (0 + 8)
     else if (7 <=? length dl) && strncmp_eq dl (str "http://") 7 then Some (0 + 7)
     else None) = Some (length scheme)).
  { unfold dl, dl_uri. destruct Hsch as [->| ->].
    - rewrite length_app. unfold strncmp_eq.
      rewrite take_app_length' by done. done.
    - rewrite length_app. unfold strncmp_eq.
      destruct domain as [|d domain']; [done|].
      simpl. done. }
  rewrite Hsel.
  rewrite (strchr_app _ _ domain (path' ++ tail) "/" Hrest Hdslash).
  fold pi.
  replace (pi - length scheme <? 1) with false.
  2:{ symmetry. apply Nat.ltb_ge. unfold pi. destruct domain; [done|simpl; lia]. }
  done.
Qed.

Lemma spec_extract_app (cs1 cs2 : list candidate) :
  forall els,
    spec_extract (cs1 ++ cs2) els
    = match spec_extract cs1 els with
      | inl els' => spec_extract cs2 els'
      | inr m => inr m
      end.
Proof.
  induction cs1 as [|[|q a v|msg] cs1 IH]; intros els; cbn [app spec_extract];
    try done.
  destruct (_ <? _); [done|]. by destruct (_ <? _).
Qed.

Lemma label_fail_final (c : gs1DLparser) (buf : list ascii) (qp fr : option nat) :
  exists ctx',
    label_fail c buf qp fr = (false, ctx', put_back buf qp fr)
    /\ err ctx' = final_err (err c) /\ numAIs ctx' = 0.
Proof.
  unfold label_fail, label_out. cbv zeta. eexists. split; [reflexivity|].
  split; [|reflexivity]. cbn [err].
  destruct (err c) eqn:E; [reflexivity|]. by rewrite E.
Qed.

Lemma packed_reset : packed ctx_reset [].
Proof. repeat (split; [reflexivity|]). constructor. Qed.

Lemma join_amp_not_elem (c : ascii) (qs : list (list ascii)) :
  c <> "&" -> Forall (fun q => c ∉ q) qs -> c ∉ join_amp qs.
Proof.
  intros Hc. induction 1 as [|q qs Hq _ IH]; [apply not_elem_of_nil|].
  rewrite join_amp_cons. rewrite not_elem_of_app. split; [done|].
  destruct qs as [|q' qs']; [apply not_elem_of_nil|].
  change (render_params (q' :: qs')) with ("&" :: q' ++ render_params qs').
  rewrite <- join_amp_cons. rewrite not_elem_of_cons. done.
Qed.

Lemma length_render_params (qs : list (list ascii)) :
  length (join_amp qs) <= length (render_params qs).
Proof.
  destruct qs as [|q qs]; [done|]. rewrite join_amp_cons, render_params_cons.
  simpl. lia.
Qed.

(** The parse of a URI given by its parts: scheme, domain, stem, the
    AI/value pairs from the primary key on, query parameters and
    fragment. *)
Lemma parse_structured (ctx : gs1DLparser)
    (scheme domain stem k v : list ascii) (ps : list (list ascii * list ascii))
    (query : option (list (list ascii))) (fragment : option (list ascii)) :
  let path := stem ++ render_pairs ((k, v) :: ps) in
  let dl := dl_uri scheme domain path (uri_tail query fragment) in
  let cands := map path_candidate ((k, v) :: ps) ++ query_candidates query in
  well_formed scheme domain path (uri_tail query fragment) ->
  is_pkey k = true -> slash_free ((k, v) :: ps) ->
  Forall (fun av => valid_AI_form (fst av) = true /\ is_pkey (fst av) = false) ps ->
  (forall qs, query = Some qs -> Forall (fun q => ("&" ∉ q) /\ ("#" ∉ q)) qs) ->
  exists ret ctx',
    gs1_parseDLuri ctx dl = Some (ret, ctx', dl)
    /\ match spec_extract cands [] with
       | inl els => ret = true /\ packed ctx' els /\ err ctx' = []
       | inr msg => ret = false /\ err ctx' = msg /\ numAIs ctx' = 0
       end.
Proof.
  intros path dl cands Hwf Hkey Hsf Hok Hqs.
  pose proof (parse_past_domain ctx scheme domain path _ Hwf) as Hparse.
  cbv zeta in Hparse. fold dl in Hparse. rewrite Hparse. clear Hparse.
  pose proof (legal_no_nul _ (well_formed_legal _ _ _ _ Hwf)) as Hnul.
  fold dl. fold dl in Hnul.
  pose proof Hwf as (_ & _ & _ & [path' Hpath] & Hh & Hq & _ & _).
  destruct (split_tail (scheme ++ domain) path query fragment)
    as (B & qp & fr & HB & HlenB & Hback & Hqp & Hsplit).
  { unfold dl, dl_uri in Hnul. by rewrite <- app_assoc. }
  { done. }
  { done. }
  { intros qs ->. apply join_amp_not_elem; [done|].
    eapply Forall_impl; [by apply Hqs|]. by intros q [_ ?]. }
  rewrite length_app in HB, Hsplit.
  assert (Hdl : (scheme ++ domain) ++ path ++ uri_tail query fragment = dl)
    by (unfold dl, dl_uri; by rewrite <- app_assoc).
  rewrite Hdl in HlenB, Hback, Hsplit. rewrite Hsplit. clear Hsplit.
  set (pi := length scheme + length domain) in *.
  apply Forall_cons in Hsf as [[Hk Hv] Hsf]. simpl in Hk, Hv.
  assert (Hfit : length (render_pairs ps) <= length dl).
  { rewrite <- HlenB. etrans; [|apply (strlen_le B pi)].
    unfold strlen. rewrite HB. unfold path.
    rewrite render_pairs_cons.
    repeat first [ rewrite length_app | rewrite length_cons ]. lia. }
  pose proof (length_render_pairs ps) as Hlps.
  unfold locate_and_extract.
  rewrite (find_dp_finds B pi stem k v Hk Hv Hkey ps (S (length dl)) B pi []);
    try done.
  2:{ rewrite app_nil_r, HB. unfold path. by rewrite render_pairs_cons. }
  2:{ rewrite HB. unfold path. by rewrite render_pairs_cons. }
  2:{ apply poke_id. rewrite Hpath in HB. by apply cstr_head_lookup in HB. }
  2:{ lia. }
  unfold cands. rewrite spec_extract_app.
  destruct (path_loop_spec B ((k, v) :: ps) (S (length dl)) ctx_reset aival0
              (pi + length stem) [])
    as (f & -> & Hf).
  { by apply cstr_suffix. }
  { by constructor. }
  { constructor; [by apply pkey_valid_form|].
    eapply Forall_impl; [exact Hok|]. by intros av [? _]. }
  { apply packed_reset. }
  { done. }
  { unfold aival0. rewrite length_replicate. lia. }
  { simpl. lia. }
  destruct (spec_extract (map path_candidate ((k, v) :: ps)) []) as [els1|msg].
  2:{ destruct Hf as (c & -> & He).
      destruct (label_fail_final c B qp fr) as (ctx' & -> & He' & Hn').
      exists false, ctx'. rewrite Hback. split; [done|]. split; [done|].
      split; [congruence|done]. }
  destruct Hf as (ctx1 & aival1 & -> & Hp1 & He1 & Hl1).
  destruct query as [qs|]; cbn [query_candidates].
  2:{ subst qp. cbn [spec_extract]. exists true, ctx1.
      unfold label_out. rewrite Hback. done. }
  destruct Hqp as (q & -> & Hq').
  destruct (query_loop_join B qs (S (length dl)) ctx1 aival1 q els1)
    as (f & -> & Hf); try done.
  { eapply Forall_impl; [by apply Hqs|]. by intros ? [? _]. }
  { rewrite <- Hq', <- HlenB. pose proof (strlen_le B q) as H.
    unfold strlen in H. lia. }
  unfold loop_result in Hf.
  destruct (spec_extract (map query_candidate qs) els1) as [els2|msg].
  - destruct Hf as (ctx2 & aival2 & -> & Hp2 & He2 & _).
    exists true, ctx2. unfold label_out. rewrite Hback. done.
  - destruct Hf as (c & -> & He).
    destruct (label_fail_final c B (Some q) fr) as (ctx' & -> & He' & Hn').
    exists false, ctx'. rewrite Hback. split; [done|]. split; [done|].
    split; [congruence|done].
Qed.
(** ** What the parser extracts *)

Lemma nth_seq_all (l : list gs1AIelement) (d : gs1AIelement) :
  map (fun i => nth i l d) (seq 0 (length l)) = l.
Proof.
  induction l as [|x l IH] using rev_ind; [done|].
  rewrite length_app. simpl. rewrite Nat.add_1_r, seq_S, map_app. simpl.
  rewrite app_nth2, Nat.sub_diag by lia. simpl. f_equal.
  rewrite <- IH at 2. apply map_ext_in. intros i Hi. apply in_seq in Hi.
  by rewrite app_nth1 by lia.
Qed.

Lemma layout_texts (ctx : gs1DLparser) (els : list (list ascii * list ascii * bool)) :
  no_nul_elements els ->
  forall pre,
    cstr (aiBuf ctx) 0 = pre ++ packed_bytes els ->
    map (fun a => (prec_s ctx (ailen a) (ai a), prec_s ctx (vallen a) (value a),
                   fnc1 a))
        (layout (length pre) els) = els.
Proof.
  induction 1 as [|[[a d] f] els Hd _ IH]; intros pre Hs; [done|].
  simpl in Hd.
  change (packed_bytes ((a, d, f) :: els))
    with ((a ++ until_nul d) ++ packed_bytes els) in Hs.
  cbn [layout map fst snd ai ailen value vallen fnc1].
  rewrite (until_nul_id d Hd) in Hs |- *. f_equal.
  - unfold prec_s.
    assert (H1 : cstr (aiBuf ctx) (0 + length pre) = (a ++ d) ++ packed_bytes els)
      by (by apply cstr_suffix).
    assert (H2 : cstr (aiBuf ctx) (0 + length (pre ++ a)) = d ++ packed_bytes els).
    { apply cstr_suffix. rewrite Hs. by reassoc. }
    rewrite length_app in H2. simpl in H1, H2. rewrite H1, H2.
    by rewrite <- app_assoc, !take_app_length.
  - replace (length pre + length a + length d) with (length (pre ++ a ++ d))
      by (rewrite !length_app; lia).
    apply IH. rewrite Hs. by reassoc.
Qed.

(** A context that holds [els] shows them to the writers. *)
Lemma packed_extracted (ctx : gs1DLparser)
    (els : list (list ascii * list ascii * bool)) :
  packed ctx els -> no_nul_elements els ->
  extracted ctx = els /\ numAIs ctx = length els.
Proof.
  intros (Hb & _ & Hn & Hdata & _) Hnn. split; [|done].
  unfold extracted, elements, aiData_at. rewrite Hdata, Hn.
  rewrite <- (length_layout els 0), nth_seq_all.
  by apply (layout_texts ctx els Hnn []).
Qed.

Lemma packed_layout (ctx : gs1DLparser)
    (els : list (list ascii * list ascii * bool)) :
  packed ctx els -> elements ctx = layout 0 els.
Proof.
  intros (_ & _ & Hn & Hdata & _).
  unfold elements, aiData_at. rewrite Hdata, Hn.
  by rewrite <- (length_layout els 0), nth_seq_all.
Qed.

Lemma layout_lengths (els : list (list ascii * list ascii * bool)) (off : nat) :
  map (fun a => (ailen a, vallen a)) (layout off els)
  = map (fun e => (length (fst (fst e)), length (snd (fst e)))) els.
Proof.
  revert off. induction els as [|[[a d] f] els IH]; intros off; [done|].
  cbn [layout map fst snd ailen vallen]. by rewrite IH.
Qed.

Lemma stored_no_nul (cs : list candidate) :
  Forall no_nul_value cs -> no_nul_elements (stored cs).
Proof.
  induction 1 as [|[|q a v|msg] cs Hc _ IH]; simpl; try done.
  - constructor.
  - constructor; [|done]. simpl. by apply spec_value_no_nul.
Qed.

Lemma spec_value_length (q : bool) (a v : list ascii) :
  length (spec_value q a v) <= GS1_DL_MAX_AI_LEN.
Proof.
  unfold spec_value.
  set (d := take GS1_DL_MAX_AI_LEN (spec_unescape q v)).
  assert (length d <= GS1_DL_MAX_AI_LEN) by (unfold d; rewrite length_take; lia).
  destruct (_ && _) eqn:E; [|done].
  apply andb_true_iff in E as [_ E].
  rewrite !orb_true_iff, !Nat.eqb_eq in E.
  rewrite zero_padded_length by lia. unfold GS1_DL_MAX_AI_LEN. lia.
Qed.

Lemma query_candidate_short (q : list ascii) : short_AI (query_candidate q).
Proof.
  unfold query_candidate. destruct (index_of "=" q) as [k|]; [|done].
  destruct (forallb _ _); [|done].
  destruct (Nat.ltb_spec (length (take k q)) 2); [done|].
  destruct (Nat.ltb_spec 4 (length (take k q))); [done|]. simpl.
  by destruct (drop (S k) q).
Qed.

Lemma candidates_short (u : dl_parts) :
  parts_shape u -> Forall short_AI (candidates u).
Proof.
  intros (_ & Hkey & _ & Hok & _). unfold candidates.
  apply Forall_app. split.
  - apply Forall_map. constructor.
    + unfold path_candidate. simpl. destruct (key_value u); [done|].
      simpl. by apply pkey_valid_form.
    + eapply Forall_impl; [exact Hok|]. intros [a v] [Hv _].
      unfold path_candidate. simpl in *. destruct v; [done|]. simpl.
      by apply valid_AI_form_length in Hv as [_ ?].
  - destruct (query u) as [qs|]; [|constructor]. simpl.
    apply Forall_map, Forall_forall. intros q _. apply query_candidate_short.
Qed.

Lemma stored_app (cs1 cs2 : list candidate) :
  stored (cs1 ++ cs2) = stored cs1 ++ stored cs2.
Proof. unfold stored. apply flat_map_app. Qed.

(** Candidates that are all accepted and number at most
    [GS1_DL_MAX_AIS] are all stored: the array [aiBuf] has room for
    them. *)
Lemma spec_extract_accepted (cs : list candidate) :
  forall els,
    Forall accepted cs -> Forall short_AI cs -> Forall element_bounds els ->
    length els + length (stored cs) <= GS1_DL_MAX_AIS ->
    spec_extract cs els = inl (els ++ stored cs)
    /\ Forall element_bounds (els ++ stored cs).
Proof.
  induction cs as [|[|q a v|msg] cs IH]; intros els Hacc Hsh Hb Hn.
  - simpl. by rewrite app_nil_r.
  - apply Forall_cons in Hacc as [_ Hacc]. apply Forall_cons in Hsh as [_ Hsh].
    by apply IH.
  - apply Forall_cons in Hacc as [_ Hacc]. apply Forall_cons in Hsh as [Ha Hsh].
    simpl in Ha. cbn [spec_extract].
    pose proof (spec_value_length q a v) as Hd.
    pose proof (packed_bytes_bound els Hb) as Hbytes.
    change (stored (Store q a v :: cs))
      with ([(a, spec_value q a v, isFNC1required a)] ++ stored cs) in Hn |- *.
    rewrite length_app in Hn. simpl in Hn.
    destruct (Nat.ltb_spec GS1_DL_MAX_AI_BUF
                (length (packed_bytes els) + length a + length (spec_value q a v)))
      as [Hfull|_].
    { exfalso. unfold GS1_DL_MAX_AI_BUF, GS1_DL_MAX_AIS, GS1_DL_MAX_AI_LEN in *.
      nia. }
    destruct (Nat.ltb_spec (length els) GS1_DL_MAX_AIS); [|lia].
    rewrite app_assoc. apply IH; try done.
    + apply Forall_app. split; [done|]. by constructor.
    + rewrite length_app. simpl. lia.
  - by apply Forall_cons in Hacc as [[] _].
Qed.

Lemma parts_shape_structured (ctx : gs1DLparser) (u : dl_parts) :
  parts_shape u ->
  exists ret ctx',
    gs1_parseDLuri ctx (uri_of u) = Some (ret, ctx', uri_of u)
    /\ match spec_extract (candidates u) [] with
       | inl els => ret = true /\ packed ctx' els /\ err ctx' = []
       | inr msg => ret = false /\ err ctx' = msg /\ numAIs ctx' = 0
       end.
Proof.
  intros (Hwf & Hkey & Hsf & Hok & Hqs).
  by apply (parse_structured ctx (scheme u) (domain u) (stem u) (key u)
              (key_value u) (more u) (query u) (fragment u)).
Qed.

(** Candidates that are all accepted and number at most
    [GS1_DL_MAX_AIS]: the context holds what they store. *)
Lemma parse_accepted (ctx : gs1DLparser) (u : dl_parts) :
  parts_shape u -> Forall accepted (candidates u) ->
  length (stored (candidates u)) <= GS1_DL_MAX_AIS ->
  exists ctx',
    gs1_parseDLuri ctx (uri_of u) = Some (true, ctx', uri_of u)
    /\ packed ctx' (stored (candidates u)) /\ err ctx' = [].
Proof.
  intros Hok Hacc Hn.
  destruct (parts_shape_structured ctx u Hok) as (ret & ctx' & E & Hres).
  destruct (spec_extract_accepted (candidates u) [] Hacc (candidates_short u Hok))
    as [Hs _]; [apply Forall_nil_2|cbn [length Nat.add]; lia|].
  rewrite Hs in Hres. simpl in Hres. destruct Hres as (-> & Hp & He).
  by exists ctx'.
Qed.

Lemma spec_value_cut (q : bool) (a v : list ascii) :
  GS1_DL_MAX_AI_LEN < length (spec_unescape q v) ->
  spec_value q a v = take GS1_DL_MAX_AI_LEN (spec_unescape q v)
  /\ length (spec_value q a v) = GS1_DL_MAX_AI_LEN.
Proof.
  intros Hlong. unfold spec_value.
  assert (Hl : length (take GS1_DL_MAX_AI_LEN (spec_unescape q v))
               = GS1_DL_MAX_AI_LEN) by (rewrite length_take; lia).
  rewrite Hl. by rewrite andb_false_r.
Qed.

(** C10. No call ends with a "Decoded AI ... too long" message: a value
    is never empty when it reaches [URIunescape] and the capacity is
    positive, so the returned length is at least 1 (and at most the
    capacity).  A value whose decoding is longer than the capacity is
    cut to [GS1_DL_MAX_AI_LEN] bytes and accepted, in the path and in
    the query string alike: for a URI made of a scheme, a domain, a
    stem, the pair of a primary key, further pairs and query parameters,
    none of which is rejected and of which at most [GS1_DL_MAX_AIS] are
    to be stored, the parse succeeds and every pair and every numeric
    parameter is stored with the length of its decoded value, cut to
    [GS1_DL_MAX_AI_LEN] when that is longer; the string in [aiBuf] is
    made of the AIs and these values (each up to its first NUL byte). *)
Theorem decoded_too_long_is_unreachable :
  (forall ctx dlData,
      exists ret ctx' buf',
        gs1_parseDLuri ctx dlData = Some (ret, ctx', buf')
        /\ forall rest, err ctx' <> str "Decoded AI (" ++ rest)
  /\ (forall out buf inp inlen is_query,
        exists out' n,
          URIunescape out GS1_DL_MAX_AI_LEN buf inp inlen is_query = Some (out', n)
          /\ n <= GS1_DL_MAX_AI_LEN
          /\ (inlen <> 0 -> 1 <= n))
  /\ (forall ctx u,
        parts_shape u -> Forall accepted (candidates u) ->
        length (stored (candidates u)) <= GS1_DL_MAX_AIS ->
        exists ctx',
          gs1_parseDLuri ctx (uri_of u) = Some (true, ctx', uri_of u)
          /\ numAIs ctx' = length (stored (candidates u))
          /\ map (fun a => (ailen a, vallen a)) (elements ctx')
             = map (fun e => (length (fst (fst e)), length (snd (fst e))))
                   (stored (candidates u))
          /\ cstr (aiBuf ctx') 0 = packed_bytes (stored (candidates u)))
  /\ (forall is_query a v,
        GS1_DL_MAX_AI_LEN < length (spec_unescape is_query v) ->
        spec_value is_query a v
        = take GS1_DL_MAX_AI_LEN (spec_unescape is_query v)
        /\ length (spec_value is_query a v) = GS1_DL_MAX_AI_LEN).
Proof.
  split; [|split; [|split]].
  - intros ctx dlData.
    destruct (gs1_parseDLuri_outcome ctx dlData)
      as (ret & ctx' & buf' & E & [Htrue Hfalse] & _).
    exists ret, ctx', buf'. split; [done|]. intros rest. destruct ret.
    + by rewrite Htrue.
    + destruct (Hfalse eq_refl) as [_ He]. by apply parse_error_not_too_long.
  - intros out buf inp inlen q.
    destruct (URIunescape_total out GS1_DL_MAX_AI_LEN buf inp inlen q)
      as (out' & n & E & Hmax & Hmin).
    exists out', n. split; [done|]. split; [done|].
    intros Hin. apply Hmin; [lia|]. unfold GS1_DL_MAX_AI_LEN. lia.
  - intros ctx u Hok Hacc Hn.
    destruct (parse_accepted ctx u Hok Hacc Hn) as (ctx' & E & Hp & _).
    exists ctx'. split; [done|].
    rewrite (packed_layout ctx' _ Hp), layout_lengths.
    by destruct Hp as (Hb & _ & Hc & _).
  - intros q a v. apply spec_value_cut.
Qed.

(** X1. Functional correctness of the extraction.  For a URI made of a
    scheme, a domain, any stem, the pair of a primary key, further
    AI/value pairs whose AIs have two to four digits, query parameters
    and a fragment, in which no value decodes to a text with a NUL
    byte: when no candidate is rejected, at most [GS1_DL_MAX_AIS] are to
    be stored and the AIs and values to store have fewer than
    [GS1_DL_MAX_AI_BUF] bytes together, the parse succeeds, leaves the
    input as it was and writes nothing past the end of [aiBuf], and the
    context holds exactly the path pairs followed by the numeric query
    parameters, each with its value percent-decoded, cut to
    [GS1_DL_MAX_AI_LEN] bytes and padded when it is a short GTIN, and
    with its separator flag.  Stem, domain, fragment and the parameters
    that are skipped leave no trace. *)
Theorem parse_extracts_elements (ctx : gs1DLparser) (u : dl_parts) :
  parts_ok u -> Forall accepted (candidates u) ->
  length (stored (candidates u)) <= GS1_DL_MAX_AIS ->
  length (packed_bytes (stored (candidates u))) < GS1_DL_MAX_AI_BUF ->
  exists ctx',
    gs1_parseDLuri ctx (uri_of u) = Some (true, ctx', uri_of u)
    /\ extracted ctx' = stored (candidates u)
    /\ numAIs ctx' = length (stored (candidates u))
    /\ err ctx' = []
    /\ inside_aiBuf ctx'.
Proof.
  intros [Hok Hnn] Hacc Hn Hroom.
  destruct (parse_accepted ctx u Hok Hacc Hn) as (ctx' & E & Hp & He).
  exists ctx'. split; [done|].
  destruct (packed_extracted ctx' _ Hp (stored_no_nul _ Hnn)) as [Hx Hc].
  repeat (split; [done|]).
  destruct Hp as (_ & Hl & _). unfold inside_aiBuf. lia.
Qed.

(** X2. The first pair or parameter that is rejected decides the
    failure.  For a URI made of a scheme, a domain, any stem, the pair
    of a primary key, further AI/value pairs whose AIs have two to four
    digits and are no primary keys, query parameters and a fragment:
    when the candidates before the first rejected one are accepted and
    at most [GS1_DL_MAX_AIS] of them are to be stored, the parse fails
    with the message of the rejected one: the empty value of a path
    pair, the all-digit name of a query parameter that has not two to
    four digits (the empty name included), or the empty value of a
    numeric query parameter.  The count is zero and the input is as it
    was. *)
Theorem parse_fails_at_first_rejection (ctx : gs1DLparser) (u : dl_parts)
    (cs1 cs2 : list candidate) (msg : list ascii) :
  parts_shape u -> candidates u = cs1 ++ Reject msg :: cs2 ->
  Forall accepted cs1 -> length (stored cs1) <= GS1_DL_MAX_AIS ->
  exists ctx',
    gs1_parseDLuri ctx (uri_of u) = Some (false, ctx', uri_of u)
    /\ err ctx' = msg /\ numAIs ctx' = 0.
Proof.
  intros Hok Hcs Hacc Hn.
  destruct (parts_shape_structured ctx u Hok) as (ret & ctx' & E & Hres).
  pose proof (candidates_short u Hok) as Hsh. rewrite Hcs in Hsh, Hres.
  apply Forall_app in Hsh as [Hsh1 _].
  destruct (spec_extract_accepted cs1 [] Hacc Hsh1) as [Hs _];
    [apply Forall_nil_2|cbn [length Nat.add]; lia|].
  rewrite spec_extract_app, Hs in Hres. cbn [spec_extract] in Hres.
  destruct Hres as (-> & He & Hc). by exists ctx'.
Qed.

(** X3. One element too many.  For a URI of the same make: when the
    candidates before some candidate to store are accepted and exactly
    [GS1_DL_MAX_AIS] of them are stored, the parse fails with count
    zero and the input as it was: with "Too many AIs" when the AI and
    the decoded value of the further one still fit in [aiBuf] after the
    string that is there (the AIs and the values stored so far, each
    value up to its first NUL byte), and with "Failed to parse DL data"
    when they do not. *)
Theorem parse_fails_on_element_65 (ctx : gs1DLparser) (u : dl_parts)
    (cs1 cs2 : list candidate) (q : bool) (a v : list ascii) :
  parts_shape u -> candidates u = cs1 ++ Store q a v :: cs2 ->
  Forall accepted cs1 -> length (stored cs1) = GS1_DL_MAX_AIS ->
  exists ctx',
    gs1_parseDLuri ctx (uri_of u) = Some (false, ctx', uri_of u)
    /\ numAIs ctx' = 0
    /\ err ctx'
       = if GS1_DL_MAX_AI_BUF
            <? length (packed_bytes (stored cs1)) + length a
               + length (spec_value q a v)
         then str "Failed to parse DL data" else str "Too many AIs".
Proof.
  intros Hok Hcs Hacc Hn.
  destruct (parts_shape_structured ctx u Hok) as (ret & ctx' & E & Hres).
  pose proof (candidates_short u Hok) as Hsh. rewrite Hcs in Hsh, Hres.
  apply Forall_app in Hsh as [Hsh1 _].
  destruct (spec_extract_accepted cs1 [] Hacc Hsh1) as [Hs _];
    [apply Forall_nil_2|cbn [length Nat.add]; lia|].
  rewrite spec_extract_app, Hs in Hres. cbn [spec_extract app] in Hres.
  rewrite Hn, Nat.ltb_irrefl in Hres.
  destruct (_ <? _); destruct Hres as (-> & He & Hc); by exists ctx'.
Qed.
Ltac parts_ok_by_computation :=
  unfold parts_ok, parts_shape;
  repeat match goal with
         | |- _ /\ _ => split
         | |- well_formed _ _ _ _ => well_formed_by_computation
         | |- is_pkey _ = true => reflexivity
         | |- slash_free _ => repeat constructor; apply not_in_by_search; reflexivity
         | |- forall qs, _ = Some qs -> _ =>
             let H := fresh in
             intros ? H; first [ discriminate H | injection H as <- ];
             repeat constructor; apply not_in_by_search; reflexivity
         | |- Forall no_nul_value _ =>
             repeat constructor; apply not_in_by_search; reflexivity
         | |- Forall _ _ => repeat constructor
         end.

Lemma parse_extracts_elements_witness :
  exists ctx',
    gs1_parseDLuri ctx_reset
      (str "https://id.gs1.org/some/stem/01/9520123456788/10/ABC%2F1?17=201225&x=y&lone&&3103=000195#frag")
    = Some (true, ctx',
            str "https://id.gs1.org/some/stem/01/9520123456788/10/ABC%2F1?17=201225&x=y&lone&&3103=000195#frag")
    /\ extracted ctx'
       = [ (str "01", str "09520123456788", false); (str "10", str "ABC/1", true);
           (str "17", str "201225", false); (str "3103", str "000195", false) ].
Proof.
  assert (Hok : parts_ok parts_example) by parts_ok_by_computation.
  assert (Hacc : Forall accepted (candidates parts_example)) by (repeat constructor).
  assert (Hn : length (stored (candidates parts_example)) <= GS1_DL_MAX_AIS)
    by (vm_compute; lia).
  assert (Hroom : length (packed_bytes (stored (candidates parts_example)))
                  < GS1_DL_MAX_AI_BUF) by (vm_compute; lia).
  destruct (parse_extracts_elements ctx_reset parts_example Hok Hacc Hn Hroom)
    as (ctx' & E & Hx & _).
  exists ctx'. split; [exact E|exact Hx].
Defined.

Lemma parse_fails_at_first_rejection_witness :
  exists ctx',
    gs1_parseDLuri ctx_reset (str "https://a/01/12312312312333?99=")
    = Some (false, ctx', str "https://a/01/12312312312333?99=")
    /\ err ctx' = str "AI (99) value query element is empty".
Proof.
  assert (Hok : parts_shape parts_empty_value) by parts_ok_by_computation.
  destruct (parse_fails_at_first_rejection ctx_reset parts_empty_value
              [Store false (str "01") (str "12312312312333")] []
              (str "AI (99) value query element is empty") Hok eq_refl)
    as (ctx' & E & He & _).
  { repeat constructor. }
  { vm_compute. lia. }
  exists ctx'. split; [exact E|exact He].
Defined.

Lemma parse_fails_on_element_65_witness :
  exists ctx',
    gs1_parseDLuri ctx_reset (uri_of parts_65) = Some (false, ctx', uri_of parts_65)
    /\ err ctx' = str "Too many AIs".
Proof.
  assert (Hok : parts_shape parts_65) by parts_ok_by_computation.
  destruct (parse_fails_on_element_65 ctx_reset parts_65
              (map path_candidate
                 ((str "00", str "1") :: replicate 63 (str "10", str "x")))
              [] false (str "10") (str "x") Hok eq_refl)
    as (ctx' & E & _ & He).
  { repeat constructor. }
  { reflexivity. }
  exists ctx'. split; [exact E|exact He].
Defined.

Lemma decoded_too_long_is_unreachable_witness :
  (exists out' n,
      URIunescape aival0 GS1_DL_MAX_AI_LEN (str "abc") 0 3 false = Some (out', n)
      /\ 1 <= n)
  /\ (exists ctx',
        gs1_parseDLuri ctx_reset (uri_of parts_long)
        = Some (true, ctx', uri_of parts_long)
        /\ numAIs ctx' = 2
        /\ map (fun a => (ailen a, vallen a)) (elements ctx')
           = [(2, GS1_DL_MAX_AI_LEN); (2, GS1_DL_MAX_AI_LEN)]
        /\ cstr (aiBuf ctx') 0
           = str "00" ++ replicate GS1_DL_MAX_AI_LEN "7"
             ++ str "10" ++ replicate GS1_DL_MAX_AI_LEN "A").
Proof.
  destruct decoded_too_long_is_unreachable as (_ & H & Hparse & _).
  split.
  - destruct (H aival0 (str "abc") 0 3 false) as (out' & n & E & _ & Hn).
    exists out', n. split; [exact E|]. apply Hn. discriminate.
  - assert (Hok : parts_shape parts_long) by parts_ok_by_computation.
    destruct (Hparse ctx_reset parts_long Hok) as (ctx' & E & Hn & Hl & Hb).
    { repeat constructor. }
    { vm_compute. lia. }
    exists ctx'. split; [exact E|]. split; [exact Hn|]. split; [exact Hl|exact Hb].
Defined.
(** ** What a successful search has found *)

Section Found.
Variables (B : list ascii) (pi : nat).

(** When the search returns a pointer, it points at the pair of a
    primary key, and the pairs after it have AIs of the form of an AI
    that are no primary keys. *)
Lemma find_dp_found (fuel : nat) :
  forall buf p t ps d buf',
    cstr B pi = t ++ render_pairs ps -> slash_free ps -> qualifier_pairs ps ->
    cstr buf pi = t -> poke buf p "/" = B ->
    find_dp fuel buf pi p = Some (buf', Some d) ->
    buf' = B
    /\ exists t' k v ps',
         cstr B pi = t' ++ render_pairs ((k, v) :: ps') /\ d = pi + length t'
         /\ is_pkey k = true /\ slash_free ((k, v) :: ps') /\ qualifier_pairs ps'.
Proof.
  induction fuel as [|fuel IH]; intros buf p t ps d buf' Hs Hps Hq Ht Hp E.
  - simpl in E. by destruct (strrchr buf pi "/").
  - destruct (rindex_of "/" t) as [r|] eqn:Er.
    2:{ apply rindex_of_None in Er.
        rewrite find_dp_no_slash in E by (by rewrite Ht). done. }
    apply rindex_of_Some in Er as (t1 & v & -> & _ & Hv).
    destruct (rindex_of "/" t1) as [r1|] eqn:Er1.
    2:{ rewrite (find_dp_one_slash B pi fuel buf p t1 v (render_pairs ps)) in E;
          try done.
        - rewrite Hs, <- app_assoc. reflexivity.
        - by apply rindex_of_None. }
    apply rindex_of_Some in Er1 as (t0 & a & -> & _ & Ha).
    rewrite <- !app_assoc in Hs. rewrite <- !app_assoc in Ht.
    simpl in Hs, Ht.
    rewrite (find_dp_step B pi fuel buf p t0 a v (render_pairs ps)) in E by done.
    assert (Hps' : slash_free ((a, v) :: ps)) by (constructor; done).
    destruct (valid_AI_form a) eqn:Eva; simpl in E; [|done].
    destruct (is_pkey a) eqn:Ek.
    { injection E as <- <-. split; [done|].
      exists t0, a, v, ps. by rewrite render_pairs_cons. }
    apply (IH (poke B (pi + length t0) NUL) (pi + length t0) t0 ((a, v) :: ps)
             d buf'); try done.
    + by rewrite render_pairs_cons.
    + by constructor.
    + by apply (cstr_poke_nul _ _ _ _ _ Hs).
    + by apply poke_restore, (cstr_lookup _ _ _ _ _ Hs).
Qed.
End Found.
(** ** Invariants of the context *)

(** The splitter either fails with one of its three messages, the
    input untouched, or hands the buffer to the search with the path
    starting at a '/'. *)
Lemma parse_cases (ctx : gs1DLparser) (dlData : list ascii) :
  (exists msg,
      msg <> []
      /\ gs1_parseDLuri ctx dlData
         = Some (label_fail (set_err ctx_reset msg) dlData None None))
  \/ (exists B pi qp fr,
        B !! pi = Some "/" /\ length B = length dlData
        /\ gs1_parseDLuri ctx dlData
           = locate_and_extract (S (length dlData)) ctx_reset B pi qp fr).
Proof.
  unfold gs1_parseDLuri.
  destruct (negb _).
  { left. eexists. split; [|reflexivity]. done. }
  destruct (_ && _).
  2: destruct (_ && _).
  3:{ left. eexists. split; [|reflexivity]. done. }
  all: match goal with
       | |- context [strchr ?d ?p "/"] =>
           destruct (strchr d p "/") as [r|] eqn:Er;
             [|left; eexists; split; [|reflexivity]; done];
           destruct (r - p <? 1); [left; eexists; split; [|reflexivity]; done|]
       end.
  all: apply strchr_lookup in Er.
  all: destruct (strchr _ _ "#") as [f|] eqn:Ef;
         [apply strchr_lookup in Ef|].
  all: destruct (strchr _ _ "?") as [q|] eqn:Eq;
         [apply strchr_lookup in Eq|].
  all: right; do 4 eexists; split; [|split; [|reflexivity]].
  all: try (unfold poke; rewrite ?length_insert; reflexivity).
  all: repeat first [ exact Er
                    | eapply chop_keeps; [|eassumption|discriminate] ].
Qed.
Lemma writeAIbuf_ok (ctx : gs1DLparser) (buf : list ascii) (p l : nat) :
  aiBuf_ok ctx ->
  match writeAIbuf ctx (cstr buf p) l with
  | Cont ctx' => aiBuf_ok ctx'
  | GotoFail c => c = ctx
  end.
Proof.
  intros [Hs Hl]. unfold writeAIbuf.
  destruct (Nat.ltb_spec GS1_DL_MAX_AI_BUF (strlen (aiBuf ctx) 0 + l)); [done|].
  assert (Hn : NUL ∉ take l (cstr buf p)) by apply take_no_nul, cstr_no_nul.
  unfold aiBuf_ok. cbn [aiBuf set_aiBuf]. unfold strlen at 1.
  rewrite strncat_cstr, length_app, strncat_length by done.
  fold (strlen (aiBuf ctx) 0).
  pose proof (length_take_le (cstr buf p) l). rewrite length_take in *. lia.
Qed.

Lemma store_AI_aiBuf_ok (ctx : gs1DLparser) (buf : list ascii) (ai ailen : nat)
    (aival : list ascii) (vlen : nat) :
  aiBuf_ok ctx -> aiBuf_ok (flow_ctx (store_AI ctx buf ai ailen aival vlen)).
Proof.
  intros Hok. unfold store_AI. destruct (gtin14 _ _ _ _ _) as [aival' vlen'].
  pose proof (writeAIbuf_ok ctx buf ai ailen Hok) as H1.
  destruct (writeAIbuf ctx (cstr buf ai) ailen) as [ctx1|c]; [|by subst].
  pose proof (writeAIbuf_ok ctx1 aival' 0 vlen' H1) as H2.
  destruct (writeAIbuf ctx1 (cstr aival' 0) vlen') as [ctx2|c]; [|by subst].
  by destruct (_ <? _).
Qed.

Lemma path_loop_aiBuf_ok (B : list ascii) (fuel : nat) :
  forall ctx aival p f,
    aiBuf_ok ctx -> path_loop fuel B ctx aival p = Some f -> aiBuf_ok (flow_ctx f).
Proof.
  induction fuel as [|fuel IH]; intros ctx aival p f Hok; cbn [path_loop].
  - destruct (Ascii.eqb _ _); [|done]. by intros [= <-].
  - destruct (Ascii.eqb _ _); [by intros [= <-]|].
    destruct (strchr B (p + 1) "/") as [r|]; [|done].
    destruct (_ =? _); [by intros [= <-]|].
    destruct (URIunescape _ _ _ _ _ _) as [[aival' vlen]|]; [|done].
    destruct (vlen =? 0); [by intros [= <-]|].
    pose proof (store_AI_aiBuf_ok ctx B (p + 1) (r - (p + 1)) aival' vlen Hok) as Hst.
    destruct (store_AI _ _ _ _ _ _) as [[ctx' aival'']|c]; [|by intros [= <-]].
    by apply IH.
Qed.

Lemma query_loop_aiBuf_ok (B : list ascii) (fuel : nat) :
  forall ctx aival p f,
    aiBuf_ok ctx -> query_loop fuel B ctx aival p = Some f -> aiBuf_ok (flow_ctx f).
Proof.
  induction fuel as [|fuel IH]; intros ctx aival p f Hok; cbn [query_loop].
  - destruct (Ascii.eqb _ _); [|done]. by intros [= <-].
  - destruct (Ascii.eqb _ _); [by intros [= <-]|].
    destruct (memchr _ _ _ _) as [e|]; [|by apply IH].
    destruct (allDigits _ _ _); [|by apply IH].
    destruct (_ || _); [by intros [= <-]|].
    destruct (_ =? _); [by intros [= <-]|].
    destruct (URIunescape _ _ _ _ _ _) as [[aival' vlen]|]; [|done].
    destruct (vlen =? 0); [by intros [= <-]|].
    match goal with
    | |- context [store_AI ?c ?b ?a ?l ?v ?n] =>
        pose proof (store_AI_aiBuf_ok c b a l v n Hok) as Hst;
        destruct (store_AI c b a l v n) as [[ctx' aival'']|c']
    end; [|by intros [= <-]].
    by apply IH.
Qed.

Lemma label_fail_aiBuf (c : gs1DLparser) (buf : list ascii) (qp fr : option nat) :
  aiBuf (snd (fst (label_fail c buf qp fr))) = aiBuf c.
Proof. unfold label_fail, label_out. simpl. by destruct (err c). Qed.

Lemma aiBuf_ok_reset : aiBuf_ok ctx_reset.
Proof. unfold aiBuf_ok. vm_compute. lia. Qed.

Lemma locate_and_extract_aiBuf_ok (fuel : nat) (B : list ascii) (pi : nat)
    (qp fr : option nat) (ret : bool) (ctx' : gs1DLparser) (buf' : list ascii) :
  locate_and_extract fuel ctx_reset B pi qp fr = Some (ret, ctx', buf') ->
  aiBuf_ok ctx'.
Proof.
  unfold locate_and_extract.
  assert (Hfail : forall c b,
             aiBuf_ok c -> Some (label_fail c b qp fr) = Some (ret, ctx', buf') ->
             aiBuf_ok ctx').
  { intros c b Hc E. pose proof (label_fail_aiBuf c b qp fr) as Ha.
    assert (E' : label_fail c b qp fr = (ret, ctx', buf')) by congruence.
    rewrite E' in Ha. simpl in Ha. unfold aiBuf_ok. by rewrite Ha. }
  destruct (find_dp fuel B pi pi) as [[buf [dp|]]|]; [| |done].
  2:{ apply Hfail. apply aiBuf_ok_reset. }
  destruct (path_loop fuel buf ctx_reset aival0 dp) as [f|] eqn:Ep; [|done].
  apply path_loop_aiBuf_ok in Ep; [|apply aiBuf_ok_reset].
  destruct f as [[ctx1 aival1]|c]; [|by apply Hfail].
  simpl in Ep. destruct qp as [q|].
  2:{ unfold label_out. by intros [= <- <- <-]. }
  destruct (query_loop fuel buf ctx1 aival1 q) as [f|] eqn:Eq; [|done].
  apply query_loop_aiBuf_ok in Eq; [|done].
  destruct f as [[ctx2 aival2]|c]; [|by apply Hfail].
  unfold label_out. by intros [= <- <- <-].
Qed.

(** X4. The string in [aiBuf] never grows past the capacity of the
    array, whatever the input and however the parse ends; what may fall
    outside is its terminator, by one byte. *)
Theorem aiBuf_overrun_is_one_byte (ctx : gs1DLparser) (dlData : list ascii) :
  exists ret ctx' buf',
    gs1_parseDLuri ctx dlData = Some (ret, ctx', buf')
    /\ strlen (aiBuf ctx') 0 <= GS1_DL_MAX_AI_BUF
    /\ length (aiBuf ctx') <= GS1_DL_MAX_AI_BUF + 1.
Proof.
  destruct (gs1_parseDLuri_outcome ctx dlData) as (ret & ctx' & buf' & E & _).
  exists ret, ctx', buf'. split; [done|].
  destruct (parse_cases ctx dlData) as [(msg & _ & E')|(B & pi & qp & fr & _ & _ & E')].
  - rewrite E in E'. pose proof (label_fail_aiBuf (set_err ctx_reset msg) dlData None None) as Ha.
    assert (E2 : label_fail (set_err ctx_reset msg) dlData None None
                 = (ret, ctx', buf')) by congruence.
    rewrite E2 in Ha. simpl in Ha.
    change (aiBuf_ok ctx'). unfold aiBuf_ok. rewrite Ha. apply aiBuf_ok_reset.
  - rewrite E in E'. symmetry in E'.
    by apply locate_and_extract_aiBuf_ok in E'.
Qed.
Lemma gtin14_length (buf : list ascii) (ai ailen : nat) (aival : list ascii)
    (vlen : nat) :
  snd (gtin14 buf ai ailen aival vlen) = vlen
  \/ snd (gtin14 buf ai ailen aival vlen) = 14.
Proof. unfold gtin14. destruct (_ && _ && _); [by right|by left]. Qed.

Lemma store_AI_context_ok (ctx : gs1DLparser) (buf : list ascii) (o l : nat)
    (aival : list ascii) (vlen : nat) :
  context_ok ctx -> 2 <= l <= 4 -> l <= strlen buf o ->
  1 <= vlen <= GS1_DL_MAX_AI_LEN ->
  match store_AI ctx buf o l aival vlen with
  | Cont (ctx', _) => context_ok ctx' /\ numAIs ctx' = numAIs ctx + 1
  | GotoFail _ => True
  end.
Proof.
  intros (Hn & Hlen & Hall) Ha Hs Hv. unfold store_AI.
  pose proof (gtin14_length buf o l aival vlen) as Hg.
  destruct (gtin14 buf o l aival vlen) as [aival' vlen']. simpl in Hg.
  assert (Hv' : 1 <= vlen' <= GS1_DL_MAX_AI_LEN).
  { unfold GS1_DL_MAX_AI_LEN in *. lia. }
  assert (Hna : NUL ∉ take l (cstr buf o)) by apply take_no_nul, cstr_no_nul.
  destruct (writeAIbuf ctx (cstr buf o) l) as [ctx1|c] eqn:E1; [|done].
  destruct (writeAIbuf_strlen ctx ctx1 _ _ Hna E1) as [Hs1 _].
  assert (Hd1 : aiData ctx1 = aiData ctx /\ numAIs ctx1 = numAIs ctx).
  { unfold writeAIbuf in E1. destruct (_ <? _); [done|]. by injection E1 as <-. }
  destruct (writeAIbuf ctx1 (cstr aival' 0) vlen') as [ctx2|c] eqn:E2; [|done].
  assert (Hd2 : aiData ctx2 = aiData ctx1 /\ numAIs ctx2 = numAIs ctx1).
  { unfold writeAIbuf in E2. destruct (_ <? _); [done|]. by injection E2 as <-. }
  destruct Hd1 as [Hd1 Hn1], Hd2 as [Hd2 Hn2].
  rewrite Hn2, Hn1, Hd2, Hd1.
  destruct (Nat.ltb_spec (numAIs ctx) GS1_DL_MAX_AIS); [|done].
  split; [|done]. unfold context_ok. cbn [numAIs aiData].
  rewrite <- Hlen, firstn_all.
  split; [lia|]. split; [rewrite length_app; simpl; lia|].
  apply Forall_app. split; [done|]. constructor; [|done].
  unfold element_ok. cbn [ai ailen value vallen].
  split; [done|]. split; [done|].
  rewrite Hs1, length_take. unfold strlen in Hs. lia.
Qed.

Section PathBounds.
Variable B : list ascii.

Lemma path_loop_context_ok (ps : list (list ascii * list ascii)) :
  forall fuel ctx aival p f,
    cstr B p = render_pairs ps -> slash_free ps ->
    Forall (fun av => valid_AI_form (fst av) = true) ps ->
    context_ok ctx -> path_loop fuel B ctx aival p = Some f ->
    match f with
    | Cont (c, _) => context_ok c /\ numAIs c = numAIs ctx + length ps
    | GotoFail _ => True
    end.
Proof.
  induction ps as [|[a v] ps IH]; intros fuel ctx aival p f Hs Hsf Hva Hok E.
  - apply cstr_nil_peek in Hs.
    assert (f = Cont (ctx, aival)) as ->.
    { destruct fuel; simpl in E; rewrite Hs in E; simpl in E; congruence. }
    simpl. split; [done|lia].
  - rewrite render_pairs_cons in Hs.
    destruct fuel as [|fuel].
    { simpl in E. pose proof (cstr_peek B p [] _ _ Hs) as Hp. simpl in Hp.
      rewrite Nat.add_0_r in Hp. rewrite Hp in E. done. }
    apply Forall_cons in Hsf as [[Ha Hv] Hsf]. simpl in Ha, Hv.
    apply Forall_cons in Hva as [Hvalid Hva]. simpl in Hvalid.
    rewrite (path_loop_step B fuel ctx aival p a v (render_pairs ps)) in E; try done.
    2:{ destruct ps as [|[a' v'] ps']; [by left|right].
        rewrite render_pairs_cons. by eexists. }
    destruct v as [|c v]; [by injection E as <-|].
    destruct (URIunescape_total aival GS1_DL_MAX_AI_LEN B
                (p + 1 + length a + 1) (length (c :: v)) false)
      as (aival' & n & Eu & Hmax & Hmin).
    rewrite Eu in E.
    destruct (Nat.eqb_spec n 0) as [Hz|Hn0]; [by injection E as <-|].
    assert (Hai : cstr B (p + 1) = a ++ "/" :: (c :: v) ++ render_pairs ps)
      by (by apply (cstr_suffix B p ["/"])).
    pose proof (store_AI_context_ok ctx B (p + 1) (length a) aival' n Hok
                  (valid_AI_form_length a Hvalid)) as Hst.
    destruct (store_AI ctx B (p + 1) (length a) aival' n) as [[ctx' aival'']|c'];
      [|by injection E as <-].
    destruct Hst as [Hok' Hn']; [unfold strlen; rewrite Hai, length_app; lia|lia|].
    apply IH in E; try done.
    + destruct f as [[c0 ?]|]; [|done]. destruct E as [? ->].
      split; [done|]. simpl. lia.
    + replace (p + 1 + length a + 1 + length (c :: v))
        with (p + length ("/" :: a ++ "/" :: c :: v))
        by (simpl; rewrite length_app; simpl; lia).
      apply cstr_suffix. rewrite Hs. simpl. rewrite <- app_assoc. done.
Qed.
End PathBounds.

Lemma query_loop_context_ok (buf : list ascii) (fuel : nat) :
  forall ctx aival p f,
    context_ok ctx -> query_loop fuel buf ctx aival p = Some f ->
    match f with
    | Cont (c, _) => context_ok c /\ numAIs ctx <= numAIs c
    | GotoFail _ => True
    end.
Proof.
  induction fuel as [|fuel IH]; intros ctx aival p f Hok; cbn [query_loop].
  - destruct (Ascii.eqb _ _); [|done]. by intros [= <-].
  - destruct (Ascii.eqb _ _); [by intros [= <-]|].
    set (p1 := p + count_amp (drop p buf)).
    set (r := match strchr buf p1 "&" with
              | Some r => r
              | None => p1 + strlen buf p1
              end).
    assert (Hr : r - p1 <= strlen buf p1).
    { unfold r. destruct (strchr buf p1 "&") as [r0|] eqn:Er; [|lia].
      apply strchr_Some in Er as (a & b & Hs & -> & _).
      unfold strlen. rewrite Hs, length_app. lia. }
    destruct (memchr buf p1 "=" (r - p1)) as [e|] eqn:Em; [|by apply IH].
    apply memchr_Some in Em.
    destruct (allDigits _ _ _); [|by apply IH].
    destruct (Nat.ltb_spec (e - p1) 2) as [?|Hge2]; [by intros [= <-]|].
    destruct (Nat.ltb_spec 4 (e - p1)) as [?|Hle4]; [by intros [= <-]|]. simpl.
    destruct (Nat.eqb_spec r (e + 1)) as [?|Hre]; [by intros [= <-]|].
    destruct (URIunescape_total aival GS1_DL_MAX_AI_LEN buf (e + 1) (r - (e + 1)) true)
      as (aival' & n & -> & Hmax & Hmin).
    destruct (Nat.eqb_spec n 0) as [Hz|Hn0]; [by intros [= <-]|].
    pose proof (store_AI_context_ok ctx buf p1 (e - p1) aival' n Hok) as Hst.
    destruct (store_AI ctx buf p1 (e - p1) aival' n) as [[ctx' aival'']|c'];
      [|by intros [= <-]].
    destruct Hst as [Hok' Hn']; [lia|lia|lia|].
    intros E. apply IH in E; [|done].
    destruct f as [[c0 ?]|]; [|done]. destruct E as [? ?]. split; [done|lia].
Qed.

Lemma context_ok_reset : context_ok ctx_reset.
Proof. unfold context_ok. simpl. split; [unfold GS1_DL_MAX_AIS; lia|]. by split. Qed.

Lemma locate_and_extract_context_ok (fuel : nat) (B : list ascii) (pi : nat)
    (qp fr : option nat) (ctx' : gs1DLparser) (buf' : list ascii) :
  B !! pi = Some "/" ->
  locate_and_extract fuel ctx_reset B pi qp fr = Some (true, ctx', buf') ->
  context_ok ctx' /\ 1 <= numAIs ctx'.
Proof.
  intros Hpi. unfold locate_and_extract.
  destruct (find_dp fuel B pi pi) as [[buf [d|]]|] eqn:Ef; [| |done].
  2:{ unfold label_fail, label_out. by intros [= ? ?]. }
  destruct (find_dp_found B pi fuel B pi (cstr B pi) [] d buf)
    as (-> & t' & k & v & ps & Hs & -> & Hkey & Hsf & Hq); try done.
  { by rewrite app_nil_r. }
  { constructor. }
  { constructor. }
  { by apply poke_id. }
  destruct (path_loop fuel B ctx_reset aival0 (pi + length t')) as [f|] eqn:Ep;
    [|done].
  apply (path_loop_context_ok B ((k, v) :: ps)) in Ep; try done.
  2:{ by apply cstr_suffix. }
  2:{ constructor; [by apply pkey_valid_form|].
      eapply Forall_impl; [exact Hq|]. by intros ? [? _]. }
  2:{ apply context_ok_reset. }
  destruct f as [[ctx1 aival1]|c].
  2:{ unfold label_fail, label_out. by intros [= ? ?]. }
  destruct Ep as [Hok1 Hn1]. simpl in Hn1.
  destruct qp as [q|].
  2:{ unfold label_out. intros [= <- <-]. split; [done|lia]. }
  destruct (query_loop fuel B ctx1 aival1 q) as [f|] eqn:Eq; [|done].
  apply query_loop_context_ok in Eq; [|done].
  destruct f as [[ctx2 aival2]|c].
  2:{ unfold label_fail, label_out. by intros [= ? ?]. }
  unfold label_out. intros [= <- <-]. destruct Eq. split; [done|lia].
Qed.

Lemma context_ok_elements (ctx : gs1DLparser) :
  context_ok ctx -> elements ctx = aiData ctx.
Proof.
  intros (_ & Hl & _). unfold elements, aiData_at. rewrite <- Hl.
  apply nth_seq_all.
Qed.

(** X5. What every successful parse leaves in the context, whatever the
    input: between one and [GS1_DL_MAX_AIS] elements, each with an AI of
    two to four bytes and a value of one to [GS1_DL_MAX_AI_LEN] bytes.
    The value of every element after the first starts in [aiBuf] where
    its AI ends, and so does the value of the first when the parse wrote
    nothing past the end of [aiBuf] (the byte after the array is the
    first byte of the pointer to the AI of the first element). *)
Theorem successful_parse_is_bounded (ctx : gs1DLparser) (dlData : list ascii) :
  exists ret ctx' buf',
    gs1_parseDLuri ctx dlData = Some (ret, ctx', buf')
    /\ (ret = true ->
        1 <= numAIs ctx' <= GS1_DL_MAX_AIS
        /\ length (elements ctx') = numAIs ctx'
        /\ Forall (fun a => 2 <= ailen a <= 4
                            /\ 1 <= vallen a <= GS1_DL_MAX_AI_LEN)
                  (elements ctx')
        /\ Forall (fun a => value a = ai a + ailen a) (tail (elements ctx'))
        /\ (inside_aiBuf ctx' ->
            Forall (fun a => value a = ai a + ailen a) (elements ctx'))).
Proof.
  destruct (gs1_parseDLuri_outcome ctx dlData) as (ret & ctx' & buf' & E & _).
  exists ret, ctx', buf'. split; [done|]. intros ->.
  destruct (parse_cases ctx dlData) as [(msg & _ & E')|(B & pi & qp & fr & Hpi & _ & E')].
  - rewrite E in E'. unfold label_fail, label_out in E'. by injection E'.
  - rewrite E in E'. symmetry in E'.
    apply locate_and_extract_context_ok in E' as [Hok Hn]; [|done].
    rewrite (context_ok_elements ctx' Hok).
    destruct Hok as (Hmax & Hl & Hall).
    assert (Hval : Forall (fun a => value a = ai a + ailen a) (aiData ctx')).
    { eapply Forall_impl; [exact Hall|]. by intros a (_ & _ & ?). }
    split; [done|]. split; [done|]. split; [|split; [|done]].
    + eapply Forall_impl; [exact Hall|]. by intros a (? & ? & _).
    + destruct (aiData ctx'); [done|]. by apply Forall_cons in Hval as [_ ?].
Qed.
(** ** The sizes of the writers' outputs *)

Lemma emission_order_perm (fixedFirst : bool) (els : list gs1AIelement) :
  emission_order fixedFirst els ≡ₚ els.
Proof. destruct fixedFirst; [apply fixed_first_perm|done]. Qed.

Lemma concat_length_bound (item : gs1AIelement -> list ascii) (b : nat)
    (l : list gs1AIelement) :
  Forall (fun a => length (item a) <= b) l ->
  length (concat (map item l)) <= length l * b.
Proof.
  induction 1 as [|a l Ha _ IH]; simpl; [lia|]. rewrite length_app. lia.
Qed.

Lemma prec_s_length (ctx : gs1DLparser) (n p : nat) : length (prec_s ctx n p) <= n.
Proof. unfold prec_s. rewrite length_take. lia. Qed.

Lemma escaped_value_length (ctx : gs1DLparser) (esc : ascii -> bool)
    (a : gs1AIelement) :
  length (escaped_value ctx esc a) <= 2 * vallen a.
Proof.
  unfold escaped_value. cbv zeta.
  assert (Hl : forall l : list nat,
             length (flat_map
                       (fun j => if esc (peek (aiBuf ctx) (value a + j))
                                 then ["\"; peek (aiBuf ctx) (value a + j)]
                                 else [peek (aiBuf ctx) (value a + j)]) l)
             <= 2 * length l).
  { induction l as [|j l IH]; cbn [flat_map length]; [lia|].
    rewrite length_app. destruct (esc _); cbn [length]; lia. }
  etrans; [apply Hl|]. by rewrite length_seq.
Qed.

Lemma escaped_value_plain (ctx : gs1DLparser) (esc : ascii -> bool)
    (a : gs1AIelement) :
  (forall j, j < vallen a -> esc (peek (aiBuf ctx) (value a + j)) = false) ->
  length (escaped_value ctx esc a) = vallen a.
Proof.
  intros H. unfold escaped_value. cbv zeta.
  assert (Hl : forall l, Forall (fun j => j < vallen a) l ->
                 length (flat_map
                           (fun j => if esc (peek (aiBuf ctx) (value a + j))
                                     then ["\"; peek (aiBuf ctx) (value a + j)]
                                     else [peek (aiBuf ctx) (value a + j)]) l)
                 = length l).
  { induction 1 as [|j l Hj _ IH]; cbn [flat_map length]; [done|].
    rewrite length_app, IH, (H j Hj). done. }
  rewrite Hl, length_seq; [done|].
  apply Forall_forall. intros j Hj. apply elem_of_seq in Hj. lia.
Qed.

Lemma strip_last (y : list ascii) :
  (if Ascii.eqb (peek (y ++ ["^"]) (length (y ++ ["^"]) - 1)) "^"
   then take (length (y ++ ["^"]) - 1) (y ++ ["^"]) else y ++ ["^"]) = y.
Proof.
  rewrite length_app. simpl. rewrite Nat.add_sub.
  rewrite <- (Nat.add_0_r (length y)) at 1. rewrite peek_app_r.
  change (peek ["^"] 0) with "^". simpl. by rewrite take_app_length.
Qed.

Lemma strip_shorter (s : list ascii) :
  length (if Ascii.eqb (peek s (length s - 1)) "^"
          then take (length s - 1) s else s) <= length s.
Proof. destruct (Ascii.eqb _ _); [rewrite length_take|]; lia. Qed.

Section Sizes.
Variable ctx : gs1DLparser.
Hypothesis Hcount : length (elements ctx) <= GS1_DL_MAX_AIS.
Hypothesis Hels : Forall element_ok (elements ctx).

Lemma emitted_count (fixedFirst : bool) :
  length (emission_order fixedFirst (elements ctx)) <= GS1_DL_MAX_AIS.
Proof. by rewrite (Permutation_length (emission_order_perm _ _)). Qed.

Lemma emitted_ok (fixedFirst : bool) :
  Forall element_ok (emission_order fixedFirst (elements ctx)).
Proof. by rewrite (emission_order_perm fixedFirst (elements ctx)). Qed.

Lemma unbr_item_cases (extraFNC1 : bool) (a : gs1AIelement) :
  element_ok a ->
  (exists x, unbr_item ctx extraFNC1 a = x ++ ["^"]
             /\ length x <= 4 + GS1_DL_MAX_AI_LEN)
  \/ length (unbr_item ctx extraFNC1 a) <= 4 + GS1_DL_MAX_AI_LEN.
Proof.
  intros (Ha & Hv & _). unfold unbr_item.
  pose proof (prec_s_length ctx (ailen a) (ai a)).
  pose proof (prec_s_length ctx (vallen a) (value a)).
  destruct (extraFNC1 || fnc1 a).
  - left. eexists. split; [by rewrite app_assoc|]. rewrite length_app. lia.
  - right. rewrite app_nil_r, length_app. lia.
Qed.

Lemma unbr_item_length (extraFNC1 : bool) (a : gs1AIelement) :
  element_ok a -> length (unbr_item ctx extraFNC1 a) <= 4 + GS1_DL_MAX_AI_LEN + 1.
Proof.
  intros Ha. destruct (unbr_item_cases extraFNC1 a Ha) as [(x & -> & Hx)|H].
  - rewrite length_app. cbn [length]. lia.
  - lia.
Qed.

Lemma unbracketed_size (fixedFirst extraFNC1 : bool) :
  length (gs1_writeUnbracketedAIelementString ctx fixedFirst extraFNC1) + 1
  <= GS1_DL_MAX_OUT_UNBR.
Proof.
  unfold gs1_writeUnbracketedAIelementString.
  rewrite (passes_emit ctx (unbr_item ctx extraFNC1)).
  pose proof (emitted_count fixedFirst) as Hn.
  pose proof (emitted_ok fixedFirst) as Hok.
  set (l := emission_order fixedFirst (elements ctx)) in *.
  unfold GS1_DL_MAX_OUT_UNBR.
  clearbody l.
  destruct (decide (l = [])) as [->|Hne].
  { simpl. lia. }
  destruct (exists_last Hne) as (l0 & a & ->). clear Hne.
  apply Forall_app in Hok as [Hok0 Hoka]. rewrite Forall_singleton in Hoka.
  rewrite length_app in Hn. cbn [length] in Hn.
  assert (Hb0 : Forall (fun a => length (unbr_item ctx extraFNC1 a)
                                 <= 4 + GS1_DL_MAX_AI_LEN + 1) l0).
  { eapply Forall_impl; [exact Hok0|]. intros b Hb. by apply unbr_item_length. }
  pose proof (concat_length_bound _ _ _ Hb0) as Hl0.
  rewrite map_app, concat_app. cbn [map concat]. rewrite app_nil_r.
  set (C0 := concat (map (unbr_item ctx extraFNC1) l0)) in *.
  assert (Hfit : 1 + length C0 + (4 + GS1_DL_MAX_AI_LEN) + 1
                 <= GS1_DL_MAX_AIS * (4 + GS1_DL_MAX_AI_LEN + 1) + 1).
  { unfold GS1_DL_MAX_AIS, GS1_DL_MAX_AI_LEN in *. lia. }
  destruct (unbr_item_cases extraFNC1 a Hoka) as [(x & -> & Hx)|Hshort].
  - replace (["^"] ++ C0 ++ x ++ ["^"]) with ((["^"] ++ C0 ++ x) ++ ["^"])
      by (by rewrite <- !app_assoc).
    rewrite strip_last. rewrite !length_app. cbn [length].
    unfold GS1_DL_MAX_AIS, GS1_DL_MAX_AI_LEN in *. lia.
  - etrans; [apply Nat.add_le_mono_r, strip_shorter|].
    rewrite !length_app. cbn [length].
    unfold GS1_DL_MAX_AIS, GS1_DL_MAX_AI_LEN in *. lia.
Qed.

Lemma unbracketed_size_before_strip (fixedFirst extraFNC1 : bool) :
  length ("^" :: concat (map (unbr_item ctx extraFNC1)
                           (emission_order fixedFirst (elements ctx))))
  <= GS1_DL_MAX_OUT_UNBR.
Proof.
  pose proof (emitted_count fixedFirst) as Hn.
  pose proof (emitted_ok fixedFirst) as Hok.
  set (l := emission_order fixedFirst (elements ctx)) in *.
  assert (Hb : Forall (fun a => length (unbr_item ctx extraFNC1 a)
                                <= 4 + GS1_DL_MAX_AI_LEN + 1) l).
  { eapply Forall_impl; [exact Hok|]. intros b Hb. by apply unbr_item_length. }
  pose proof (concat_length_bound _ _ _ Hb) as Hl.
  cbn [length]. unfold GS1_DL_MAX_OUT_UNBR.
  unfold GS1_DL_MAX_AIS, GS1_DL_MAX_AI_LEN in *. lia.
Qed.

Lemma brkt_item_length (a : gs1AIelement) :
  element_ok a -> length (brkt_item ctx a) <= 4 + GS1_DL_MAX_AI_LEN * 2 + 2.
Proof.
  intros (Ha & Hv & _). unfold brkt_item.
  pose proof (prec_s_length ctx (ailen a) (ai a)).
  pose proof (escaped_value_length ctx (fun c => Ascii.eqb c "(") a).
  cbn [length]. rewrite length_app. cbn [length]. lia.
Qed.

Lemma bracketed_size (fixedFirst : bool) :
  length (gs1_writeBracketedAIelementString ctx fixedFirst) + 1
  <= GS1_DL_MAX_OUT_BRKT.
Proof.
  unfold gs1_writeBracketedAIelementString.
  rewrite (passes_emit ctx (brkt_item ctx)).
  pose proof (emitted_count fixedFirst) as Hn.
  pose proof (emitted_ok fixedFirst) as Hok.
  set (l := emission_order fixedFirst (elements ctx)) in *.
  assert (Hb : Forall (fun a => length (brkt_item ctx a)
                                <= 4 + GS1_DL_MAX_AI_LEN * 2 + 2) l).
  { eapply Forall_impl; [exact Hok|]. intros b Hb. by apply brkt_item_length. }
  pose proof (concat_length_bound _ _ _ Hb) as Hl.
  cbn [app]. unfold GS1_DL_MAX_OUT_BRKT.
  unfold GS1_DL_MAX_AIS, GS1_DL_MAX_AI_LEN in *. lia.
Qed.

Lemma json_item_length (a : gs1AIelement) :
  element_ok a ->
  length (json_item ctx a) <= 4 + GS1_DL_MAX_AI_LEN * 2 + 6
  /\ ((forall j, j < vallen a ->
         (Ascii.eqb (peek (aiBuf ctx) (value a + j)) "\"
          || Ascii.eqb (peek (aiBuf ctx) (value a + j)) dquote) = false) ->
      length (json_item ctx a) <= 4 + GS1_DL_MAX_AI_LEN + 6).
Proof.
  intros (Ha & Hv & _). unfold json_item.
  pose proof (prec_s_length ctx (ailen a) (ai a)).
  pose proof (escaped_value_length ctx
                (fun c => Ascii.eqb c "\" || Ascii.eqb c dquote) a).
  cbn [length]. rewrite !length_app. cbn [length]. split; [lia|].
  intros Hplain.
  rewrite (escaped_value_plain ctx (fun c => Ascii.eqb c "\" || Ascii.eqb c dquote) a)
    by done.
  lia.
Qed.

Lemma json_length (fixedFirst : bool) :
  length (gs1_writeJSON ctx fixedFirst)
  = 1 + length (concat (map (json_item ctx)
                          (emission_order fixedFirst (elements ctx)))).
Proof.
  unfold gs1_writeJSON. rewrite (passes_emit ctx (json_item ctx)).
  unfold poke. by rewrite length_insert.
Qed.

Lemma json_size (fixedFirst : bool) :
  length (gs1_writeJSON ctx fixedFirst) + 1
  <= GS1_DL_MAX_AIS * (4 + GS1_DL_MAX_AI_LEN * 2 + 6) + 2.
Proof.
  rewrite json_length.
  pose proof (emitted_count fixedFirst) as Hn.
  pose proof (emitted_ok fixedFirst) as Hok.
  set (l := emission_order fixedFirst (elements ctx)) in *.
  assert (Hb : Forall (fun a => length (json_item ctx a)
                                <= 4 + GS1_DL_MAX_AI_LEN * 2 + 6) l).
  { eapply Forall_impl; [exact Hok|]. intros b Hb. by apply json_item_length. }
  pose proof (concat_length_bound _ _ _ Hb) as Hl.
  unfold GS1_DL_MAX_AIS, GS1_DL_MAX_AI_LEN in *. lia.
Qed.

End Sizes.
(** What the writers' size lemmas need, from a successful parse. *)
Lemma parse_leaves_bounded (ctx : gs1DLparser) (dlData : list ascii) :
  exists ret ctx' buf',
    gs1_parseDLuri ctx dlData = Some (ret, ctx', buf')
    /\ (ret = true ->
        length (elements ctx') <= GS1_DL_MAX_AIS
        /\ Forall element_ok (elements ctx')).
Proof.
  destruct (gs1_parseDLuri_outcome ctx dlData) as (ret & ctx' & buf' & E & _).
  exists ret, ctx', buf'. split; [done|]. intros ->.
  destruct (parse_cases ctx dlData) as [(msg & _ & E')|(B & pi & qp & fr & Hpi & _ & E')].
  - rewrite E in E'. unfold label_fail, label_out in E'. by injection E'.
  - rewrite E in E'. symmetry in E'.
    apply locate_and_extract_context_ok in E' as [Hok Hn]; [|done].
    rewrite (context_ok_elements ctx' Hok).
    destruct Hok as (Hmax & Hl & Hall). split; [lia|done].
Qed.

(** X6. After a successful parse the unbracketed element string fits the
    buffer size that gs1dlparser.h prescribes, [GS1_DL_MAX_OUT_UNBR],
    under every setting of the two flags: the bytes stored before the
    last separator is dropped, and the final string with its
    terminator. *)
Theorem unbracketed_output_fits (ctx : gs1DLparser) (dlData : list ascii) :
  exists ret ctx' buf',
    gs1_parseDLuri ctx dlData = Some (ret, ctx', buf')
    /\ (ret = true ->
        forall fixedFirst extraFNC1,
          length ("^" :: concat (map (unbr_item ctx' extraFNC1)
                                   (emission_order fixedFirst (elements ctx'))))
          <= GS1_DL_MAX_OUT_UNBR
          /\ length (gs1_writeUnbracketedAIelementString ctx' fixedFirst extraFNC1) + 1
             <= GS1_DL_MAX_OUT_UNBR).
Proof.
  destruct (parse_leaves_bounded ctx dlData) as (ret & ctx' & buf' & E & H).
  exists ret, ctx', buf'. split; [done|]. intros Hret ff ef.
  destruct (H Hret) as [Hn Hok]. split.
  - by apply unbracketed_size_before_strip.
  - by apply unbracketed_size.
Qed.

(** X7. After a successful parse the bracketed element string, with its
    terminator, fits [GS1_DL_MAX_OUT_BRKT], even when every byte of
    every value is a '(' and is escaped. *)
Theorem bracketed_output_fits (ctx : gs1DLparser) (dlData : list ascii) :
  exists ret ctx' buf',
    gs1_parseDLuri ctx dlData = Some (ret, ctx', buf')
    /\ (ret = true ->
        forall fixedFirst,
          length (gs1_writeBracketedAIelementString ctx' fixedFirst) + 1
          <= GS1_DL_MAX_OUT_BRKT).
Proof.
  destruct (parse_leaves_bounded ctx dlData) as (ret & ctx' & buf' & E & H).
  exists ret, ctx', buf'. split; [done|]. intros Hret ff.
  destruct (H Hret) as [Hn Hok]. by apply bracketed_size.
Qed.

Lemma uri_quotes_summary (ctx : gs1DLparser) :
  match gs1_parseDLuri ctx uri_quotes with
  | Some (r, c, _) => Some (r, numAIs c, length (gs1_writeJSON c false))
  | None => None
  end = Some (true, 34, 1 + 34 * (4 + GS1_DL_MAX_AI_LEN * 2 + 6)).
Proof. vm_compute. reflexivity. Qed.

(** X8. The JSON text does not always fit [GS1_DL_MAX_OUT_JSON].  That
    size allows six bytes of punctuation and one byte per byte of value,
    but the writer puts a backslash before every double quote and
    backslash of a value.  After a successful parse the text with its
    terminator is bounded by the size with two bytes per byte of value;
    and 34 elements of 90 double quotes each (written %22 in the URI)
    are parsed successfully and give a text longer than
    [GS1_DL_MAX_OUT_JSON]. *)
Theorem json_output_may_overflow :
  (forall ctx dlData,
      exists ret ctx' buf',
        gs1_parseDLuri ctx dlData = Some (ret, ctx', buf')
        /\ (ret = true ->
            forall fixedFirst,
              length (gs1_writeJSON ctx' fixedFirst) + 1
              <= GS1_DL_MAX_AIS * (4 + GS1_DL_MAX_AI_LEN * 2 + 6) + 2))
  /\ (forall ctx,
        exists ctx' buf',
          gs1_parseDLuri ctx uri_quotes = Some (true, ctx', buf')
          /\ numAIs ctx' = 34
          /\ GS1_DL_MAX_OUT_JSON < length (gs1_writeJSON ctx' false) + 1).
Proof.
  split.
  - intros ctx dlData.
    destruct (parse_leaves_bounded ctx dlData) as (ret & ctx' & buf' & E & H).
    exists ret, ctx', buf'. split; [done|]. intros Hret ff.
    destruct (H Hret) as [Hn Hok]. by apply json_size.
  - intros ctx. pose proof (uri_quotes_summary ctx) as H.
    destruct (gs1_parseDLuri ctx uri_quotes) as [[[r c] b]|]; [|discriminate].
    injection H as -> H1 H2. exists c, b. split; [done|]. split; [done|].
    rewrite H2. vm_compute. lia.
Qed.


(** ** Failures of the splitter and of the search *)

Lemma segments_not_nil (s : list ascii) : segments s <> [].
Proof.
  induction s as [|c s IH]; simpl; [done|].
  destruct (Ascii.eqb c "/"); [done|]. by destruct (segments s).
Qed.

Lemma segments_app (t x : list ascii) :
  segments (t ++ "/" :: x) = segments t ++ segments x.
Proof.
  induction t as [|c t IH]; simpl; [done|]. rewrite IH.
  destruct (Ascii.eqb c "/"); [done|].
  pose proof (segments_not_nil t). by destruct (segments t).
Qed.

Lemma segments_no_slash (k : list ascii) : ("/" ∉ k) -> segments k = [k].
Proof.
  induction k as [|c k IH]; intros H; simpl; [done|].
  apply not_elem_of_cons in H as [Hc Hk].
  destruct (Ascii.eqb_spec c "/"); [done|]. by rewrite IH.
Qed.

(** A segment that is followed by a slash is not the last one. *)
Lemma segment_between_slashes (t k r : list ascii) :
  ("/" ∉ k) -> k ∈ removelast (segments (t ++ "/" :: k ++ "/" :: r)).
Proof.
  intros Hk. rewrite segments_app, segments_app, (segments_no_slash k Hk).
  pose proof (segments_not_nil r) as Hr.
  rewrite removelast_app by (by destruct (segments r)).
  apply elem_of_app. right. simpl.
  destruct (segments r); [done|]. by left.
Qed.

(** X10. A path without a primary key.  When no segment of the path but
    the last is a primary key, the parse of a well-formed URI fails with
    "No GS1 DL keys found in path info" and a count of zero. *)
Theorem path_without_key_fails (ctx : gs1DLparser)
    (scheme domain path tail : list ascii) :
  well_formed scheme domain path tail ->
  Forall (fun k => is_pkey k = false) (removelast (segments path)) ->
  exists ctx' buf',
    gs1_parseDLuri ctx (dl_uri scheme domain path tail) = Some (false, ctx', buf')
    /\ err ctx' = str "No GS1 DL keys found in path info"
    /\ numAIs ctx' = 0.
Proof.
  intros Hwf Hnokey.
  destruct (parse_well_formed ctx _ _ _ _ Hwf) as (B & qp & fr & HB & Hlen & ->).
  destruct Hwf as (_ & _ & _ & [path' Hpath] & _).
  set (pi := length scheme + length domain) in *.
  assert (Hpi : B !! pi = Some "/").
  { rewrite Hpath in HB. by apply cstr_head_lookup in HB. }
  set (fuel := S (length (dl_uri scheme domain path tail))).
  destruct (find_dp_inv B pi fuel Hpi B pi (cstr B pi) [])
    as (buf' & dp & E & _).
  { by rewrite app_nil_r. }
  { constructor. }
  { done. }
  { by apply poke_id. }
  { by left. }
  { unfold fuel. rewrite <- Hlen. pose proof (strlen_le B pi) as H.
    unfold strlen in H. lia. }
  destruct dp as [d|].
  - exfalso.
    destruct (find_dp_found B pi fuel B pi (cstr B pi) [] d buf')
      as (_ & t' & k & v & ps & Hs & _ & Hkey & Hsf & _); try done.
    { by rewrite app_nil_r. }
    { constructor. }
    { constructor. }
    { by apply poke_id. }
    apply Forall_cons in Hsf as [[Hk _] _]. simpl in Hk.
    rewrite HB, render_pairs_cons in Hs.
    rewrite Forall_forall in Hnokey.
    rewrite (Hnokey k) in Hkey; [done|].
    rewrite Hs. by apply segment_between_slashes.
  - unfold locate_and_extract. rewrite E.
    destruct (label_fail_result (str "No GS1 DL keys found in path info") buf' qp fr)
      as (ctx' & b' & -> & He & Hn); [done|].
    by exists ctx', b'.
Qed.

Lemma path_without_key_fails_witness :
  exists ctx' buf',
    gs1_parseDLuri ctx_reset (str "https://example.com/gtin/9520123456788/22/2A?10=ABC")
    = Some (false, ctx', buf')
    /\ err ctx' = str "No GS1 DL keys found in path info"
    /\ numAIs ctx' = 0.
Proof.
  apply (path_without_key_fails ctx_reset (str "https://") (str "example.com")
           (str "/gtin/9520123456788/22/2A") (str "?10=ABC")).
  - well_formed_by_computation.
  - vm_compute. repeat constructor.
Defined.
(** ** From the URI to the writers' output *)

Lemma nth_seq_id (v : list ascii) :
  map (fun j => nth j v NUL) (seq 0 (length v)) = v.
Proof.
  induction v as [|x v IH] using rev_ind; [done|].
  rewrite length_app. simpl. rewrite Nat.add_1_r, seq_S, map_app. simpl.
  rewrite app_nth2, Nat.sub_diag by lia. simpl. f_equal.
  rewrite <- IH at 2. apply map_ext_in. intros i Hi. apply in_seq in Hi.
  by rewrite app_nth1 by lia.
Qed.

(** The bytes [ai.value[0 .. vallen-1]] are the text ["%.*s"] prints
    when no NUL is among them. *)
Lemma escaped_value_text (ctx : gs1DLparser) (esc : ascii -> bool)
    (a : gs1AIelement) :
  length (prec_s ctx (vallen a) (value a)) = vallen a ->
  escaped_value ctx esc a = escaped esc (prec_s ctx (vallen a) (value a)).
Proof.
  intros Hl. unfold escaped_value, escaped. cbv zeta.
  set (v := prec_s ctx (vallen a) (value a)) in *.
  assert (Hs : cstr (aiBuf ctx) (value a) = v ++ drop (vallen a) (cstr (aiBuf ctx) (value a)))
    by (unfold v, prec_s; by rewrite take_drop).
  rewrite <- (nth_seq_id v) at 1. rewrite Hl.
  rewrite !flat_map_concat_map, map_map. f_equal.
  apply map_ext_in. intros j Hj. apply in_seq in Hj.
  rewrite (peek_cstr_prefix _ _ j v _ Hs) by lia. done.
Qed.

Lemma layout_value_lengths (ctx : gs1DLparser)
    (els : list (list ascii * list ascii * bool)) :
  no_nul_elements els ->
  forall pre,
    cstr (aiBuf ctx) 0 = pre ++ packed_bytes els ->
    Forall (fun a => length (prec_s ctx (vallen a) (value a)) = vallen a)
           (layout (length pre) els).
Proof.
  induction 1 as [|[[a d] f] els Hd _ IH]; intros pre Hs; [constructor|].
  simpl in Hd.
  change (packed_bytes ((a, d, f) :: els))
    with ((a ++ until_nul d) ++ packed_bytes els) in Hs.
  cbn [layout fst snd]. rewrite (until_nul_id d Hd) in Hs |- *. constructor.
  - cbn [vallen value]. unfold prec_s.
    assert (H2 : cstr (aiBuf ctx) (0 + length (pre ++ a)) = d ++ packed_bytes els).
    { apply cstr_suffix. rewrite Hs. by reassoc. }
    rewrite length_app in H2. simpl in H2. rewrite H2.
    by rewrite take_app_length.
  - replace (length pre + length a + length d) with (length (pre ++ a ++ d))
      by (rewrite !length_app; lia).
    apply IH. rewrite Hs. by reassoc.
Qed.

Lemma packed_elements (ctx : gs1DLparser)
    (els : list (list ascii * list ascii * bool)) :
  packed ctx els -> no_nul_elements els ->
  map (element_text ctx) (elements ctx) = els
  /\ Forall (fun a => length (prec_s ctx (vallen a) (value a)) = vallen a)
            (elements ctx).
Proof.
  intros Hp Hnn. pose proof (packed_extracted ctx els Hp Hnn) as [Hx _].
  split; [exact Hx|].
  rewrite (packed_layout ctx els Hp). destruct Hp as (Hb & _).
  by apply (layout_value_lengths ctx els Hnn []).
Qed.

Lemma filter_map_text (ctx : gs1DLparser) (P : bool -> bool)
    (l : list gs1AIelement) :
  List.filter (fun e => P (snd e)) (map (element_text ctx) l)
  = map (element_text ctx) (List.filter (fun a => P (fnc1 a)) l).
Proof.
  induction l as [|a l IH]; simpl; [done|].
  destruct (P (fnc1 a)); simpl; by rewrite IH.
Qed.

Lemma text_order_elements (ctx : gs1DLparser) (fixedFirst : bool)
    (l : list gs1AIelement) :
  text_order fixedFirst (map (element_text ctx) l)
  = map (element_text ctx) (emission_order fixedFirst l).
Proof.
  unfold text_order, emission_order, fixed_first. destruct fixedFirst; [|done].
  rewrite map_app.
  rewrite (filter_map_text ctx negb), (filter_map_text ctx (fun b => b)). done.
Qed.

Lemma items_as_texts (ctx : gs1DLparser) (item : gs1AIelement -> list ascii)
    (text : list ascii * list ascii * bool -> list ascii)
    (fixedFirst : bool) :
  Forall (fun a => item a = text (element_text ctx a)) (elements ctx) ->
  map item (emission_order fixedFirst (elements ctx))
  = map text (text_order fixedFirst (map (element_text ctx) (elements ctx))).
Proof.
  intros H. rewrite text_order_elements, map_map.
  assert (H' : Forall (fun a => item a = text (element_text ctx a))
                      (emission_order fixedFirst (elements ctx)))
    by (by rewrite emission_order_perm).
  induction H' as [|a l Ha _ IH]; simpl; [done|]. by rewrite Ha, IH.
Qed.

Lemma concat_join_comma (ms : list (list ascii)) :
  ms <> [] ->
  concat (map (fun m => m ++ [","]) ms) = join_comma ms ++ [","].
Proof.
  induction ms as [|m ms IH]; [done|]. intros _.
  destruct ms as [|m' ms]; [simpl; by rewrite app_nil_r|].
  change (concat (map (fun m => m ++ [","]) (m :: m' :: ms)))
    with ((m ++ [","]) ++ concat (map (fun m => m ++ [","]) (m' :: ms))).
  rewrite IH by done. cbn [join_comma]. by rewrite <- !app_assoc.
Qed.

Lemma poke_last (x : list ascii) (c c' : ascii) :
  poke (x ++ [c]) (length (x ++ [c]) - 1) c' = x ++ [c'].
Proof.
  rewrite length_app. simpl. rewrite Nat.add_sub.
  unfold poke. rewrite <- (Nat.add_0_r (length x)), insert_app_r. done.
Qed.

Lemma text_order_not_nil (fixedFirst : bool)
    (els : list (list ascii * list ascii * bool)) :
  els <> [] -> text_order fixedFirst els <> [].
Proof.
  intros Hne. unfold text_order. destruct fixedFirst; [|done].
  destruct els as [|e els]; [done|]. simpl.
  destruct (snd e); simpl; [|done].
  intros H. by apply app_eq_nil in H as [_ ?].
Qed.

(** The three writers on a context that holds [els]. *)
Lemma writers_on_packed (ctx : gs1DLparser)
    (els : list (list ascii * list ascii * bool)) (fixedFirst : bool) :
  packed ctx els -> no_nul_elements els -> els <> [] ->
  (forall extraFNC1,
      gs1_writeUnbracketedAIelementString ctx fixedFirst extraFNC1
      = strip_sep ("^" :: concat (map (unbr_text extraFNC1)
                                      (text_order fixedFirst els))))
  /\ gs1_writeBracketedAIelementString ctx fixedFirst
     = concat (map brkt_text (text_order fixedFirst els))
  /\ gs1_writeJSON ctx fixedFirst
     = "{" :: join_comma (map json_member (text_order fixedFirst els)) ++ ["}"].
Proof.
  intros Hp Hnn Hne. destruct (packed_elements ctx els Hp Hnn) as [Hx Hl].
  split; [|split].
  - intros x. unfold gs1_writeUnbracketedAIelementString. cbv zeta.
    rewrite (passes_emit ctx (unbr_item ctx x)).
    rewrite (items_as_texts ctx _ (unbr_text x)), Hx; [done|].
    apply Forall_forall. by intros a _.
  - unfold gs1_writeBracketedAIelementString.
    rewrite (passes_emit ctx (brkt_item ctx)). simpl.
    rewrite (items_as_texts ctx _ brkt_text), Hx; [done|].
    eapply Forall_impl; [exact Hl|]. intros a Ha.
    unfold brkt_item, brkt_text, element_text. cbn [fst snd].
    by rewrite escaped_value_text.
  - unfold gs1_writeJSON. cbv zeta.
    rewrite (passes_emit ctx (json_item ctx)).
    rewrite (items_as_texts ctx _ (fun e => json_member e ++ [","])), Hx.
    2:{ eapply Forall_impl; [exact Hl|]. intros a Ha.
        unfold json_item, json_member, element_text. cbn [fst snd].
        rewrite escaped_value_text by done. by reassoc. }
    rewrite <- (map_map json_member (fun m => m ++ [","])).
    rewrite concat_join_comma.
    2:{ intros H. apply map_eq_nil in H. by apply text_order_not_nil in H. }
    change (["{"] ++ ?x ++ [","]) with (("{" :: x) ++ [","]).
    by rewrite poke_last.
Qed.

Lemma stored_key_not_nil (u : dl_parts) :
  Forall accepted (candidates u) -> stored (candidates u) <> [].
Proof.
  unfold candidates. simpl. intros H. apply Forall_cons in H as [H _].
  unfold path_candidate in *. simpl in *. by destruct (key_value u).
Qed.

(** X11. From the URI to the element strings.  For a URI made of a
    scheme, a domain, any stem, the pair of a primary key, further
    AI/value pairs whose AIs have two to four digits, query parameters
    and a fragment, in which no value decodes to a text with a NUL
    byte: when no candidate is rejected, at most [GS1_DL_MAX_AIS] are to
    be stored and the AIs and values to store have fewer than
    [GS1_DL_MAX_AI_BUF] bytes together, the parse succeeds, writes
    nothing past the end of [aiBuf], and the three writers give the
    texts of the stored elements, in the order of the URI or with the
    elements without separator flag first: the unbracketed string
    starts with '^', has AI and value of each element and a '^' after
    each one that needs it, less a final '^'; the bracketed string has
    "(AI)" and the value with a backslash before each '('; the JSON text
    is an object with one member per element, backslash and double
    quote escaped. *)
Theorem writers_render_stored_elements (ctx : gs1DLparser) (u : dl_parts) :
  parts_ok u -> Forall accepted (candidates u) ->
  length (stored (candidates u)) <= GS1_DL_MAX_AIS ->
  length (packed_bytes (stored (candidates u))) < GS1_DL_MAX_AI_BUF ->
  exists ctx',
    gs1_parseDLuri ctx (uri_of u) = Some (true, ctx', uri_of u)
    /\ inside_aiBuf ctx'
    /\ forall fixedFirst,
        let els := text_order fixedFirst (stored (candidates u)) in
        (forall extraFNC1,
            gs1_writeUnbracketedAIelementString ctx' fixedFirst extraFNC1
            = strip_sep ("^" :: concat (map (unbr_text extraFNC1) els)))
        /\ gs1_writeBracketedAIelementString ctx' fixedFirst
           = concat (map brkt_text els)
        /\ gs1_writeJSON ctx' fixedFirst
           = "{" :: join_comma (map json_member els) ++ ["}"].
Proof.
  intros [Hok Hnn] Hacc Hn Hroom.
  destruct (parse_accepted ctx u Hok Hacc Hn) as (ctx' & E & Hp & _).
  exists ctx'. split; [done|]. split.
  { destruct Hp as (_ & Hl & _). unfold inside_aiBuf. lia. }
  intros ff.
  apply writers_on_packed; [done|by apply stored_no_nul|].
  by apply stored_key_not_nil.
Qed.

Lemma writers_render_stored_elements_witness :
  exists ctx',
    gs1_parseDLuri ctx_reset (uri_of parts_example)
    = Some (true, ctx', uri_of parts_example)
    /\ gs1_writeUnbracketedAIelementString ctx' false false
       = str "^010952012345678810ABC/1^172012253103000195"
    /\ gs1_writeUnbracketedAIelementString ctx' true false
       = str "^010952012345678817201225310300019510ABC/1"
    /\ gs1_writeBracketedAIelementString ctx' true
       = str "(01)09520123456788(17)201225(3103)000195(10)ABC/1".
Proof.
  assert (Hok : parts_ok parts_example) by parts_ok_by_computation.
  assert (Hacc : Forall accepted (candidates parts_example)) by (repeat constructor).
  assert (Hn : length (stored (candidates parts_example)) <= GS1_DL_MAX_AIS)
    by (vm_compute; lia).
  assert (Hroom : length (packed_bytes (stored (candidates parts_example)))
                  < GS1_DL_MAX_AI_BUF) by (vm_compute; lia).
  destruct (writers_render_stored_elements ctx_reset parts_example Hok Hacc Hn
              Hroom) as (ctx' & E & _ & H).
  exists ctx'. split; [exact E|].
  destruct (H false) as (Hu & _ & _). destruct (H true) as (Hu' & Hb & _).
  rewrite Hu, Hu', Hb. split; [|split]; vm_compute; reflexivity.
Defined.
(** ** The writers on a context without elements *)

Lemma writers_without_elements (ctx : gs1DLparser) (fixedFirst extraFNC1 : bool) :
  numAIs ctx = 0 ->
  gs1_writeUnbracketedAIelementString ctx fixedFirst extraFNC1 = []
  /\ gs1_writeBracketedAIelementString ctx fixedFirst = []
  /\ gs1_writeJSON ctx fixedFirst = str "}".
Proof.
  intros Hn.
  assert (He : elements ctx = []) by (unfold elements; by rewrite Hn).
  unfold gs1_writeUnbracketedAIelementString, gs1_writeBracketedAIelementString,
    gs1_writeJSON. cbv zeta.
  rewrite (passes_emit ctx (unbr_item ctx extraFNC1)),
    (passes_emit ctx (brkt_item ctx)), (passes_emit ctx (json_item ctx)), He.
  by destruct fixedFirst.
Qed.

(** X12. The writers after a failed parse.  Whatever the input, when the
    parse has failed the unbracketed and the bracketed element strings
    are empty, and the JSON text is the single character '}': the
    opening brace is what the writer replaces by the closing one. *)
Theorem writers_after_failed_parse (ctx : gs1DLparser) (dlData : list ascii) :
  exists ret ctx' buf',
    gs1_parseDLuri ctx dlData = Some (ret, ctx', buf')
    /\ (ret = false ->
        forall fixedFirst extraFNC1,
          gs1_writeUnbracketedAIelementString ctx' fixedFirst extraFNC1 = []
          /\ gs1_writeBracketedAIelementString ctx' fixedFirst = []
          /\ gs1_writeJSON ctx' fixedFirst = str "}").
Proof.
  destruct (gs1_parseDLuri_outcome ctx dlData)
    as (ret & ctx' & buf' & E & [_ Hfalse] & _).
  exists ret, ctx', buf'. split; [done|]. intros Hret ff x.
  apply writers_without_elements. by destruct (Hfalse Hret).
Qed.
(** ** What the structural splitter rejects *)

Lemma label_fail_early (msg buf : list ascii) :
  msg <> [] ->
  exists ctx',
    label_fail (set_err ctx_reset msg) buf None None = (false, ctx', buf)
    /\ err ctx' = msg /\ numAIs ctx' = 0.
Proof.
  intros Hm. unfold label_fail, label_out. cbn [err set_err].
  destruct msg as [|c msg]; [done|]. by eexists.
Qed.

Lemma span_len_illegal (s : list ascii) :
  forallb (fun c => existsb (Ascii.eqb c) uriCharacters) s = false ->
  span_len uriCharacters s < length s.
Proof.
  induction s as [|c s IH]; [done|]. cbn [forallb span_len length].
  destruct (existsb (Ascii.eqb c) uriCharacters); [|lia].
  intros H. apply IH in H. lia.
Qed.

(** The two scheme tests, on the text of the input. *)
Lemma scheme_test (s scheme : list ascii) :
  (length scheme <=? length s) && strncmp_eq s scheme (length scheme) = true
  <-> exists r, s = scheme ++ r.
Proof.
  unfold strncmp_eq. rewrite andb_true_iff, Nat.leb_le, bytes_eqb_eq, firstn_all.
  split.
  - intros [Hl Ht]. exists (drop (length scheme) s).
    by rewrite <- Ht at 1; rewrite take_drop.
  - intros [r ->]. rewrite length_app, take_app_length. split; [lia|done].
Qed.

Lemma scheme_tests (s : list ascii) :
  ((8 <=? length s) && strncmp_eq s (str "https://") 8 = true
   <-> exists r, s = str "https://" ++ r)
  /\ ((7 <=? length s) && strncmp_eq s (str "http://") 7 = true
      <-> exists r, s = str "http://" ++ r).
Proof.
  split; [apply (scheme_test s (str "https://"))|apply (scheme_test s (str "http://"))].
Qed.

(** X13. Illegal characters.  When the input holds, before its
    terminator, a byte that is none of [uriCharacters], the parse fails
    with "URI contains illegal characters"; the count is zero and the
    input is as it was. *)
Theorem illegal_characters_rejected (ctx : gs1DLparser) (dlData : list ascii) :
  ~ legal (cstr dlData 0) ->
  exists ctx',
    gs1_parseDLuri ctx dlData = Some (false, ctx', dlData)
    /\ err ctx' = str "URI contains illegal characters"
    /\ numAIs ctx' = 0.
Proof.
  intros Hill. unfold legal in Hill. apply not_true_is_false in Hill.
  apply span_len_illegal in Hill.
  unfold gs1_parseDLuri. cbv zeta. unfold strspn, strlen.
  destruct (Nat.eqb_spec (span_len uriCharacters (cstr dlData 0))
              (length (cstr dlData 0))) as [Heq|_]; [lia|]. cbn [negb].
  destruct (label_fail_early (str "URI contains illegal characters") dlData)
    as (ctx' & -> & He & Hn); [done|].
  by exists ctx'.
Qed.

Lemma illegal_characters_rejected_witness :
  exists ctx',
    gs1_parseDLuri ctx_reset (str "https://id.gs1.org/01/9520123456788?10=A B")
    = Some (false, ctx', str "https://id.gs1.org/01/9520123456788?10=A B")
    /\ err ctx' = str "URI contains illegal characters"
    /\ numAIs ctx' = 0.
Proof.
  apply (illegal_characters_rejected ctx_reset
           (str "https://id.gs1.org/01/9520123456788?10=A B")).
  vm_compute. discriminate.
Defined.

(** X14. The scheme.  When the text of the input has legal characters
    only and begins neither with "https://" nor with "http://" (the
    empty input and an upper-case scheme included), the parse fails with
    "Scheme must be http:// or https://"; the count is zero and the
    input is as it was. *)
Theorem scheme_is_required (ctx : gs1DLparser) (dlData : list ascii) :
  legal (cstr dlData 0) ->
  (forall r, cstr dlData 0 <> str "https://" ++ r) ->
  (forall r, cstr dlData 0 <> str "http://" ++ r) ->
  exists ctx',
    gs1_parseDLuri ctx dlData = Some (false, ctx', dlData)
    /\ err ctx' = str "Scheme must be http:// or https://"
    /\ numAIs ctx' = 0.
Proof.
  intros Hleg H8 H7.
  unfold gs1_parseDLuri. cbv zeta. unfold strspn, strlen.
  rewrite (span_len_legal _ Hleg), Nat.eqb_refl. cbn [negb].
  destruct (scheme_tests (cstr dlData 0)) as [T8 T7].
  destruct (_ && _).
  { destruct (proj1 T8 eq_refl) as [r Hr]. by destruct (H8 r). }
  destruct (_ && _).
  { destruct (proj1 T7 eq_refl) as [r Hr]. by destruct (H7 r). }
  destruct (label_fail_early (str "Scheme must be http:// or https://") dlData)
    as (ctx' & -> & He & Hn); [done|].
  by exists ctx'.
Qed.

Lemma scheme_is_required_witness :
  exists ctx',
    gs1_parseDLuri ctx_reset (str "HTTPS://id.gs1.org/01/9520123456788")
    = Some (false, ctx', str "HTTPS://id.gs1.org/01/9520123456788")
    /\ err ctx' = str "Scheme must be http:// or https://"
    /\ numAIs ctx' = 0.
Proof.
  apply (scheme_is_required ctx_reset (str "HTTPS://id.gs1.org/01/9520123456788")).
  - reflexivity.
  - intros r H. vm_compute in H. discriminate H.
  - intros r H. vm_compute in H. discriminate H.
Defined.

(** X15. Domain and path.  When the text of the input has legal
    characters only and is a scheme followed by a text without '/' (a
    domain without path) or by a text that starts with '/' (no domain),
    the parse fails with "URI must contain a domain and path info"; the
    count is zero and the input is as it was. *)
Theorem domain_and_path_are_required (ctx : gs1DLparser)
    (dlData scheme rest : list ascii) :
  legal (cstr dlData 0) ->
  cstr dlData 0 = scheme ++ rest ->
  scheme = str "https://" \/ scheme = str "http://" ->
  ("/" ∉ rest) \/ (exists rest', rest = "/" :: rest') ->
  exists ctx',
    gs1_parseDLuri ctx dlData = Some (false, ctx', dlData)
    /\ err ctx' = str "URI must contain a domain and path info"
    /\ numAIs ctx' = 0.
Proof.
  intros Hleg Hs Hscheme Hrest.
  destruct (label_fail_early (str "URI must contain a domain and path info") dlData)
    as (ctx' & E & He & Hn); [done|].
  exists ctx'. split; [|done].
  unfold gs1_parseDLuri. cbv zeta. unfold strspn, strlen.
  rewrite (span_len_legal _ Hleg), Nat.eqb_refl. cbn [negb].
  assert (Hp : strchr dlData (length scheme) "/" = None
               \/ strchr dlData (length scheme) "/" = Some (length scheme)).
  { pose proof (cstr_suffix dlData 0 scheme rest Hs) as Hr. simpl in Hr.
    unfold strchr. rewrite Hr. destruct Hrest as [Hno|[rest' ->]].
    - left. by rewrite (proj2 (index_of_None "/" rest)).
    - right. simpl. by rewrite Nat.add_0_r. }
  destruct (scheme_tests (cstr dlData 0)) as [T8 T7].
  destruct Hscheme as [-> | ->].
  - rewrite (proj2 T8) by (by exists rest). cbn [Nat.add].
    change (length (str "https://")) with 8 in Hp.
    destruct Hp as [-> | ->]; [by rewrite E|].
    rewrite Nat.sub_diag. by rewrite E.
  - replace ((8 <=? length (cstr dlData 0))
             && strncmp_eq (cstr dlData 0) (str "https://") 8) with false.
    2:{ symmetry. apply not_true_is_false. intros H. apply T8 in H as [r Hr].
        rewrite Hs in Hr. discriminate Hr. }
    rewrite (proj2 T7) by (by exists rest). cbn [Nat.add].
    change (length (str "http://")) with 7 in Hp.
    destruct Hp as [-> | ->]; [by rewrite E|].
    rewrite Nat.sub_diag. by rewrite E.
Qed.

Lemma domain_and_path_are_required_witness :
  exists ctx',
    gs1_parseDLuri ctx_reset (str "https://id.gs1.org")
    = Some (false, ctx', str "https://id.gs1.org")
    /\ err ctx' = str "URI must contain a domain and path info"
    /\ numAIs ctx' = 0.
Proof.
  apply (domain_and_path_are_required ctx_reset (str "https://id.gs1.org")
           (str "https://") (str "id.gs1.org")).
  - reflexivity.
  - reflexivity.
  - by left.
  - left. apply not_in_by_search. reflexivity.
Defined.
(** ** The AIs of a successful parse, whatever the input *)

(** Appending to a string leaves what was in it. *)
Lemma take_cstr_grown (buf buf' x : list ascii) (p l : nat) :
  cstr buf' 0 = cstr buf 0 ++ x -> p + l <= strlen buf 0 ->
  take l (cstr buf' p) = take l (cstr buf p).
Proof.
  unfold strlen. intros H' Hl. set (s := cstr buf 0) in *.
  assert (Hp : length (take p s) = p) by (rewrite length_take; lia).
  assert (H1 : cstr buf (0 + length (take p s)) = drop p s).
  { apply cstr_suffix. fold s. by rewrite take_drop. }
  assert (H2 : cstr buf' (0 + length (take p s)) = drop p s ++ x).
  { apply cstr_suffix. by rewrite H', app_assoc, take_drop. }
  rewrite Hp in H1, H2. simpl in H1, H2. rewrite H1, H2.
  rewrite take_app_le; [done|]. rewrite length_drop. lia.
Qed.

Lemma writeAIbuf_grows (ctx ctx' : gs1DLparser) (v : list ascii) (l : nat) :
  NUL ∉ take l v -> writeAIbuf ctx v l = Cont ctx' ->
  cstr (aiBuf ctx') 0 = cstr (aiBuf ctx) 0 ++ take l v
  /\ aiData ctx' = aiData ctx /\ numAIs ctx' = numAIs ctx.
Proof.
  intros Hv. unfold writeAIbuf. destruct (_ <? _); [done|].
  intros [= <-]. cbn [aiBuf aiData numAIs set_aiBuf].
  by rewrite strncat_cstr.
Qed.

Lemma store_AI_ai_texts (ctx : gs1DLparser) (buf : list ascii) (o l : nat)
    (aival : list ascii) (vlen : nat) :
  length (aiData ctx) = numAIs ctx -> ais_in_string ctx -> l <= strlen buf o ->
  match store_AI ctx buf o l aival vlen with
  | Cont (ctx', _) =>
      ais_in_string ctx'
      /\ ai_texts ctx' = ai_texts ctx ++ [take l (cstr buf o)]
  | GotoFail _ => True
  end.
Proof.
  intros Hlen Hin Hl. unfold store_AI.
  destruct (gtin14 buf o l aival vlen) as [aival' vlen'].
  assert (Hna : NUL ∉ take l (cstr buf o)) by apply take_no_nul, cstr_no_nul.
  assert (Hnv : NUL ∉ take vlen' (cstr aival' 0)) by apply take_no_nul, cstr_no_nul.
  destruct (writeAIbuf ctx (cstr buf o) l) as [ctx1|c] eqn:E1; [|done].
  destruct (writeAIbuf_grows ctx ctx1 _ _ Hna E1) as (Hs1 & Hd1 & Hn1).
  destruct (writeAIbuf ctx1 (cstr aival' 0) vlen') as [ctx2|c] eqn:E2; [|done].
  destruct (writeAIbuf_grows ctx1 ctx2 _ _ Hnv E2) as (Hs2 & Hd2 & Hn2).
  rewrite Hn2, Hn1, Hd2, Hd1.
  destruct (Nat.ltb_spec (numAIs ctx) GS1_DL_MAX_AIS); [|done].
  rewrite <- Hlen, firstn_all.
  rewrite Hs1, <- app_assoc in Hs2.
  assert (Hla : length (take l (cstr buf o)) = l)
    by (rewrite length_take; unfold strlen in Hl; lia).
  assert (Hgrow : strlen (aiBuf ctx2) 0
                  = strlen (aiBuf ctx) 0 + l + length (take vlen' (cstr aival' 0))).
  { unfold strlen. rewrite Hs2, !length_app, Hla. lia. }
  split.
  - unfold ais_in_string. cbn [aiData aiBuf]. apply Forall_app. split.
    + eapply Forall_impl; [exact Hin|]. intros a Ha. simpl in Ha. lia.
    + constructor; [|constructor]. cbn [ai ailen]. lia.
  - unfold ai_texts. cbn [aiData]. rewrite map_app. f_equal.
    + apply Forall_fmap_ext_1. eapply Forall_impl; [exact Hin|].
      intros a Ha. simpl in Ha. unfold prec_s. cbn [aiBuf].
      by apply (take_cstr_grown _ _ _ _ _ Hs2).
    + cbn [map ai ailen]. unfold prec_s. cbn [aiBuf]. f_equal.
      assert (Ho : cstr (aiBuf ctx2) (0 + length (cstr (aiBuf ctx) 0))
                   = take l (cstr buf o) ++ take vlen' (cstr aival' 0))
        by (by apply cstr_suffix).
      simpl in Ho. unfold strlen. rewrite Ho.
      rewrite take_app_le by lia. rewrite <- Hla at 1. by rewrite firstn_all.
Qed.

Section PathAIs.
Variable B : list ascii.

Lemma path_loop_ai_texts (ps : list (list ascii * list ascii)) :
  forall fuel ctx aival p f,
    cstr B p = render_pairs ps -> slash_free ps ->
    Forall (fun av => valid_AI_form (fst av) = true) ps ->
    context_ok ctx -> ais_in_string ctx ->
    path_loop fuel B ctx aival p = Some f ->
    match f with
    | Cont (c, _) => ais_in_string c /\ ai_texts c = ai_texts ctx ++ map fst ps
    | GotoFail _ => True
    end.
Proof.
  induction ps as [|[a v] ps IH]; intros fuel ctx aival p f Hs Hsf Hva Hok Hin E.
  - apply cstr_nil_peek in Hs.
    assert (f = Cont (ctx, aival)) as ->.
    { destruct fuel; simpl in E; rewrite Hs in E; simpl in E; congruence. }
    simpl. by rewrite app_nil_r.
  - rewrite render_pairs_cons in Hs.
    destruct fuel as [|fuel].
    { simpl in E. pose proof (cstr_peek B p [] _ _ Hs) as Hp. simpl in Hp.
      rewrite Nat.add_0_r in Hp. rewrite Hp in E. done. }
    apply Forall_cons in Hsf as [[Ha Hv] Hsf]. simpl in Ha, Hv.
    apply Forall_cons in Hva as [Hvalid Hva]. simpl in Hvalid.
    rewrite (path_loop_step B fuel ctx aival p a v (render_pairs ps)) in E; try done.
    2:{ destruct ps as [|[a' v'] ps']; [by left|right].
        rewrite render_pairs_cons. by eexists. }
    destruct v as [|c v]; [by injection E as <-|].
    destruct (URIunescape_total aival GS1_DL_MAX_AI_LEN B
                (p + 1 + length a + 1) (length (c :: v)) false)
      as (aival' & n & Eu & Hmax & Hmin).
    rewrite Eu in E.
    destruct (Nat.eqb_spec n 0) as [Hz|Hn0]; [by injection E as <-|].
    assert (Hai : cstr B (p + 1) = a ++ "/" :: (c :: v) ++ render_pairs ps)
      by (by apply (cstr_suffix B p ["/"])).
    assert (Hfit : length a <= strlen B (p + 1))
      by (unfold strlen; rewrite Hai, length_app; lia).
    pose proof (store_AI_context_ok ctx B (p + 1) (length a) aival' n Hok
                  (valid_AI_form_length a Hvalid)) as Hst.
    pose proof (store_AI_ai_texts ctx B (p + 1) (length a) aival' n
                  (proj1 (proj2 Hok)) Hin Hfit) as Hst'.
    destruct (store_AI ctx B (p + 1) (length a) aival' n) as [[ctx' aival'']|c'];
      [|by injection E as <-].
    destruct Hst as [Hok' Hn']; [done|lia|].
    destruct Hst' as [Hin' Ht'].
    rewrite Hai, take_app_length in Ht'.
    apply IH in E; try done.
    + destruct f as [[c0 ?]|]; [|done]. destruct E as [? ->].
      split; [done|]. rewrite Ht', <- app_assoc. done.
    + replace (p + 1 + length a + 1 + length (c :: v))
        with (p + length ("/" :: a ++ "/" :: c :: v))
        by (simpl; rewrite length_app; simpl; lia).
      apply cstr_suffix. rewrite Hs. simpl. rewrite <- app_assoc. done.
Qed.
End PathAIs.

Lemma query_loop_ai_texts (buf : list ascii) (fuel : nat) :
  forall ctx aival p f,
    context_ok ctx -> ais_in_string ctx ->
    query_loop fuel buf ctx aival p = Some f ->
    match f with
    | Cont (c, _) =>
        ais_in_string c
        /\ exists more, ai_texts c = ai_texts ctx ++ more
                        /\ Forall (fun a => valid_AI_form a = true) more
    | GotoFail _ => True
    end.
Proof.
  induction fuel as [|fuel IH]; intros ctx aival p f Hok Hin; cbn [query_loop].
  - destruct (Ascii.eqb _ _); [|done]. intros [= <-]. split; [done|].
    exists []. by rewrite app_nil_r.
  - destruct (Ascii.eqb _ _).
    { intros [= <-]. split; [done|]. exists []. by rewrite app_nil_r. }
    set (p1 := p + count_amp (drop p buf)).
    set (r := match strchr buf p1 "&" with
              | Some r => r
              | None => p1 + strlen buf p1
              end).
    assert (Hr : r - p1 <= strlen buf p1).
    { unfold r. destruct (strchr buf p1 "&") as [r0|] eqn:Er; [|lia].
      apply strchr_Some in Er as (a & b & Hs & -> & _).
      unfold strlen. rewrite Hs, length_app. lia. }
    destruct (memchr buf p1 "=" (r - p1)) as [e|] eqn:Em; [|by apply IH].
    apply memchr_Some in Em.
    destruct (allDigits buf p1 (e - p1)) eqn:Ed; [|by apply IH].
    destruct (Nat.ltb_spec (e - p1) 2) as [?|Hge2]; [by intros [= <-]|].
    destruct (Nat.ltb_spec 4 (e - p1)) as [?|Hle4]; [by intros [= <-]|]. simpl.
    destruct (Nat.eqb_spec r (e + 1)) as [?|Hre]; [by intros [= <-]|].
    destruct (URIunescape_total aival GS1_DL_MAX_AI_LEN buf (e + 1) (r - (e + 1)) true)
      as (aival' & n & -> & Hmax & Hmin).
    destruct (Nat.eqb_spec n 0) as [Hz|Hn0]; [by intros [= <-]|].
    pose proof (store_AI_context_ok ctx buf p1 (e - p1) aival' n Hok) as Hst.
    pose proof (store_AI_ai_texts ctx buf p1 (e - p1) aival' n
                  (proj1 (proj2 Hok)) Hin) as Hst'.
    destruct (store_AI ctx buf p1 (e - p1) aival' n) as [[ctx' aival'']|c'];
      [|by intros [= <-]].
    destruct Hst as [Hok' Hn']; [lia|lia|lia|].
    destruct Hst' as [Hin' Ht']; [lia|].
    intros E. apply IH in E; [|done|done].
    destruct f as [[c0 ?]|]; [|done]. destruct E as (? & more & -> & Hmore).
    split; [done|]. rewrite Ht', <- app_assoc. eexists. split; [done|].
    constructor; [|done].
    set (a := take (e - p1) (cstr buf p1)).
    assert (Hla : length a = e - p1)
      by (unfold a; rewrite length_take; unfold strlen in Hr; lia).
    assert (Hs : cstr buf p1 = a ++ drop (e - p1) (cstr buf p1))
      by (unfold a; by rewrite take_drop).
    rewrite <- Hla, (allDigits_forallb buf p1 a _ Hs) in Ed.
    unfold valid_AI_form. rewrite Ed, Hla.
    rewrite (proj2 (Nat.leb_le _ _)), (proj2 (Nat.leb_le _ _)) by lia. done.
Qed.

Lemma locate_and_extract_ai_texts (fuel : nat) (B : list ascii) (pi : nat)
    (qp fr : option nat) (ctx' : gs1DLparser) (buf' : list ascii) :
  B !! pi = Some "/" ->
  locate_and_extract fuel ctx_reset B pi qp fr = Some (true, ctx', buf') ->
  exists k more,
    ai_texts ctx' = k :: more /\ is_pkey k = true
    /\ Forall (fun a => valid_AI_form a = true) more.
Proof.
  intros Hpi. unfold locate_and_extract.
  destruct (find_dp fuel B pi pi) as [[buf [d|]]|] eqn:Ef; [| |done].
  2:{ unfold label_fail, label_out. by intros [= ? ?]. }
  destruct (find_dp_found B pi fuel B pi (cstr B pi) [] d buf)
    as (-> & t' & k & v & ps & Hs & -> & Hkey & Hsf & Hq); try done.
  { by rewrite app_nil_r. }
  { constructor. }
  { constructor. }
  { by apply poke_id. }
  assert (Hva : Forall (fun av => valid_AI_form (fst av) = true) ((k, v) :: ps)).
  { constructor; [by apply pkey_valid_form|].
    eapply Forall_impl; [exact Hq|]. by intros ? [? _]. }
  destruct (path_loop fuel B ctx_reset aival0 (pi + length t')) as [f|] eqn:Ep;
    [|done].
  pose proof Ep as Ep'.
  apply (path_loop_context_ok B ((k, v) :: ps)) in Ep; try done.
  2:{ by apply cstr_suffix. }
  2:{ apply context_ok_reset. }
  apply (path_loop_ai_texts B ((k, v) :: ps)) in Ep'; try done.
  2:{ by apply cstr_suffix. }
  2:{ apply context_ok_reset. }
  2:{ constructor. }
  destruct f as [[ctx1 aival1]|c].
  2:{ unfold label_fail, label_out. by intros [= ? ?]. }
  destruct Ep as [Hok1 _]. destruct Ep' as [Hin1 Ht1]. simpl in Ht1.
  apply Forall_cons in Hva as [_ Hva].
  assert (Hps : Forall (fun a => valid_AI_form a = true) (map fst ps))
    by (by apply Forall_map).
  destruct qp as [q|].
  2:{ unfold label_out. intros [= <- <-]. by exists k, (map fst ps). }
  destruct (query_loop fuel B ctx1 aival1 q) as [f|] eqn:Eq; [|done].
  apply query_loop_ai_texts in Eq; [|done|done].
  destruct f as [[ctx2 aival2]|c].
  2:{ unfold label_fail, label_out. by intros [= ? ?]. }
  unfold label_out. intros [= <- <-]. destruct Eq as (_ & more & -> & Hmore).
  rewrite Ht1. exists k, (map fst ps ++ more). split; [done|]. split; [done|].
  by apply Forall_app.
Qed.

(** X16. The AIs of a successful parse, whatever the input.  There is a
    first element, and the AI of every element after it is a text of
    two to four digits.  When the parse wrote nothing past the end of
    [aiBuf], the AI of the first element is a primary key (the byte
    after the array is the first byte of the pointer to that AI). *)
Theorem successful_parse_starts_with_a_key (ctx : gs1DLparser)
    (dlData : list ascii) :
  exists ret ctx' buf',
    gs1_parseDLuri ctx dlData = Some (ret, ctx', buf')
    /\ (ret = true ->
        exists k more,
          map (fun e => fst (fst e)) (extracted ctx') = k :: more
          /\ Forall (fun a => valid_AI_form a = true) more
          /\ (inside_aiBuf ctx' -> is_pkey k = true)).
Proof.
  destruct (gs1_parseDLuri_outcome ctx dlData) as (ret & ctx' & buf' & E & _).
  exists ret, ctx', buf'. split; [done|]. intros ->.
  destruct (parse_cases ctx dlData) as [(msg & _ & E')|(B & pi & qp & fr & Hpi & _ & E')].
  - rewrite E in E'. unfold label_fail, label_out in E'. by injection E'.
  - rewrite E in E'. symmetry in E'.
    pose proof E' as E''.
    apply locate_and_extract_context_ok in E' as [Hok Hn]; [|done].
    apply locate_and_extract_ai_texts in E'' as (k & more & Ht & Hk & Hmore);
      [|done].
    exists k, more. split; [|done].
    unfold extracted. rewrite (context_ok_elements ctx' Hok), map_map.
    exact Ht.
Qed.
(** ** The input after a search that finds no key *)

Section Chops.
Variables (B : list ascii) (pi : nat).

(** On a path made only of pairs whose AIs have the form of an AI and
    are no primary keys, the search walks back to the start of the path
    and leaves the NUL it wrote there. *)
Lemma find_dp_chops (ps : list (list ascii * list ascii)) :
  forall fuel buf p rest,
    cstr B pi = render_pairs ps ++ rest -> cstr buf pi = render_pairs ps ->
    poke buf p "/" = B -> slash_free ps -> qualifier_pairs ps ->
    length ps < fuel -> (ps = [] -> buf = poke B pi NUL) ->
    find_dp fuel buf pi p = Some (poke B pi NUL, None).
Proof.
  induction ps as [|[a v] ps IH] using rev_ind;
    intros fuel buf p rest HB Hbuf Hp Hsf Hq Hfuel Hnil.
  - rewrite find_dp_no_slash; [by rewrite Hnil|].
    rewrite Hbuf. apply not_elem_of_nil.
  - destruct fuel as [|fuel]; [lia|].
    rewrite length_app in Hfuel. simpl in Hfuel.
    apply Forall_app in Hsf as [Hsf Hav]. apply Forall_cons in Hav as [[Ha Hv] _].
    apply Forall_app in Hq as [Hq Hav]. apply Forall_cons in Hav as [[Hva Hnk] _].
    simpl in Ha, Hv, Hva, Hnk.
    rewrite render_pairs_app, render_pairs_cons in HB, Hbuf.
    change (render_pairs []) with (@nil ascii) in HB, Hbuf.
    rewrite app_nil_r in HB, Hbuf. rewrite <- app_assoc in HB.
    cbn [app] in HB. rewrite <- !app_assoc in HB. cbn [app] in HB.
    rewrite (find_dp_step B pi fuel buf p (render_pairs ps) a v rest); try done.
    rewrite Hva, Hnk. cbn [negb].
    apply (IH fuel _ _ ("/" :: a ++ "/" :: v ++ rest)); try done.
    + by apply (cstr_poke_nul B pi _ (a ++ "/" :: v ++ rest) "/").
    + apply poke_restore. by apply (cstr_lookup B pi _ (a ++ "/" :: v ++ rest)).
    + lia.
    + intros ->. simpl. by rewrite Nat.add_0_r.
Qed.
End Chops.

(** Putting the delimiters back does not touch the '/' at [pi]. *)
Lemma put_back_chop (B : list ascii) (pi : nat) (qp fr : option nat) :
  put_back B qp fr !! pi = Some "/" ->
  put_back (poke B pi NUL) qp fr = poke (put_back B qp fr) pi NUL.
Proof.
  assert (Hne : forall (b : list ascii) (i : nat) (c : ascii),
             c <> "/" -> poke b i c !! pi = Some "/" -> i <> pi).
  { intros b i c Hc H ->. unfold poke in H.
    pose proof (lookup_lt_Some _ _ _ H) as Hlt. rewrite length_insert in Hlt.
    rewrite list_lookup_insert_eq in H by exact Hlt. congruence. }
  assert (Hh : "#" <> "/") by done. assert (Hq : "?" <> "/") by done.
  unfold put_back. destruct qp as [q|], fr as [f|]; intros H.
  - pose proof (Hne _ _ _ Hh H) as Hf.
    unfold poke in H. rewrite list_lookup_insert_ne in H by done.
    pose proof (Hne _ _ _ Hq H) as Hq'.
    rewrite (poke_swap B (q - 1) pi) by done.
    by rewrite (poke_swap _ (f - 1) pi) by done.
  - pose proof (Hne _ _ _ Hq H) as Hq'.
    by rewrite (poke_swap B (q - 1) pi) by done.
  - pose proof (Hne _ _ _ Hh H) as Hf.
    by rewrite (poke_swap B (f - 1) pi) by done.
  - done.
Qed.

(** X17. The input after a search that finds no key.  When the path is
    made only of AI/value pairs whose AIs have two to four digits and
    none of which is a primary key, the parse fails with "No GS1 DL keys
    found in path info" and hands the input back with a NUL in place of
    the first '/' of the path; query and fragment delimiters are put
    back. *)
Theorem input_chopped_when_no_key (ctx : gs1DLparser)
    (scheme domain : list ascii) (ps : list (list ascii * list ascii))
    (query : option (list (list ascii))) (fragment : option (list ascii)) :
  let dl := dl_uri scheme domain (render_pairs ps) (uri_tail query fragment) in
  well_formed scheme domain (render_pairs ps) (uri_tail query fragment) ->
  slash_free ps -> qualifier_pairs ps ->
  (forall qs, query = Some qs -> "#" ∉ join_amp qs) ->
  exists ctx',
    gs1_parseDLuri ctx dl
    = Some (false, ctx', poke dl (length scheme + length domain) NUL)
    /\ err ctx' = str "No GS1 DL keys found in path info"
    /\ numAIs ctx' = 0.
Proof.
  intros dl Hwf Hsf Hq Hqs.
  pose proof (parse_past_domain ctx scheme domain _ _ Hwf) as Hparse.
  cbv zeta in Hparse. fold dl in Hparse. rewrite Hparse. clear Hparse.
  pose proof (legal_no_nul _ (well_formed_legal _ _ _ _ Hwf)) as Hnul.
  pose proof Hwf as (_ & _ & _ & [path' Hpath] & Hh & Hqm & _ & _).
  destruct (split_tail (scheme ++ domain) (render_pairs ps) query fragment)
    as (B & qp & fr & HB & HlenB & Hback & _ & Hsplit).
  { by rewrite <- app_assoc. }
  { done. }
  { done. }
  { done. }
  rewrite length_app in HB, Hsplit.
  assert (Hdl : (scheme ++ domain) ++ render_pairs ps ++ uri_tail query fragment = dl)
    by (unfold dl, dl_uri; by rewrite <- app_assoc).
  rewrite Hdl in HlenB, Hback, Hsplit. rewrite Hsplit. clear Hsplit.
  set (pi := length scheme + length domain) in *.
  assert (Hpi : B !! pi = Some "/").
  { rewrite Hpath in HB. by apply cstr_head_lookup in HB. }
  assert (Hdlpi : dl !! pi = Some "/").
  { unfold dl, dl_uri, pi. rewrite app_assoc, Hpath.
    rewrite lookup_app_r by (rewrite length_app; lia).
    by rewrite length_app, Nat.sub_diag. }
  unfold locate_and_extract.
  rewrite (find_dp_chops B pi ps (S (length dl)) B pi []); try done.
  - destruct (label_fail_final
                (set_err ctx_reset (str "No GS1 DL keys found in path info"))
                (poke B pi NUL) qp fr) as (ctx' & -> & He & Hn).
    exists ctx'. split; [|done].
    rewrite put_back_chop by (by rewrite Hback). by rewrite Hback.
  - by rewrite app_nil_r.
  - by apply poke_id.
  - pose proof (length_render_pairs ps) as Hl.
    assert (length (render_pairs ps) <= length dl); [|lia].
    unfold dl, dl_uri. rewrite !length_app. lia.
  - intros ->. by rewrite Hpath in *.
Qed.

Lemma input_chopped_when_no_key_witness :
  exists ctx',
    gs1_parseDLuri ctx_reset (str "https://a/10/ABC/21/12345?x=1#f")
    = Some (false, ctx', str "https://a" ++ NUL :: str "10/ABC/21/12345?x=1#f")
    /\ err ctx' = str "No GS1 DL keys found in path info"
    /\ numAIs ctx' = 0.
Proof.
  apply (input_chopped_when_no_key ctx_reset (str "https://") (str "a")
           [(str "10", str "ABC"); (str "21", str "12345")]
           (Some [str "x=1"]) (Some (str "f"))).
  - well_formed_by_computation.
  - repeat constructor; apply not_in_by_search; reflexivity.
  - repeat constructor.
  - intros qs [= <-]. apply not_in_by_search. reflexivity.
Defined.
(** ** The bounds of the percent decoding *)

Lemma drop_poke_below (l : list ascii) (j m : nat) (c : ascii) :
  j < m -> drop m (poke l j c) = drop m l.
Proof. intros H. unfold poke. by rewrite drop_insert_lt. Qed.

Lemma URIunescape_loop_bounds (fuel : nat) (maxlen : nat) (buf : list ascii)
    (inp inlen : nat) (q : bool) :
  forall out i j,
    inlen - i <= fuel ->
    exists out' n,
      URIunescape_loop fuel out maxlen buf inp inlen q i j = Some (out', n)
      /\ j <= n /\ (j <= maxlen -> n <= maxlen) /\ n - j <= inlen - i
      /\ length out' = length out
      /\ drop maxlen out' = drop maxlen out.
Proof.
  induction fuel as [|fuel IH]; intros out i j Hf; cbn [URIunescape_loop].
  - destruct (Nat.ltb_spec i inlen); [lia|]. simpl. exists out, j.
    repeat split; try done; lia.
  - destruct (Nat.ltb_spec i inlen); [|exists out, j; repeat split; try done; lia].
    destruct (Nat.ltb_spec j maxlen);
      [|exists out, j; repeat split; try done; lia]. simpl.
    destruct (escape_at _ _ _ _); [|destruct (q && _)].
    all: match goal with
         | |- context [URIunescape_loop _ (poke ?o ?j0 ?c) _ _ _ _ _ ?i' ?j'] =>
             destruct (IH (poke o j0 c) i' j')
               as (out' & n & -> & Hn & Hm & Hi & Hl & Hd); [lia|];
             exists out', n; split; [done|];
             split; [lia|]; split; [lia|]; split; [lia|];
             split; [by rewrite Hl; unfold poke; rewrite length_insert|];
             by rewrite Hd, drop_poke_below
         end.
Qed.

Lemma URIunescape_result_bounds (out : list ascii) (maxlen : nat)
    (buf : list ascii) (inp inlen : nat) (q : bool) :
  exists out' n,
    URIunescape out maxlen buf inp inlen q = Some (out', n)
    /\ n <= maxlen /\ n <= inlen.
Proof.
  unfold URIunescape.
  destruct (URIunescape_loop_bounds inlen maxlen buf inp inlen q out 0 0)
    as (out' & n & -> & _ & Hm & Hi & _); [lia|].
  exists (poke out' n NUL), n. split; [done|]. lia.
Qed.

(** X18. The bounds of the percent decoding.  With room for [maxlen]
    bytes and a terminator in [out], [URIunescape] returns a length that
    exceeds neither [maxlen] nor [inlen], ends the decoded bytes with a
    NUL at that offset, and leaves every byte of [out] after offset
    [maxlen] as it was. *)
Theorem URIunescape_stays_in_bounds (out : list ascii) (maxlen : nat)
    (buf : list ascii) (inp inlen : nat) (is_query_component : bool) :
  maxlen < length out ->
  exists out' n,
    URIunescape out maxlen buf inp inlen is_query_component = Some (out', n)
    /\ n <= maxlen /\ n <= inlen
    /\ length out' = length out
    /\ peek out' n = NUL
    /\ drop (S maxlen) out' = drop (S maxlen) out.
Proof.
  intros Hout. unfold URIunescape.
  destruct (URIunescape_loop_bounds inlen maxlen buf inp inlen is_query_component
              out 0 0) as (out' & n & -> & _ & Hm & Hi & Hl & Hd); [lia|].
  exists (poke out' n NUL), n. split; [done|].
  assert (Hn : n <= maxlen) by lia.
  split; [done|]. split; [lia|].
  split; [unfold poke; by rewrite length_insert|].
  split.
  - apply peek_lookup. unfold poke. apply list_lookup_insert_eq. lia.
  - rewrite drop_poke_below by lia.
    replace (S maxlen) with (maxlen + 1) by lia.
    rewrite <- !drop_drop. by rewrite Hd.
Qed.

Lemma URIunescape_stays_in_bounds_witness :
  exists out' n,
    URIunescape (replicate 5 "x") 3 (str "a%41%42%43%44") 0 13 false
    = Some (out', n)
    /\ n <= 3 /\ n <= 13
    /\ length out' = 5
    /\ peek out' n = NUL
    /\ drop 4 out' = ["x"].
Proof.
  apply (URIunescape_stays_in_bounds (replicate 5 "x") 3 (str "a%41%42%43%44")
           0 13 false).
  simpl. lia.
Defined.
(** ** The size of the output against the size of the input *)

Lemma gtin14_grows (buf : list ascii) (o l : nat) (aival : list ascii) (vlen : nat) :
  snd (gtin14 buf o l aival vlen) <= vlen + 6.
Proof.
  unfold gtin14. destruct (_ && _ && _) eqn:E; simpl; [|lia].
  apply andb_true_iff in E as [_ E].
  rewrite !orb_true_iff, !Nat.eqb_eq in E. lia.
Qed.

Lemma writeAIbuf_tight (ctx ctx' : gs1DLparser) (v : list ascii) (l : nat) :
  NUL ∉ take l v -> length (aiBuf ctx) = strlen (aiBuf ctx) 0 + 1 ->
  writeAIbuf ctx v l = Cont ctx' ->
  length (aiBuf ctx') = strlen (aiBuf ctx') 0 + 1
  /\ strlen (aiBuf ctx') 0 <= strlen (aiBuf ctx) 0 + l
  /\ aiData ctx' = aiData ctx /\ numAIs ctx' = numAIs ctx.
Proof.
  intros Hv Hlen E.
  destruct (writeAIbuf_grows ctx ctx' v l Hv E) as (Hs & Hd & Hn).
  assert (Hb : aiBuf ctx' = strncat (aiBuf ctx) v l).
  { unfold writeAIbuf in E. destruct (_ <? _); [done|]. by injection E as <-. }
  assert (Hs' : strlen (aiBuf ctx') 0 = strlen (aiBuf ctx) 0 + length (take l v))
    by (unfold strlen; by rewrite Hs, length_app).
  split; [|split; [|done]].
  - rewrite Hb at 1. rewrite strncat_length, Hs', Hlen. lia.
  - rewrite Hs', length_take. lia.
Qed.

Lemma weight_snoc (ctx : gs1DLparser) (b : list ascii) (a : gs1AIelement)
    (n : nat) (e : list ascii) :
  weight {| aiBuf := b; aiData := aiData ctx ++ [a]; numAIs := n; err := e |}
  = weight ctx + (ailen a + vallen a).
Proof.
  unfold weight. cbn [aiData]. rewrite map_app, list_sum_app. simpl. lia.
Qed.

Lemma store_AI_weight (ctx : gs1DLparser) (buf : list ascii) (o l : nat)
    (aival : list ascii) (vlen : nat) (K : nat) :
  tight ctx -> weight ctx <= K + 6 * numAIs ctx ->
  match store_AI ctx buf o l aival vlen with
  | Cont (ctx', _) =>
      tight ctx' /\ weight ctx' <= K + l + vlen + 6 * numAIs ctx'
  | GotoFail c =>
      length (aiBuf c) <= K + l + vlen + 6 * (GS1_DL_MAX_AIS + 1) + 1
  end.
Proof.
  intros (Hlen & Hb & Hw & Hmax) HK. unfold store_AI.
  pose proof (gtin14_grows buf o l aival vlen) as Hg.
  destruct (gtin14 buf o l aival vlen) as [aival' vlen']. simpl in Hg.
  assert (Hna : NUL ∉ take l (cstr buf o)) by apply take_no_nul, cstr_no_nul.
  assert (Hnv : NUL ∉ take vlen' (cstr aival' 0)) by apply take_no_nul, cstr_no_nul.
  destruct (writeAIbuf ctx (cstr buf o) l) as [ctx1|c] eqn:E1.
  2:{ unfold writeAIbuf in E1. destruct (_ <? _); [|done]. injection E1 as <-. lia. }
  destruct (writeAIbuf_tight ctx ctx1 _ _ Hna Hb E1) as (Hb1 & Hs1 & Hd1 & Hn1).
  destruct (writeAIbuf ctx1 (cstr aival' 0) vlen') as [ctx2|c] eqn:E2.
  2:{ unfold writeAIbuf in E2. destruct (_ <? _); [|done]. injection E2 as <-. lia. }
  destruct (writeAIbuf_tight ctx1 ctx2 _ _ Hnv Hb1 E2) as (Hb2 & Hs2 & Hd2 & Hn2).
  rewrite Hn2, Hn1, Hd2, Hd1.
  destruct (Nat.ltb_spec (numAIs ctx) GS1_DL_MAX_AIS); [|cbn [aiBuf set_err]; lia].
  rewrite <- Hlen, firstn_all. rewrite weight_snoc. cbn [ailen vallen].
  split.
  - unfold tight. cbn [aiData numAIs aiBuf]. rewrite weight_snoc.
    cbn [ailen vallen]. rewrite length_app. simpl.
    split; [lia|]. split; [done|]. split; lia.
  - cbn [numAIs]. lia.
Qed.

Lemma tight_stays (ctx : gs1DLparser) (K : nat) :
  tight ctx -> weight ctx <= K + 6 * numAIs ctx ->
  length (aiBuf ctx) <= K + 6 * (GS1_DL_MAX_AIS + 1) + 1.
Proof. intros (_ & Hb & Hw & Hmax) HK. lia. Qed.

Section PathWeight.
Variable B : list ascii.

Lemma path_loop_weight (ps : list (list ascii * list ascii)) :
  forall fuel ctx aival p f K,
    cstr B p = render_pairs ps -> slash_free ps ->
    tight ctx -> weight ctx <= K + 6 * numAIs ctx ->
    path_loop fuel B ctx aival p = Some f ->
    match f with
    | Cont (c, _) =>
        tight c /\ weight c <= K + length (render_pairs ps) + 6 * numAIs c
    | GotoFail c =>
        length (aiBuf c)
        <= K + length (render_pairs ps) + 6 * (GS1_DL_MAX_AIS + 1) + 1
    end.
Proof.
  induction ps as [|[a v] ps IH]; intros fuel ctx aival p f K Hs Hsf Ht HK E.
  - apply cstr_nil_peek in Hs.
    assert (f = Cont (ctx, aival)) as ->.
    { destruct fuel; simpl in E; rewrite Hs in E; simpl in E; congruence. }
    simpl. split; [done|lia].
  - rewrite render_pairs_cons in Hs.
    destruct fuel as [|fuel].
    { simpl in E. pose proof (cstr_peek B p [] _ _ Hs) as Hp. simpl in Hp.
      rewrite Nat.add_0_r in Hp. rewrite Hp in E. done. }
    apply Forall_cons in Hsf as [[Ha Hv] Hsf]. simpl in Ha, Hv.
    rewrite (path_loop_step B fuel ctx aival p a v (render_pairs ps)) in E; try done.
    2:{ destruct ps as [|[a' v'] ps']; [by left|right].
        rewrite render_pairs_cons. by eexists. }
    assert (Hsize : length (render_pairs ((a, v) :: ps))
                    = 2 + length a + length v + length (render_pairs ps)).
    { rewrite render_pairs_cons.
      repeat first [ rewrite length_app | rewrite length_cons ]. lia. }
    rewrite Hsize.
    destruct v as [|c v].
    { injection E as <-. pose proof (tight_stays ctx K Ht HK).
      cbn [aiBuf set_err length]. lia. }
    destruct (URIunescape_result_bounds aival GS1_DL_MAX_AI_LEN B
                (p + 1 + length a + 1) (length (c :: v)) false)
      as (aival' & n & Eu & Hmax & Hin).
    rewrite Eu in E.
    destruct (Nat.eqb_spec n 0) as [Hz|Hn0].
    { injection E as <-. pose proof (tight_stays ctx K Ht HK).
      cbn [aiBuf set_err]. lia. }
    pose proof (store_AI_weight ctx B (p + 1) (length a) aival' n K Ht HK) as Hst.
    destruct (store_AI ctx B (p + 1) (length a) aival' n) as [[ctx' aival'']|c'].
    2:{ injection E as <-. lia. }
    destruct Hst as [Ht' HK'].
    apply (IH _ _ _ _ _ (K + length a + n)) in E; try done.
    + destruct f as [[c0 ?]|c0]; [|lia]. destruct E as [? Hw].
      split; [done|]. lia.
    + replace (p + 1 + length a + 1 + length (c :: v))
        with (p + length ("/" :: a ++ "/" :: c :: v))
        by (simpl; rewrite length_app; simpl; lia).
      apply cstr_suffix. rewrite Hs. simpl. rewrite <- app_assoc. done.
Qed.
End PathWeight.

(** A parameter and what is left of the query after it. *)
Lemma query_span (buf : list ascii) (p : nat) :
  let p1 := p + count_amp (drop p buf) in
  let r := match strchr buf p1 "&" with
           | Some r => r
           | None => p1 + strlen buf p1
           end in
  p1 <= r /\ (r - p1) + strlen buf r <= strlen buf p.
Proof.
  intros p1 r. pose proof (strlen_skip_amp buf p) as Hskip. fold p1 in Hskip.
  unfold r. destruct (strchr buf p1 "&") as [r0|] eqn:Er.
  - apply strchr_Some in Er as (a & b & Hs & -> & _).
    pose proof (cstr_suffix buf p1 a _ Hs) as Hr.
    unfold strlen in *. rewrite Hr. rewrite Hs, length_app in Hskip. lia.
  - pose proof (cstr_suffix buf p1 (cstr buf p1) [] ltac:(by rewrite app_nil_r)) as Hr.
    unfold strlen in *. rewrite Hr. simpl. lia.
Qed.

Lemma query_loop_weight (buf : list ascii) (fuel : nat) :
  forall ctx aival p f K,
    tight ctx -> weight ctx <= K + 6 * numAIs ctx ->
    query_loop fuel buf ctx aival p = Some f ->
    match f with
    | Cont (c, _) => tight c /\ weight c <= K + strlen buf p + 6 * numAIs c
    | GotoFail c =>
        length (aiBuf c) <= K + strlen buf p + 6 * (GS1_DL_MAX_AIS + 1) + 1
    end.
Proof.
  induction fuel as [|fuel IH]; intros ctx aival p f K Ht HK; cbn [query_loop].
  - destruct (Ascii.eqb _ _); [|done]. intros [= <-]. split; [done|lia].
  - destruct (Ascii.eqb _ _).
    { intros [= <-]. split; [done|lia]. }
    pose proof (query_span buf p) as Hspan. cbv zeta in Hspan.
    set (p1 := p + count_amp (drop p buf)) in *.
    set (r := match strchr buf p1 "&" with
              | Some r => r
              | None => p1 + strlen buf p1
              end) in *.
    destruct Hspan as [Hle Hspan].
    assert (Hskip : forall f0,
               query_loop fuel buf ctx aival r = Some f0 ->
               match f0 with
               | Cont (c, _) => tight c /\ weight c <= K + strlen buf p + 6 * numAIs c
               | GotoFail c =>
                   length (aiBuf c)
                   <= K + strlen buf p + 6 * (GS1_DL_MAX_AIS + 1) + 1
               end).
    { intros f0 E. apply (IH _ _ _ _ K) in E; [|done|done].
      destruct f0 as [[c0 ?]|c0]; [|lia]. destruct E. split; [done|lia]. }
    assert (Hstop : forall msg,
               length (aiBuf (set_err ctx msg))
               <= K + strlen buf p + 6 * (GS1_DL_MAX_AIS + 1) + 1).
    { intros msg. pose proof (tight_stays ctx K Ht HK).
      cbn [aiBuf set_err]. lia. }
    destruct (memchr buf p1 "=" (r - p1)) as [e|] eqn:Em; [|by apply Hskip].
    apply memchr_Some in Em.
    destruct (allDigits buf p1 (e - p1)); [|by apply Hskip].
    destruct ((e - p1 <? 2) || (4 <? e - p1)); [intros [= <-]; apply Hstop|].
    destruct (Nat.eqb_spec r (e + 1)) as [?|Hre]; [intros [= <-]; apply Hstop|].
    destruct (URIunescape_result_bounds aival GS1_DL_MAX_AI_LEN buf (e + 1)
                (r - (e + 1)) true) as (aival' & n & -> & Hmax & Hin).
    destruct (Nat.eqb_spec n 0) as [Hz|Hn0]; [intros [= <-]; apply Hstop|].
    pose proof (store_AI_weight ctx buf p1 (e - p1) aival' n K Ht HK) as Hst.
    destruct (store_AI ctx buf p1 (e - p1) aival' n) as [[ctx' aival'']|c'].
    2:{ intros [= <-]. lia. }
    destruct Hst as [Ht' HK'].
    intros E. apply (IH _ _ _ _ (K + (e - p1) + n)) in E; [|done|done].
    destruct f as [[c0 ?]|c0]; [|lia]. destruct E as [? Hw]. split; [done|lia].
Qed.

Lemma strlen_from (buf : list ascii) (p : nat) :
  p <= strlen buf 0 -> strlen buf p + p = strlen buf 0.
Proof.
  unfold strlen. intros Hp. set (s := cstr buf 0) in *.
  assert (Hl : length (take p s) = p) by (rewrite length_take; lia).
  assert (H1 : cstr buf (0 + length (take p s)) = drop p s).
  { apply cstr_suffix. fold s. by rewrite take_drop. }
  rewrite Hl in H1. simpl in H1. rewrite H1, length_drop. lia.
Qed.

(** Cutting a string at a delimiter: what is before it and what is
    after it. *)
Lemma strlen_cut (buf : list ascii) (p q : nat) (c : ascii) :
  strchr buf p c = Some q ->
  buf !! q = Some c /\ p <= q
  /\ strlen (poke buf q NUL) p + strlen (poke buf q NUL) (q + 1) < strlen buf p
  /\ strlen (poke buf q NUL) p <= strlen buf p.
Proof.
  intros E. pose proof (strchr_lookup _ _ _ _ E) as Hq.
  apply strchr_Some in E as (a & b & Hs & -> & _).
  split; [done|]. split; [lia|].
  pose proof (cstr_poke_nul buf p a b c Hs) as H1.
  assert (H2 : cstr (poke buf (p + length a) NUL) (p + length a + 1) = b).
  { rewrite cstr_poke_before by lia.
    replace (p + length a + 1) with (p + length (a ++ [c]))
      by (rewrite length_app; simpl; lia).
    apply cstr_suffix. by rewrite Hs, <- app_assoc. }
  unfold strlen. rewrite H1, H2, Hs, length_app. simpl. lia.
Qed.

(** Cutting the input at '#' and at '?': what stays of the path and of
    the query is no longer than what was there, the path is cut at the
    first of the two delimiters, and putting them back gives the input
    again. *)
Lemma delimiters_split (dlData : list ascii) (pi : nat) :
  dlData !! pi = Some "/" ->
  exists B qp fr,
    B !! pi = Some "/"
    /\ strlen B pi + match qp with Some q => strlen B q | None => 0 end
       <= strlen dlData pi
    /\ put_back B qp fr = dlData
    /\ (exists tail,
          cstr dlData pi = cstr B pi ++ tail
          /\ (tail = [] \/ exists t, tail = "?" :: t \/ tail = "#" :: t))
    /\ forall (A : Type) (k : list ascii -> option nat -> option nat -> A),
         (let '(buf, fr) := match strchr dlData pi "#" with
                            | Some f => (poke dlData f NUL, Some (f + 1))
                            | None => (dlData, None)
                            end in
          let '(buf, qp) := match strchr buf pi "?" with
                            | Some q => (poke buf q NUL, Some (q + 1))
                            | None => (buf, None)
                            end in
          k buf qp fr) = k B qp fr.
Proof.
  intros Hr. unfold put_back.
  destruct (strchr dlData pi "#") as [f|] eqn:Ef.
  - destruct (strlen_cut _ _ _ _ Ef) as (Hf & _ & _ & Hcut).
    assert (Hr1 : poke dlData f NUL !! pi = Some "/")
      by (by apply (chop_keeps dlData pi f "#" "/")).
    pose proof Ef as Ef'.
    apply strchr_Some in Ef' as (af & bf & Hsf & -> & _).
    pose proof (cstr_poke_nul _ _ _ _ _ Hsf) as Hcf.
    destruct (strchr (poke dlData (pi + length af) NUL) pi "?") as [q|] eqn:Eq.
    + destruct (strlen_cut _ _ _ _ Eq) as (Hq & _ & Hcut' & _).
      pose proof Eq as Eq'.
      apply strchr_Some in Eq' as (aq & bq & Hsq & -> & _).
      pose proof (cstr_poke_nul _ _ _ _ _ Hsq) as Hcq.
      exists (poke (poke dlData (pi + length af) NUL) (pi + length aq) NUL),
             (Some (pi + length aq + 1)), (Some (pi + length af + 1)).
      split; [by apply (chop_keeps _ pi _ "?" "/")|]. split; [lia|].
      split; [|split; [|done]].
      * rewrite !Nat.add_sub.
        by rewrite (poke_restore _ _ _ _ Hq), (poke_restore _ _ _ _ Hf).
      * exists ("?" :: bq ++ "#" :: bf). split; [|right; eexists; by left].
        rewrite Hcq, Hsf. rewrite Hcf in Hsq. rewrite Hsq.
        by rewrite <- !app_assoc.
    + exists (poke dlData (pi + length af) NUL), None, (Some (pi + length af + 1)).
      split; [done|]. split; [lia|]. split; [|split; [|done]].
      * rewrite Nat.add_sub. by rewrite (poke_restore _ _ _ _ Hf).
      * exists ("#" :: bf). split; [by rewrite Hcf|right; eexists; by right].
  - destruct (strchr dlData pi "?") as [q|] eqn:Eq.
    + destruct (strlen_cut _ _ _ _ Eq) as (Hq & _ & Hcut' & _).
      pose proof Eq as Eq'.
      apply strchr_Some in Eq' as (aq & bq & Hsq & -> & _).
      pose proof (cstr_poke_nul _ _ _ _ _ Hsq) as Hcq.
      exists (poke dlData (pi + length aq) NUL), (Some (pi + length aq + 1)), None.
      split; [by apply (chop_keeps _ pi _ "?" "/")|]. split; [lia|].
      split; [|split; [|done]].
      * rewrite Nat.add_sub. by rewrite (poke_restore _ _ _ _ Hq).
      * exists ("?" :: bq). split; [by rewrite Hcq|right; eexists; by left].
    + exists dlData, None, None. split; [done|]. split; [lia|].
      split; [done|]. split; [|done].
      exists []. split; [by rewrite app_nil_r|by left].
Qed.

(** The splitter either fails, the input untouched, or hands the path
    and the query to the search and the loops. *)
Lemma parse_cases_split (ctx : gs1DLparser) (dlData : list ascii) :
  (exists msg,
      msg <> []
      /\ gs1_parseDLuri ctx dlData
         = Some (label_fail (set_err ctx_reset msg) dlData None None))
  \/ (exists B pi qp fr,
        B !! pi = Some "/" /\ dlData !! pi = Some "/"
        /\ strlen B pi + match qp with Some q => strlen B q | None => 0 end
           <= strlen dlData 0
        /\ put_back B qp fr = dlData
        /\ (exists tail,
              cstr dlData pi = cstr B pi ++ tail
              /\ (tail = [] \/ exists t, tail = "?" :: t \/ tail = "#" :: t))
        /\ gs1_parseDLuri ctx dlData
           = locate_and_extract (S (length dlData)) ctx_reset B pi qp fr).
Proof.
  unfold gs1_parseDLuri.
  destruct (negb _).
  { left. eexists. split; [|reflexivity]. done. }
  cbv zeta. cbn [Nat.add].
  destruct ((8 <=? strlen dlData 0) && _) eqn:E8.
  2: destruct ((7 <=? strlen dlData 0) && _) eqn:E7.
  3:{ left. eexists. split; [|reflexivity]. done. }
  all: match goal with
       | H : (_ <=? strlen _ 0) && _ = true |- _ =>
           apply andb_true_iff in H as [Hp _]; apply Nat.leb_le in Hp
       end.
  all: match goal with
       | |- context [strchr ?d ?p "/"] =>
           destruct (strchr d p "/") as [r|] eqn:Er;
             [|left; eexists; split; [|reflexivity]; done];
           destruct (r - p <? 1); [left; eexists; split; [|reflexivity]; done|];
           pose proof (strlen_from d p Hp) as Hfrom
       end.
  all: right; pose proof (strchr_lookup _ _ _ _ Er) as Hr.
  all: apply strchr_Some in Er as (a & b & Hs & -> & _).
  all: pose proof (cstr_suffix _ _ a _ Hs) as Hs'.
  all: destruct (delimiters_split _ _ Hr)
         as (B & qp & fr & HB & Hsize & Hback & Htail & Hk).
  all: eexists B, _, qp, fr; split; [exact HB|]; split; [exact Hr|].
  all: split; [|split; [exact Hback|split; [exact Htail|apply Hk]]].
  all: unfold strlen in *; rewrite Hs' in Hsize;
         rewrite Hs, length_app in Hfrom; simpl in *; lia.
Qed.

Lemma tight_reset : tight ctx_reset.
Proof.
  unfold tight. split; [reflexivity|]. split; [reflexivity|].
  vm_compute. lia.
Qed.

Lemma locate_and_extract_weight (fuel : nat) (B : list ascii) (pi : nat)
    (qp fr : option nat) (ctx' : gs1DLparser) (buf' : list ascii) :
  B !! pi = Some "/" ->
  locate_and_extract fuel ctx_reset B pi qp fr = Some (true, ctx', buf') ->
  tight ctx'
  /\ weight ctx'
     <= strlen B pi + match qp with Some q => strlen B q | None => 0 end
        + 6 * numAIs ctx'.
Proof.
  intros Hpi. unfold locate_and_extract.
  destruct (find_dp fuel B pi pi) as [[buf [d|]]|] eqn:Ef; [| |done].
  2:{ unfold label_fail, label_out. by intros [= ? ?]. }
  destruct (find_dp_found B pi fuel B pi (cstr B pi) [] d buf)
    as (-> & t' & k & v & ps & Hs & -> & Hkey & Hsf & Hq); try done.
  { by rewrite app_nil_r. }
  { constructor. }
  { constructor. }
  { by apply poke_id. }
  destruct (path_loop fuel B ctx_reset aival0 (pi + length t')) as [f|] eqn:Ep;
    [|done].
  apply (path_loop_weight B ((k, v) :: ps) _ _ _ _ _ 0) in Ep;
    [|by apply cstr_suffix|done|apply tight_reset|vm_compute; lia].
  destruct f as [[ctx1 aival1]|c].
  2:{ unfold label_fail, label_out. by intros [= ? ?]. }
  destruct Ep as [Ht1 Hw1].
  assert (Hpath : length (render_pairs ((k, v) :: ps)) <= strlen B pi)
    by (unfold strlen; rewrite Hs, length_app; lia).
  destruct qp as [q|].
  2:{ unfold label_out. intros [= <- <-]. split; [done|lia]. }
  destruct (query_loop fuel B ctx1 aival1 q) as [f|] eqn:Eq; [|done].
  apply (query_loop_weight B _ _ _ _ _ (0 + length (render_pairs ((k, v) :: ps))))
    in Eq; [|done|done].
  destruct f as [[ctx2 aival2]|c].
  2:{ unfold label_fail, label_out. by intros [= ? ?]. }
  unfold label_out. intros [= <- <-]. destruct Eq as [Ht2 Hw2].
  split; [done|lia].
Qed.

Lemma list_sum_perm (l l' : list nat) : l ≡ₚ l' -> list_sum l = list_sum l'.
Proof. induction 1; simpl; lia. Qed.

Lemma concat_length_weight (item : gs1AIelement -> list ascii) (k : nat)
    (l : list gs1AIelement) :
  (forall a, length (item a) <= 2 * (ailen a + vallen a) + k) ->
  length (concat (map item l))
  <= 2 * list_sum (map (fun a => ailen a + vallen a) l) + k * length l.
Proof.
  intros H. induction l as [|a l IH]; simpl; [lia|].
  rewrite length_app. specialize (H a). lia.
Qed.

Section Linear.
Variable ctx : gs1DLparser.
Hypothesis Hlen : length (aiData ctx) = numAIs ctx.

Lemma emitted_weight (fixedFirst : bool) :
  list_sum (map (fun a => ailen a + vallen a)
              (emission_order fixedFirst (elements ctx))) = weight ctx
  /\ length (emission_order fixedFirst (elements ctx)) = numAIs ctx.
Proof.
  assert (He : elements ctx = aiData ctx).
  { unfold elements, aiData_at. rewrite <- Hlen. apply nth_seq_all. }
  pose proof (emission_order_perm fixedFirst (elements ctx)) as Hp.
  split.
  - unfold weight. rewrite <- He. apply list_sum_perm. by apply fmap_Permutation.
  - by rewrite (Permutation_length Hp), He.
Qed.

Lemma unbracketed_linear (fixedFirst extraFNC1 : bool) :
  length (gs1_writeUnbracketedAIelementString ctx fixedFirst extraFNC1)
  <= 2 * weight ctx + numAIs ctx + 1.
Proof.
  unfold gs1_writeUnbracketedAIelementString.
  rewrite (passes_emit ctx (unbr_item ctx extraFNC1)).
  etrans; [apply strip_shorter|].
  destruct (emitted_weight fixedFirst) as [<- <-].
  rewrite length_app. simpl.
  pose proof (concat_length_weight (unbr_item ctx extraFNC1) 1
                (emission_order fixedFirst (elements ctx))) as H.
  etrans; [apply le_n_S, H|lia].
  intros a. unfold unbr_item.
  pose proof (prec_s_length ctx (ailen a) (ai a)).
  pose proof (prec_s_length ctx (vallen a) (value a)).
  rewrite !length_app. destruct (_ || _); simpl; lia.
Qed.

Lemma bracketed_linear (fixedFirst : bool) :
  length (gs1_writeBracketedAIelementString ctx fixedFirst)
  <= 2 * weight ctx + 2 * numAIs ctx.
Proof.
  unfold gs1_writeBracketedAIelementString.
  rewrite (passes_emit ctx (brkt_item ctx)).
  destruct (emitted_weight fixedFirst) as [<- <-]. cbn [app].
  apply (concat_length_weight (brkt_item ctx) 2).
  intros a. unfold brkt_item.
  pose proof (prec_s_length ctx (ailen a) (ai a)).
  pose proof (escaped_value_length ctx (fun c => Ascii.eqb c "(") a).
  cbn [length]. rewrite length_app. cbn [length]. lia.
Qed.

Lemma json_linear (fixedFirst : bool) :
  length (gs1_writeJSON ctx fixedFirst) <= 2 * weight ctx + 6 * numAIs ctx + 1.
Proof.
  unfold gs1_writeJSON. rewrite (passes_emit ctx (json_item ctx)).
  unfold poke. rewrite length_insert.
  destruct (emitted_weight fixedFirst) as [<- <-].
  rewrite length_app. simpl.
  pose proof (concat_length_weight (json_item ctx) 6
                (emission_order fixedFirst (elements ctx))) as H.
  etrans; [apply le_n_S, H|lia].
  intros a. unfold json_item.
  pose proof (prec_s_length ctx (ailen a) (ai a)).
  pose proof (escaped_value_length ctx
                (fun c => Ascii.eqb c "\" || Ascii.eqb c dquote) a).
  cbn [length]. rewrite !length_app. cbn [length]. lia.
Qed.
End Linear.

(** What a successful parse leaves, against the length of the input. *)
Lemma parse_leaves_tight (ctx : gs1DLparser) (dlData : list ascii) :
  exists ret ctx' buf',
    gs1_parseDLuri ctx dlData = Some (ret, ctx', buf')
    /\ (ret = true ->
        tight ctx' /\ numAIs ctx' <= GS1_DL_MAX_AIS
        /\ weight ctx' <= strlen dlData 0 + 6 * numAIs ctx').
Proof.
  destruct (gs1_parseDLuri_outcome ctx dlData) as (ret & ctx' & buf' & E & _).
  exists ret, ctx', buf'. split; [done|]. intros ->.
  destruct (parse_cases_split ctx dlData)
    as [(msg & _ & E')|(B & pi & qp & fr & Hpi & _ & Hsize & _ & _ & E')].
  - rewrite E in E'. unfold label_fail, label_out in E'. by injection E'.
  - rewrite E in E'. symmetry in E'. pose proof E' as E''.
    apply locate_and_extract_context_ok in E' as [(Hmax & _) _]; [|done].
    apply locate_and_extract_weight in E'' as [Ht Hw]; [|done].
    split; [done|]. split; [done|lia].
Qed.

(** X19. The size of the output against the size of the input.  After a
    successful parse of an input of [n] bytes before its terminator,
    with [k] elements stored: [aiBuf] holds at most [n + 6 k] bytes and
    a terminator, the unbracketed string has at most [2 n + 13 k + 1]
    bytes, the bracketed string at most [2 n + 14 k] and the JSON text
    at most [2 n + 18 k + 1].  The six bytes per element are those that
    the padding of a GTIN adds. *)
Theorem output_is_linear_in_input (ctx : gs1DLparser) (dlData : list ascii) :
  exists ret ctx' buf',
    gs1_parseDLuri ctx dlData = Some (ret, ctx', buf')
    /\ (ret = true ->
        let n := strlen dlData 0 in
        let k := numAIs ctx' in
        k <= GS1_DL_MAX_AIS
        /\ length (aiBuf ctx') <= n + 6 * k + 1
        /\ forall fixedFirst,
            (forall extraFNC1,
                length (gs1_writeUnbracketedAIelementString ctx' fixedFirst extraFNC1)
                <= 2 * n + 13 * k + 1)
            /\ length (gs1_writeBracketedAIelementString ctx' fixedFirst)
               <= 2 * n + 14 * k
            /\ length (gs1_writeJSON ctx' fixedFirst) <= 2 * n + 18 * k + 1).
Proof.
  destruct (parse_leaves_tight ctx dlData) as (ret & ctx' & buf' & E & H).
  exists ret, ctx', buf'. split; [done|]. intros Hret. cbv zeta.
  destruct (H Hret) as ((Hlen & Hb & Hs) & Hk & Hw).
  split; [done|]. split; [lia|]. intros ff.
  pose proof (bracketed_linear ctx' Hlen ff).
  pose proof (json_linear ctx' Hlen ff).
  split; [|split; lia].
  intros x. pose proof (unbracketed_linear ctx' Hlen ff x). lia.
Qed.

Lemma label_fail_aiBuf_length (c : gs1DLparser) (buf : list ascii)
    (qp fr : option nat) (ret : bool) (ctx' : gs1DLparser) (buf' : list ascii) :
  Some (label_fail c buf qp fr) = Some (ret, ctx', buf') -> aiBuf ctx' = aiBuf c.
Proof.
  unfold label_fail, label_out. intros [= _ <- _]. cbn [aiBuf].
  by destruct (err c).
Qed.

Lemma locate_and_extract_aiBuf_size (fuel : nat) (B : list ascii) (pi : nat)
    (qp fr : option nat) (ret : bool) (ctx' : gs1DLparser) (buf' : list ascii) :
  B !! pi = Some "/" ->
  locate_and_extract fuel ctx_reset B pi qp fr = Some (ret, ctx', buf') ->
  length (aiBuf ctx')
  <= strlen B pi + match qp with Some q => strlen B q | None => 0 end
     + 6 * (GS1_DL_MAX_AIS + 1) + 1.
Proof.
  intros Hpi. unfold locate_and_extract.
  destruct (find_dp fuel B pi pi) as [[buf [d|]]|] eqn:Ef; [| |done].
  2:{ intros E. apply label_fail_aiBuf_length in E. rewrite E. simpl. lia. }
  destruct (find_dp_found B pi fuel B pi (cstr B pi) [] d buf)
    as (-> & t' & k & v & ps & Hs & -> & Hkey & Hsf & Hq); try done.
  { by rewrite app_nil_r. }
  { constructor. }
  { constructor. }
  { by apply poke_id. }
  destruct (path_loop fuel B ctx_reset aival0 (pi + length t')) as [f|] eqn:Ep;
    [|done].
  apply (path_loop_weight B ((k, v) :: ps) _ _ _ _ _ 0) in Ep;
    [|by apply cstr_suffix|done|apply tight_reset|vm_compute; lia].
  assert (Hpath : length (render_pairs ((k, v) :: ps)) <= strlen B pi)
    by (unfold strlen; rewrite Hs, length_app; lia).
  destruct f as [[ctx1 aival1]|c].
  2:{ intros E. apply label_fail_aiBuf_length in E. rewrite E. lia. }
  destruct Ep as [Ht1 Hw1].
  destruct qp as [q|].
  2:{ unfold label_out. intros [= _ <- _].
      pose proof (tight_stays ctx1 _ Ht1 Hw1). lia. }
  destruct (query_loop fuel B ctx1 aival1 q) as [f|] eqn:Eq; [|done].
  apply (query_loop_weight B _ _ _ _ _ (0 + length (render_pairs ((k, v) :: ps))))
    in Eq; [|done|done].
  destruct f as [[ctx2 aival2]|c].
  2:{ intros E. apply label_fail_aiBuf_length in E. rewrite E. lia. }
  unfold label_out. intros [= _ <- _]. destruct Eq as [Ht2 Hw2].
  pose proof (tight_stays ctx2 _ Ht2 Hw2). lia.
Qed.

Lemma parse_aiBuf_size (ctx : gs1DLparser) (dlData : list ascii)
    (ret : bool) (ctx' : gs1DLparser) (buf' : list ascii) :
  gs1_parseDLuri ctx dlData = Some (ret, ctx', buf') ->
  length (aiBuf ctx') <= strlen dlData 0 + 6 * (GS1_DL_MAX_AIS + 1) + 1.
Proof.
  intros E.
  destruct (parse_cases_split ctx dlData)
    as [(msg & _ & E')|(B & pi & qp & fr & Hpi & _ & Hsize & _ & _ & E')].
  - rewrite E in E'. symmetry in E'.
    apply label_fail_aiBuf_length in E'. rewrite E'. simpl. lia.
  - rewrite E in E'. symmetry in E'.
    apply locate_and_extract_aiBuf_size in E'; [|done]. lia.
Qed.

(** X20. The overrun of [aiBuf] needs a long input.  Whatever the input
    and however the parse ends, the bytes written to [aiBuf],
    terminator included, are at most the length of the input plus six
    per element that could be stored or tried; so an input of fewer
    than [GS1_DL_MAX_AI_BUF - 6 * (GS1_DL_MAX_AIS + 1)] bytes leaves
    [aiBuf] inside its array. *)
Theorem aiBuf_overrun_needs_long_input (ctx : gs1DLparser) (dlData : list ascii) :
  exists ret ctx' buf',
    gs1_parseDLuri ctx dlData = Some (ret, ctx', buf')
    /\ length (aiBuf ctx') <= strlen dlData 0 + 6 * (GS1_DL_MAX_AIS + 1) + 1
    /\ (strlen dlData 0 + 6 * (GS1_DL_MAX_AIS + 1) < GS1_DL_MAX_AI_BUF ->
        length (aiBuf ctx') <= GS1_DL_MAX_AI_BUF).
Proof.
  destruct (gs1_parseDLuri_outcome ctx dlData) as (ret & ctx' & buf' & E & _).
  exists ret, ctx', buf'. split; [done|].
  pose proof (parse_aiBuf_size ctx dlData ret ctx' buf' E) as Hb.
  split; [done|]. lia.
Qed.
(** ** When the input comes back changed *)

Section NoKey.
Variables (B : list ascii) (pi : nat).
Hypothesis HBpi : B !! pi = Some "/".

(** When the search returns NULL it has put every '/' back, or it has
    walked over a path made only of pairs that are no primary keys and
    left its NUL at the start of the path. *)
Lemma find_dp_none (fuel : nat) :
  forall buf p t ps buf',
    cstr B pi = t ++ render_pairs ps -> slash_free ps -> qualifier_pairs ps ->
    cstr buf pi = t -> poke buf p "/" = B ->
    buf = B \/ (buf = poke B p NUL /\ p = pi + length t) ->
    find_dp fuel buf pi p = Some (buf', None) ->
    buf' = B
    \/ (buf' = poke B pi NUL
        /\ exists ps', cstr B pi = render_pairs ps' /\ slash_free ps'
                       /\ qualifier_pairs ps').
Proof.
  induction fuel as [|fuel IH]; intros buf p t ps buf' Hs Hps Hq Ht Hp Hbuf E.
  - simpl in E. destruct (strrchr buf pi "/") eqn:Er; [done|].
    injection E as <-. apply strrchr_None in Er. rewrite Ht in Er.
    destruct Hbuf as [->|[-> ->]]; [by left|]. right.
    destruct t as [|c t].
    + rewrite Nat.add_0_r. split; [done|]. by exists ps.
    + exfalso. apply Er. rewrite <- app_comm_cons in Hs.
      apply cstr_head_lookup in Hs. rewrite HBpi in Hs. injection Hs as <-.
      by left.
  - destruct (rindex_of "/" t) as [r|] eqn:Er.
    2:{ apply rindex_of_None in Er.
        rewrite find_dp_no_slash in E by (by rewrite Ht).
        injection E as <-.
        destruct Hbuf as [->|[-> ->]]; [by left|]. right.
        destruct t as [|c t].
        - rewrite Nat.add_0_r. split; [done|]. by exists ps.
        - exfalso. apply Er. rewrite <- app_comm_cons in Hs.
          apply cstr_head_lookup in Hs. rewrite HBpi in Hs. injection Hs as <-.
          by left. }
    apply rindex_of_Some in Er as (t1 & v & -> & _ & Hv).
    destruct (rindex_of "/" t1) as [r1|] eqn:Er1.
    2:{ rewrite (find_dp_one_slash B pi fuel buf p t1 v (render_pairs ps)) in E;
          try done.
        - injection E as <-. by left.
        - rewrite Hs, <- app_assoc. reflexivity.
        - by apply rindex_of_None. }
    apply rindex_of_Some in Er1 as (t0 & a & -> & _ & Ha).
    rewrite <- !app_assoc in Hs. rewrite <- !app_assoc in Ht.
    simpl in Hs, Ht.
    rewrite (find_dp_step B pi fuel buf p t0 a v (render_pairs ps)) in E by done.
    destruct (valid_AI_form a) eqn:Eva; simpl in E; [|injection E as <-; by left].
    destruct (is_pkey a) eqn:Ek; [done|].
    apply (IH (poke B (pi + length t0) NUL) (pi + length t0) t0 ((a, v) :: ps)
             buf'); try done.
    + by rewrite render_pairs_cons.
    + by constructor.
    + by constructor.
    + by apply (cstr_poke_nul _ _ _ _ _ Hs).
    + by apply poke_restore, (cstr_lookup _ _ _ _ _ Hs).
    + by right.
Qed.
End NoKey.

Lemma label_out_buffer (ret : bool) (c : gs1DLparser) (buf : list ascii)
    (qp fr : option nat) (ret' : bool) (ctx' : gs1DLparser) (buf' : list ascii) :
  Some (label_out ret c buf qp fr) = Some (ret', ctx', buf') ->
  buf' = put_back buf qp fr.
Proof. unfold label_out. by intros [= _ _ <-]. Qed.

Lemma label_fail_buffer (c : gs1DLparser) (buf : list ascii)
    (qp fr : option nat) (ret : bool) (ctx' : gs1DLparser) (buf' : list ascii) :
  Some (label_fail c buf qp fr) = Some (ret, ctx', buf') ->
  ret = false /\ buf' = put_back buf qp fr /\ err ctx' = final_err (err c).
Proof.
  destruct (label_fail_final c buf qp fr) as (c' & -> & He & _).
  by intros [= <- <- <-].
Qed.

(** The buffer that the search and the loops hand back. *)
Lemma locate_and_extract_buffer (fuel : nat) (B : list ascii) (pi : nat)
    (qp fr : option nat) (ret : bool) (ctx' : gs1DLparser) (buf' : list ascii) :
  B !! pi = Some "/" ->
  locate_and_extract fuel ctx_reset B pi qp fr = Some (ret, ctx', buf') ->
  buf' = put_back B qp fr
  \/ (ret = false /\ err ctx' = str "No GS1 DL keys found in path info"
      /\ buf' = put_back (poke B pi NUL) qp fr
      /\ exists ps, cstr B pi = render_pairs ps /\ slash_free ps
                    /\ qualifier_pairs ps).
Proof.
  intros Hpi. unfold locate_and_extract.
  destruct (find_dp fuel B pi pi) as [[buf [d|]]|] eqn:Ef; [| |done].
  2:{ intros E. apply label_fail_buffer in E as (-> & -> & He).
      destruct (find_dp_none B pi Hpi fuel B pi (cstr B pi) [] buf)
        as [->|(-> & Hps)]; try done.
      - by rewrite app_nil_r.
      - constructor.
      - constructor.
      - by apply poke_id.
      - by left.
      - by left.
      - right. done. }
  destruct (find_dp_found B pi fuel B pi (cstr B pi) [] d buf)
    as (-> & _); try done.
  { by rewrite app_nil_r. }
  { constructor. }
  { constructor. }
  { by apply poke_id. }
  intros E. left.
  destruct (path_loop fuel B ctx_reset aival0 d) as [[[ctx1 aival1]|c]|]; [| |done].
  2:{ by apply label_fail_buffer in E as (_ & -> & _). }
  destruct qp as [q|]; [|by apply label_out_buffer in E].
  destruct (query_loop fuel B ctx1 aival1 q) as [[[ctx2 aival2]|c]|]; [| |done].
  - by apply label_out_buffer in E.
  - by apply label_fail_buffer in E as (_ & -> & _).
Qed.

(** A successful parse hands the buffer back as it was. *)
Lemma parse_success_buffer (ctx : gs1DLparser) (dlData : list ascii)
    (ctx' : gs1DLparser) (buf' : list ascii) :
  gs1_parseDLuri ctx dlData = Some (true, ctx', buf') -> buf' = dlData.
Proof.
  intros E.
  destruct (parse_cases_split ctx dlData)
    as [(msg & _ & E')|(B & pi & qp & fr & Hpi & Hdl & _ & Hback & _ & E')].
  - rewrite E in E'. symmetry in E'.
    by apply label_fail_buffer in E' as (? & _).
  - rewrite E in E'. symmetry in E'.
    apply locate_and_extract_buffer in E' as [->|(? & _)]; done.
Qed.

(** The splitter either fails, the input untouched, or has found the
    scheme, a domain that is not empty and the '/' that ends it, and
    hands the path and the query to the search and the loops. *)
Lemma parse_cases_domain (ctx : gs1DLparser) (dlData : list ascii) :
  (exists msg,
      msg <> []
      /\ gs1_parseDLuri ctx dlData
         = Some (label_fail (set_err ctx_reset msg) dlData None None))
  \/ (exists scheme domain B qp fr,
        (scheme = str "https://" \/ scheme = str "http://")
        /\ domain <> [] /\ ("/" ∉ domain)
        /\ cstr dlData 0 = scheme ++ domain ++ cstr dlData (length scheme + length domain)
        /\ B !! (length scheme + length domain) = Some "/"
        /\ dlData !! (length scheme + length domain) = Some "/"
        /\ put_back B qp fr = dlData
        /\ (exists tail,
              cstr dlData (length scheme + length domain)
              = cstr B (length scheme + length domain) ++ tail
              /\ (tail = [] \/ exists t, tail = "?" :: t \/ tail = "#" :: t))
        /\ gs1_parseDLuri ctx dlData
           = locate_and_extract (S (length dlData)) ctx_reset B
               (length scheme + length domain) qp fr).
Proof.
  unfold gs1_parseDLuri.
  destruct (negb _).
  { left. eexists. split; [|reflexivity]. done. }
  cbv zeta. cbn [Nat.add].
  destruct ((8 <=? strlen dlData 0) && _) eqn:E8.
  2: destruct ((7 <=? strlen dlData 0) && _) eqn:E7.
  3:{ left. eexists. split; [|reflexivity]. done. }
  1: unfold strlen in E8;
     apply (proj1 (scheme_tests (cstr dlData 0))) in E8 as [r0 Hr0].
  2: unfold strlen in E7;
     apply (proj2 (scheme_tests (cstr dlData 0))) in E7 as [r0 Hr0].
  all: match goal with
       | |- context [strchr ?d ?p "/"] =>
           destruct (strchr d p "/") as [r|] eqn:Er;
             [|left; eexists; split; [|reflexivity]; done];
           destruct (Nat.ltb_spec (r - p) 1) as [|Hdom];
             [left; eexists; split; [|reflexivity]; done|]
       end.
  all: right; pose proof (strchr_lookup _ _ _ _ Er) as Hr.
  all: apply strchr_Some in Er as (a & b & Hs & -> & Hna).
  all: pose proof (cstr_suffix _ _ a _ Hs) as Hs'.
  all: destruct (delimiters_split _ _ Hr)
         as (B & qp & fr & HB & Hsize & Hback & Htail & Hk).
  1: exists (str "https://"), a, B, qp, fr.
  2: exists (str "http://"), a, B, qp, fr.
  all: change (length (str "https://")) with 8;
       change (length (str "http://")) with 7.
  all: split; [by auto|].
  all: split; [intros ->; simpl in Hdom; lia|].
  all: split; [exact Hna|].
  all: split; [|split; [exact HB|split; [exact Hr|
                 split; [exact Hback|split; [exact Htail|apply Hk]]]]].
  all: rewrite Hs'.
  all: match goal with
       | |- _ = ?sch ++ _ =>
           pose proof (cstr_suffix dlData 0 sch r0 Hr0) as H0
       end.
  all: simpl in H0; rewrite Hs in H0; by rewrite Hr0, H0.
Qed.

(** X22. When the input comes back changed.  Whatever the input, the
    buffer is handed back as it was, except when the parse fails with
    "No GS1 DL keys found in path info" on a path that is made only of
    AI/value pairs whose AIs have two to four digits and are no primary
    keys: the text of the input is then "https://" or "http://", a
    domain without '/', these pairs, each as "/AI/value", and either
    nothing more or a tail that starts with '?' or '#'; the '/' after
    the domain is a NUL in the buffer handed back and nothing else has
    changed. *)
Theorem input_changed_only_without_key (ctx : gs1DLparser) (dlData : list ascii) :
  exists ret ctx' buf',
    gs1_parseDLuri ctx dlData = Some (ret, ctx', buf')
    /\ (buf' = dlData
        \/ (ret = false
            /\ err ctx' = str "No GS1 DL keys found in path info"
            /\ exists scheme domain ps tail,
                 (scheme = str "https://" \/ scheme = str "http://")
                 /\ domain <> [] /\ ("/" ∉ domain)
                 /\ cstr dlData 0 = scheme ++ domain ++ render_pairs ps ++ tail
                 /\ (tail = [] \/ exists t, tail = "?" :: t \/ tail = "#" :: t)
                 /\ ps <> [] /\ slash_free ps /\ qualifier_pairs ps
                 /\ dlData !! (length scheme + length domain) = Some "/"
                 /\ buf' = poke dlData (length scheme + length domain) NUL)).
Proof.
  destruct (gs1_parseDLuri_outcome ctx dlData) as (ret & ctx' & buf' & E & _).
  exists ret, ctx', buf'. split; [done|].
  destruct (parse_cases_domain ctx dlData)
    as [(msg & _ & E')
       |(scheme & domain & B & qp & fr & Hsch & Hdom & Hns & Hwhole & Hpi & Hdl
         & Hback & (tail & Htail & Hshape) & E')].
  - rewrite E in E'. symmetry in E'.
    apply label_fail_buffer in E' as (_ & -> & _). by left.
  - rewrite E in E'. symmetry in E'.
    apply locate_and_extract_buffer in E'
      as [->|(-> & He & -> & ps & Hps & Hsf & Hq)]; [by left| |done].
    right. split; [done|]. split; [done|].
    exists scheme, domain, ps, tail. split; [done|]. split; [done|].
    split; [done|]. split; [by rewrite Hwhole at 1; rewrite Htail, Hps|].
    split; [done|]. split.
    { intros ->. simpl in Hps. apply cstr_nil_peek in Hps. unfold peek in Hps.
      by rewrite (nth_lookup_Some _ _ NUL _ Hpi) in Hps. }
    split; [done|]. split; [done|]. split; [done|].
    rewrite put_back_chop by (by rewrite Hback). by rewrite Hback.
Qed.
(** ** The example application *)

Lemma strcpy_string (arg : list ascii) :
  cstr (cstr arg 0 ++ [NUL]) 0 = cstr arg 0.
Proof.
  unfold cstr at 1. rewrite drop_0. apply until_nul_app_nul, cstr_no_nul.
Qed.

Lemma written_to_fits (cap : nat) (s : list ascii) :
  length s < cap -> written_to cap s = Some (s ++ [NUL]).
Proof. intros H. unfold written_to. by rewrite (proj2 (Nat.ltb_lt _ _) H). Qed.

Lemma print_line_terminated (label : string) (s : list ascii) :
  print_line label (s ++ [NUL]) = print_line label s.
Proof.
  unfold print_line, cstr. rewrite !drop_0. by rewrite until_nul_before_nul.
Qed.

Lemma print_line_copy (label : string) (arg : list ascii) :
  print_line label (cstr arg 0) = print_line label arg.
Proof. unfold print_line. by rewrite (cstr_whole _ (cstr_no_nul arg 0)). Qed.

(** The offset and the count of [unbr_stores_step] against the bytes
    that the writer has in [out]. *)
Lemma unbr_stores_fold (ctx : gs1DLparser) (fixedFirst extraFNC1 fixedPass : bool)
    (l : list nat) :
  forall (st : nat * nat) (out : list ascii),
    fst st = length out -> snd st <= length out + 1 ->
    let st' := fold_left (fun st i => unbr_stores_step ctx fixedFirst extraFNC1
                                        fixedPass st (aiData_at ctx i)) l st in
    let out' := fold_left (fun out i =>
                             if skipped fixedFirst fixedPass (aiData_at ctx i)
                             then out
                             else out ++ unbr_item ctx extraFNC1 (aiData_at ctx i))
                          l out in
    fst st' = length out' /\ snd st' <= length out' + 1.
Proof.
  induction l as [|i l IH]; intros st out Hp Hhi; [done|].
  cbn [fold_left]. apply IH.
  - unfold unbr_stores_step. destruct (skipped _ _ _); [done|].
    unfold unbr_item. rewrite !length_app.
    destruct (extraFNC1 || fnc1 (aiData_at ctx i)); simpl; lia.
  - unfold unbr_stores_step. destruct (skipped _ _ _); [done|].
    unfold unbr_item. rewrite !length_app.
    destruct (extraFNC1 || fnc1 (aiData_at ctx i)); simpl; lia.
Qed.

(** The unbracketed writer stores into at most one byte more than the
    text it has before it drops the last '^'. *)
Lemma unbr_stores_linear (ctx : gs1DLparser) (fixedFirst extraFNC1 : bool) :
  length (aiData ctx) = numAIs ctx ->
  unbr_stores ctx fixedFirst extraFNC1 <= 2 * weight ctx + numAIs ctx + 2.
Proof.
  intros Hlen. unfold unbr_stores. cbv zeta.
  set (pre := passes ctx fixedFirst
                (fun fixedPass out a =>
                   if skipped fixedFirst fixedPass a then out
                   else out ++ unbr_item ctx extraFNC1 a) ["^"]).
  assert (Hpre : length pre <= 2 * weight ctx + numAIs ctx + 1).
  { unfold pre. rewrite (passes_emit ctx (unbr_item ctx extraFNC1)).
    destruct (emitted_weight ctx Hlen fixedFirst) as [<- <-].
    rewrite length_app. simpl.
    pose proof (concat_length_weight (unbr_item ctx extraFNC1) 1
                  (emission_order fixedFirst (elements ctx))) as H.
    etrans; [apply le_n_S, H|lia].
    intros a. unfold unbr_item.
    pose proof (prec_s_length ctx (ailen a) (ai a)).
    pose proof (prec_s_length ctx (vallen a) (value a)).
    rewrite !length_app. destruct (_ || _); simpl; lia. }
  assert (Hfinal : length (gs1_writeUnbracketedAIelementString ctx fixedFirst
                             extraFNC1) <= length pre).
  { unfold gs1_writeUnbracketedAIelementString. cbv zeta. fold pre.
    apply strip_shorter. }
  assert (Hhi : snd (let st := fold_left
                         (fun st i => unbr_stores_step ctx fixedFirst extraFNC1
                                        true st (aiData_at ctx i))
                         (seq 0 (numAIs ctx)) (1, 1) in
                     if fixedFirst
                     then fold_left
                            (fun st i => unbr_stores_step ctx fixedFirst extraFNC1
                                           false st (aiData_at ctx i))
                            (seq 0 (numAIs ctx)) st
                     else st) <= length pre + 1).
  { unfold pre, passes, for_AIs. cbv zeta.
    pose proof (unbr_stores_fold ctx fixedFirst extraFNC1 true
                  (seq 0 (numAIs ctx)) (1, 1) ["^"] eq_refl) as H1.
    cbv zeta in H1. destruct H1 as [Hp1 Hh1]; [simpl; lia|].
    destruct fixedFirst; [|exact Hh1].
    pose proof (unbr_stores_fold ctx true extraFNC1 false
                  (seq 0 (numAIs ctx)) _ _ Hp1 Hh1) as H2.
    cbv zeta in H2. by destruct H2 as [_ ?]. }
  cbv zeta in Hhi. lia.
Qed.

Lemma unbr_written_to_fits (cap : nat) (ctx : gs1DLparser)
    (fixedFirst extraFNC1 : bool) :
  unbr_stores ctx fixedFirst extraFNC1 <= cap ->
  unbr_written_to cap ctx fixedFirst extraFNC1
  = Some (gs1_writeUnbracketedAIelementString ctx fixedFirst extraFNC1 ++ [NUL]).
Proof. intros H. unfold unbr_written_to. by rewrite (proj2 (Nat.leb_le _ _) H). Qed.

(** X21. The example application stays inside its arrays.  For an
    argument of fewer than 2048 bytes, [main] runs without a write
    outside [in], [ctx.aiBuf] or one of its three output buffers.  When
    the parse fails it prints "Error: " and the message and returns 1.
    When the parse succeeds it prints nine lines and returns 0: the
    argument, the unbracketed string in its four variants, the
    bracketed string and the JSON text in their two, each after its
    label and up to its first NUL byte. *)
Theorem example_main_is_safe (ctx : gs1DLparser) (prog arg : list ascii) :
  strlen arg 0 < 2048 ->
  exists ret ctx' buf',
    gs1_parseDLuri ctx (cstr arg 0 ++ [NUL]) = Some (ret, ctx', buf')
    /\ main ctx [prog; arg]
       = Some (if ret
               then (0,
                     print_line "Provided Digital Link URI:                                 " arg
                     ++ print_line "Unbracketed element string:                                "
                          (gs1_writeUnbracketedAIelementString ctx' false false)
                     ++ print_line "Unbracketed element string (extra FNC1s):                  "
                          (gs1_writeUnbracketedAIelementString ctx' false true)
                     ++ print_line "Unbracketed element string (fixed AIs first):              "
                          (gs1_writeUnbracketedAIelementString ctx' true false)
                     ++ print_line "Unbracketed element string (fixed AIs first; extra FNC1s): "
                          (gs1_writeUnbracketedAIelementString ctx' true true)
                     ++ print_line "Bracketed element string:                                  "
                          (gs1_writeBracketedAIelementString ctx' false)
                     ++ print_line "Bracketed element string (fixed AIs first):                "
                          (gs1_writeBracketedAIelementString ctx' true)
                     ++ print_line "JSON:                                                      "
                          (gs1_writeJSON ctx' false)
                     ++ print_line "JSON (fixed AIs first):                                    "
                          (gs1_writeJSON ctx' true))
               else (1, print_line "Error: " (err ctx'))).
Proof.
  intros Harg.
  destruct (parse_leaves_tight ctx (cstr arg 0 ++ [NUL]))
    as (ret & ctx' & buf' & E & H).
  pose proof (parse_aiBuf_size _ _ _ _ _ E) as Hb.
  unfold strlen in H, Hb. rewrite strcpy_string in H, Hb.
  fold (strlen arg 0) in H, Hb.
  assert (Hbuf : (GS1_DL_MAX_AI_BUF <? length (aiBuf ctx')) = false).
  { apply Nat.ltb_ge. unfold GS1_DL_MAX_AI_BUF, GS1_DL_MAX_AIS, GS1_DL_MAX_AI_LEN in *.
    lia. }
  exists ret, ctx', buf'. split; [done|].
  unfold main, strcpy_to. rewrite (proj2 (Nat.ltb_lt _ _) Harg).
  cbn [mbind option_bind]. rewrite E. cbn [mbind option_bind]. rewrite Hbuf.
  destruct ret; cbn [negb]; [|done].
  assert (Hsame : buf' = cstr arg 0 ++ [NUL]).
  { by apply (parse_success_buffer ctx _ _ _ E). }
  destruct (H eq_refl) as ((Hlen & _) & Hk & Hw).
  assert (Hu : forall ff x, unbr_stores ctx' ff x <= GS1_DL_MAX_OUT_UNBR).
  { intros ff x. pose proof (unbr_stores_linear ctx' ff x Hlen).
    unfold GS1_DL_MAX_OUT_UNBR, GS1_DL_MAX_AIS, GS1_DL_MAX_AI_LEN in *. lia. }
  assert (Hbr : forall ff,
             length (gs1_writeBracketedAIelementString ctx' ff)
             < GS1_DL_MAX_OUT_BRKT).
  { intros ff. pose proof (bracketed_linear ctx' Hlen ff).
    unfold GS1_DL_MAX_OUT_BRKT, GS1_DL_MAX_AIS, GS1_DL_MAX_AI_LEN in *. lia. }
  assert (Hj : forall ff, length (gs1_writeJSON ctx' ff) < GS1_DL_MAX_OUT_JSON).
  { intros ff. pose proof (json_linear ctx' Hlen ff).
    unfold GS1_DL_MAX_OUT_JSON, GS1_DL_MAX_AIS, GS1_DL_MAX_AI_LEN in *. lia. }
  rewrite !(unbr_written_to_fits _ _ _ _ (Hu _ _)),
    !(written_to_fits _ _ (Hbr _)), !(written_to_fits _ _ (Hj _)).
  cbn [mbind option_bind]. rewrite Hsame, !print_line_terminated.
  by rewrite print_line_copy.
Qed.

Lemma example_main_is_safe_witness :
  exists ret ctx' buf',
    gs1_parseDLuri ctx_reset
      (cstr (str "https://id.gs1.org/01/09520123456788?17=180426") 0 ++ [NUL])
    = Some (ret, ctx', buf')
    /\ main ctx_reset
         [str "example"; str "https://id.gs1.org/01/09520123456788?17=180426"]
       = Some (if ret
               then (0,
                     print_line "Provided Digital Link URI:                                 "
                       (str "https://id.gs1.org/01/09520123456788?17=180426")
                     ++ print_line "Unbracketed element string:                                "
                          (gs1_writeUnbracketedAIelementString ctx' false false)
                     ++ print_line "Unbracketed element string (extra FNC1s):                  "
                          (gs1_writeUnbracketedAIelementString ctx' false true)
                     ++ print_line "Unbracketed element string (fixed AIs first):              "
                          (gs1_writeUnbracketedAIelementString ctx' true false)
                     ++ print_line "Unbracketed element string (fixed AIs first; extra FNC1s): "
                          (gs1_writeUnbracketedAIelementString ctx' true true)
                     ++ print_line "Bracketed element string:                                  "
                          (gs1_writeBracketedAIelementString ctx' false)
                     ++ print_line "Bracketed element string (fixed AIs first):                "
                          (gs1_writeBracketedAIelementString ctx' true)
                     ++ print_line "JSON:                                                      "
                          (gs1_writeJSON ctx' false)
                     ++ print_line "JSON (fixed AIs first):                                    "
                          (gs1_writeJSON ctx' true))
               else (1, print_line "Error: " (err ctx'))).
Proof.
  apply (example_main_is_safe ctx_reset (str "example")
           (str "https://id.gs1.org/01/09520123456788?17=180426")).
  vm_compute. lia.
Defined.
